(** * Favna/rest: request assembly, bucket handlers and the rate-limit protocol

    A shallow embedding of [src/lib/RESTManager.ts] (the manager and its
    request assembler), of the request handler ([RequestHandler], the
    per-bucket queue and the [makeRequest] retry loop) and of the CDN link
    builder ([src/lib/CDN.ts]), followed by the properties the
    specification states about them and by further properties of the code.

    Conventions of the embedding.
    - JavaScript strings are modelled by [string], read as the UTF-8 bytes
      of the text, which is the form the URL encoders work on.
    - [null] and [undefined] are kept apart wherever the source tells them
      apart: a value that may be [undefined] is an [option], and [null] is
      a constructor of [json].
    - Objects used as dictionaries (header bags, the hash table, the table
      of queues) are finite maps.
    - A JavaScript number is an IEEE 754 double, [spec_float] of the
      standard library at precision 53 with its correctly rounded
      operations; counters, option fields and clock readings are integers.
    - A timer is the platform's [setTimeout]: a delay that is not a number
      from 1 to 2^31 - 1 runs after 1 ms, and the fraction of a delay is
      dropped. *)

From Stdlib Require Import ZArith String Ascii List Bool Lia.
From Stdlib Require Import DecimalString SpecFloat.
From stdpp Require Import gmap strings list.

Local Open Scope Z_scope.
Local Open Scope string_scope.

(** ** The JavaScript fragment used by the sources *)

Module JS.

(** *** Numbers

    A number is an IEEE 754 double: [spec_float] at precision 53 and
    exponent bound 1024, with the standard library's operations, each
    the exact result rounded to the nearest double, ties to even. *)

Definition number : Type := spec_float.

Definition prec : Z := 53.
Definition emax : Z := 1024.

Definition NaN : number := S754_nan.
Definition PInf : number := S754_infinity false.
Definition NInf : number := S754_infinity true.

(** The number of an integer: the integer itself when it is a double
    (every integer up to 2^53 in magnitude is), the nearest double
    otherwise. *)
Definition of_Z (z : Z) : number := binary_normalize prec emax z 0 false.

(** [a + b] *)
Definition add (a b : number) : number := SFadd prec emax a b.

(** [- a] *)
Definition neg (a : number) : number := SFopp a.

(** [a - b] *)
Definition sub (a b : number) : number := SFsub prec emax a b.

(** [a * b] *)
Definition mul (a b : number) : number := SFmul prec emax a b.

(** [a < b]; every comparison with [NaN] is false. *)
Definition ltb (a b : number) : bool := SFltb a b.

(** [a <= b] *)
Definition leb (a b : number) : bool := SFleb a b.

(** [Math.trunc(a)] of a finite number, as an integer. *)
Definition trunc (a : number) : Z :=
  match a with
  | S754_finite s m e =>
      let magnitude := if (0 <=? e)%Z then Zpos m * 2 ^ e else Zpos m / 2 ^ (- e) in
      if s then - magnitude else magnitude
  | _ => 0
  end.

(** *** Timers

    Modelled from the platform: [sleep(delay)] of [@klasa/utils] is
    [setTimeout] as a promise.  Node coerces the delay to a number,
    replaces one that is not from 1 to [TIMEOUT_MAX] = 2^31 - 1 (a
    [NaN], a negative or a zero delay, one too long, [Infinity]) by 1,
    and drops the fraction of the others; the timer runs out that many
    milliseconds after it was started. *)

Definition TIMEOUT_MAX : Z := 2147483647.

Definition setTimeout_delay (delay : number) : Z :=
  if leb (of_Z 1) delay && leb delay (of_Z TIMEOUT_MAX) then trunc delay else 1.

(** *** Characters and digits *)

Definition byte_in (lo hi : N) (c : ascii) : bool :=
  (lo <=? N_of_ascii c)%N && (N_of_ascii c <=? hi)%N.

Definition is_digit (c : ascii) : bool := byte_in 48 57 c.
Definition is_upper (c : ascii) : bool := byte_in 65 90 c.
Definition is_lower (c : ascii) : bool := byte_in 97 122 c.
Definition is_alnum (c : ascii) : bool := is_digit c || is_upper c || is_lower c.

Definition is_one_of (set : string) (c : ascii) : bool :=
  existsb (Ascii.eqb c) (list_ascii_of_string set).

Definition hex_digit (n : N) : ascii :=
  if (n <? 10)%N then ascii_of_N (48 + n) else ascii_of_N (55 + n).

Definition hex_digit_lower (n : N) : ascii :=
  if (n <? 10)%N then ascii_of_N (48 + n) else ascii_of_N (87 + n).

(** [%XX], upper-case hexadecimal, of one byte. *)
Definition percent_byte (c : ascii) : string :=
  String "%" (String (hex_digit (N_of_ascii c / 16))
                (String (hex_digit (N_of_ascii c mod 16)) EmptyString)).

Fixpoint flat_map_string (f : ascii -> string) (s : string) : string :=
  match s with
  | EmptyString => EmptyString
  | String c rest => f c +:+ flat_map_string f rest
  end.

Fixpoint join (sep : string) (parts : list string) : string :=
  match parts with
  | [] => ""
  | [p] => p
  | p :: rest => p +:+ sep +:+ join sep rest
  end.

(** *** Values *)

(** JSON data; a JavaScript number is kept at its integer values. *)
#[warnings="-register-all"]
Inductive json : Type :=
| JNull
| JBool (b : bool)
| JNumber (z : Z)
| JString (s : string)
| JArray (items : list json)
| JObject (fields : list (string * json)).

(** A value that may be [undefined]: [None] is [undefined]. *)
Definition value : Type := option json.

Definition undefined : value := None.
Definition null : value := Some JNull.

(** Decimal text of an integer, as [String(n)] prints it. *)
Definition string_of_Z (z : Z) : string := NilZero.string_of_int (Z.to_int z).

(** [String(v)], the conversion template literals and [URLSearchParams]
    apply.  Inside [Array.prototype.join], [null] prints as the empty
    string. *)
Fixpoint json_to_string (j : json) : string :=
  match j with
  | JNull => "null"
  | JBool true => "true"
  | JBool false => "false"
  | JNumber z => string_of_Z z
  | JString s => s
  | JArray items =>
      join "," (map (fun i => match i with
                              | JNull => ""
                              | _ => json_to_string i
                              end) items)
  | JObject _ => "[object Object]"
  end.

Definition to_string (v : value) : string :=
  match v with
  | None => "undefined"
  | Some j => json_to_string j
  end.

(** Truthiness of a string that may be [null] or [undefined]. *)
Definition truthy (s : option string) : bool :=
  match s with
  | None => false
  | Some "" => false
  | Some _ => true
  end.

(** [v !== null] *)
Definition strict_not_null (v : value) : bool :=
  match v with
  | Some JNull => false
  | _ => true
  end.

(** [typeof v], as far as the sources use it. *)
Definition typeof (v : value) : string :=
  match v with
  | None => "undefined"
  | Some JNull => "object"
  | Some (JBool _) => "boolean"
  | Some (JNumber _) => "number"
  | Some (JString _) => "string"
  | Some (JArray _) => "object"
  | Some (JObject _) => "object"
  end.

(** [s !== undefined] for a string [s]: operands of different types are
    never strictly equal, so the test holds for every string. *)
Definition string_strict_neq_undefined (s : string) : bool := true.

(** [v != null]: loose inequality, false for [null] and [undefined]. *)
Definition loose_not_null (v : value) : bool :=
  match v with
  | None => false
  | Some JNull => false
  | Some _ => true
  end.

(** *** Encoders *)

(** The [application/x-www-form-urlencoded] byte serializer: letters,
    digits and [*-._] stay, a space becomes [+], every other byte is
    percent-encoded. *)
Definition form_byte (c : ascii) : string :=
  if is_alnum c || is_one_of "*-._" c then String c EmptyString
  else if Ascii.eqb c " " then "+"
  else percent_byte c.

Definition form_encode (s : string) : string := flat_map_string form_byte s.

(** [new URLSearchParams(pairs).toString()] *)
Definition URLSearchParams (pairs : list (string * value)) : string :=
  join "&" (map (fun p => form_encode (fst p) +:+ "=" +:+ form_encode (to_string (snd p)))
                pairs).

(** [encodeURIComponent]: letters, digits and [-_.!~*'()] stay. *)
Definition uri_component_byte (c : ascii) : string :=
  if is_alnum c || is_one_of "-_.!~*'()" c then String c EmptyString
  else percent_byte c.

Definition encodeURIComponent (s : string) : string :=
  flat_map_string uri_component_byte s.

(** String literals of [JSON.stringify]. *)
Definition json_escape_byte (c : ascii) : string :=
  let n := N_of_ascii c in
  if (n =? 34)%N then "\" +:+ String c EmptyString
  else if (n =? 92)%N then "\\"
  else if (n =? 8)%N then "\b"
  else if (n =? 9)%N then "\t"
  else if (n =? 10)%N then "\n"
  else if (n =? 12)%N then "\f"
  else if (n =? 13)%N then "\r"
  else if (n <? 32)%N then
    "\u00" +:+ String (hex_digit_lower (n / 16))
                 (String (hex_digit_lower (n mod 16)) EmptyString)
  else String c EmptyString.

Definition json_quote (s : string) : string :=
  String (ascii_of_N 34) (flat_map_string json_escape_byte s)
    +:+ String (ascii_of_N 34) EmptyString.

(** [JSON.stringify(j)] *)
Fixpoint JSON_stringify (j : json) : string :=
  match j with
  | JNull => "null"
  | JBool true => "true"
  | JBool false => "false"
  | JNumber z => string_of_Z z
  | JString s => json_quote s
  | JArray items => "[" +:+ join "," (map JSON_stringify items) +:+ "]"
  | JObject fields =>
      "{" +:+ join "," (map (fun f => json_quote (fst f) +:+ ":" +:+ JSON_stringify (snd f))
                            fields) +:+ "}"
  end.

(** *** [Number(text)]

    The conversion of a text to a number (StringToNumber of the
    language): white space and line terminators around the literal are
    dropped; the empty text is [0]; a literal is [Infinity] or a decimal
    literal (digits with an optional fraction and an optional exponent),
    with an optional sign, or a hexadecimal, octal or binary integer
    without one; any other text is [NaN].  The value of a decimal
    literal is the nearest double to the number it writes. *)

Definition is_byte (n : N) (c : ascii) : bool := (N_of_ascii c =? n)%N.

(** White space and line terminators, as UTF-8: TAB, LF, VT, FF, CR and
    SP; U+00A0; U+1680, U+2000 to U+200A, U+2028, U+2029, U+202F,
    U+205F, U+3000 and U+FEFF. *)
Definition white1 (a : ascii) : bool :=
  byte_in 9 13 a || is_byte 32 a.

Definition white2 (a b : ascii) : bool :=
  is_byte 194 a && is_byte 160 b.

Definition white3 (a b c : ascii) : bool :=
  (is_byte 225 a && is_byte 154 b && is_byte 128 c)
  || (is_byte 226 a && is_byte 128 b
      && (byte_in 128 138 c || is_byte 168 c || is_byte 169 c || is_byte 175 c))
  || (is_byte 226 a && is_byte 129 b && is_byte 159 c)
  || (is_byte 227 a && is_byte 128 b && is_byte 128 c)
  || (is_byte 239 a && is_byte 187 b && is_byte 191 c).

Fixpoint trim_start (s : string) : string :=
  match s with
  | EmptyString => EmptyString
  | String a rest =>
      if white1 a then trim_start rest
      else
        match rest with
        | String b rest2 =>
            if white2 a b then trim_start rest2
            else
              match rest2 with
              | String c rest3 => if white3 a b c then trim_start rest3 else s
              | EmptyString => s
              end
        | EmptyString => s
        end
  end.

Definition all_white (s : string) : bool :=
  match trim_start s with
  | EmptyString => true
  | String _ _ => false
  end.

Fixpoint trim_end (s : string) : string :=
  match s with
  | EmptyString => EmptyString
  | String c rest => if all_white s then EmptyString else String c (trim_end rest)
  end.

Definition trim (s : string) : string := trim_end (trim_start s).

(** The value of a digit in a radix, when it is one. *)
Definition digit_value (radix : N) (c : ascii) : option N :=
  let n := N_of_ascii c in
  let v := if is_digit c then Some (n - 48)%N
           else if byte_in 97 102 c then Some (n - 87)%N
           else if byte_in 65 70 c then Some (n - 55)%N
           else None in
  match v with
  | Some d => if (d <? radix)%N then Some d else None
  | None => None
  end.

(** The digits at the head of a text, their value, their count, and the
    rest of the text. *)
Fixpoint take_digits (radix : N) (acc : N) (count : nat) (s : string)
  : N * nat * string :=
  match s with
  | EmptyString => (acc, count, s)
  | String c rest =>
      match digit_value radix c with
      | Some d => take_digits radix (radix * acc + d)%N (S count) rest
      | None => (acc, count, s)
      end
  end.

(** A text made of digits, one at least. *)
Definition all_digits (radix : N) (s : string) : option N :=
  match take_digits radix 0 0 s with
  | (n, S _, EmptyString) => Some n
  | _ => None
  end.

(** [0x], [0o] and [0b] literals. *)
Definition radix_literal (s : string) : option N :=
  match s with
  | String z (String r digits) =>
      if is_byte 48 z then
        if is_one_of "xX" r then all_digits 16 digits
        else if is_one_of "oO" r then all_digits 8 digits
        else if is_one_of "bB" r then all_digits 2 digits
        else None
      else None
  | _ => None
  end.

(** The exponent part, [e] or [E] and a signed integer, or nothing. *)
Definition exponent_part (s : string) : option Z :=
  match s with
  | EmptyString => Some 0
  | String e rest =>
      if is_one_of "eE" e then
        match rest with
        | String "-" digits =>
            match all_digits 10 digits with
            | Some n => Some (- Z.of_N n)
            | None => None
            end
        | String "+" digits =>
            match all_digits 10 digits with
            | Some n => Some (Z.of_N n)
            | None => None
            end
        | _ =>
            match all_digits 10 rest with
            | Some n => Some (Z.of_N n)
            | None => None
            end
        end
      else None
  end.

(** The double nearest to [digits * 10^exponent], with the sign given. *)
Definition decimal_value (negative : bool) (digits : N) (exponent : Z) : number :=
  match digits with
  | N0 => S754_zero negative
  | Npos p =>
      if (0 <=? exponent)%Z
      then binary_normalize prec emax
             ((if negative then Zneg p else Zpos p) * 10 ^ exponent) 0 false
      else SFdiv prec emax (S754_finite negative p 0)
                 (S754_finite false (Z.to_pos (10 ^ (- exponent))) 0)
  end.

(** An unsigned decimal literal: digits, an optional point and more
    digits (one digit at least on one side of the point), an optional
    exponent. *)
Definition unsigned_decimal (negative : bool) (s : string) : number :=
  let '(int_value, int_count, after_int) := take_digits 10 0 0 s in
  let '(value, frac_count, after_frac) :=
    match after_int with
    | String "." rest =>
        let '(v, count, after) := take_digits 10 int_value 0 rest in (v, count, after)
    | _ => (int_value, 0%nat, after_int)
    end in
  if ((int_count + frac_count)%nat =? 0)%nat then NaN
  else
    match exponent_part after_frac with
    | Some e => decimal_value negative value (e - Z.of_nat frac_count)
    | None => NaN
    end.

Definition unsigned_number (negative : bool) (s : string) : number :=
  if String.eqb s "Infinity" then S754_infinity negative
  else unsigned_decimal negative s.

Definition Number (text : string) : number :=
  match trim text with
  | EmptyString => of_Z 0
  | String "-" rest => unsigned_number true rest
  | String "+" rest => unsigned_number false rest
  | s =>
      match radix_literal s with
      | Some n => of_Z (Z.of_N n)
      | None => unsigned_number false s
      end
  end.

End JS.

(** ** Errors and completions *)

(** Modelled from the spec: the error classes [HTTPError] and
    [DiscordAPIError] are declared in [../errors], which is not among the
    sources; each is kept as the arguments its constructor is called
    with, which are the fields the specification lists.  The other
    constructors are the exceptions of the language and of the
    transport that the sources raise or let through. *)
Inductive Error : Type :=
| PlainError (message : string)
    (** [new Error(message)] *)
| FetchRejection (name : string)
    (** a rejection of [fetch]; [name] is the [error.name] the handler
        inspects, ["AbortError"] for a timed-out request *)
| TypeError
    (** reading a property of [null] *)
| HTTPError (statusText name : string) (status : Z) (method : string) (url : string)
| DiscordAPIError (message code : JS.value) (status : Z) (method : string) (url : string).

(** Normal or abrupt completion of a call. *)
Inductive completion (A : Type) : Type :=
| Ok (a : A)
| Throw (e : Error).

Arguments Ok {A} a.
Arguments Throw {A} e.

(** ** Request and route descriptions *)

Module REST.

(** Modelled from the spec: the declarations of [RouteIdentifier] and
    [Request] live in [./REST], which is not among the sources; the
    fields are those of the specification's data model, with the
    optionality the assembler tests for. *)
Record RouteIdentifier : Type := {
  route : string;
  majorParameter : string
}.

(** Content of an upload: a byte buffer, or text. *)
Inductive FileData : Type :=
| Buffer (bytes : string)
| Text (s : string).

Record File : Type := {
  name : string;
  file : option FileData
}.

Record Request : Type := {
  method : string;
  endpoint : string;
  query : option (list (string * JS.value));
  headers : option (gmap string string);
  data : JS.value;
  files : option (list (option File));
  auth : option bool;
  reason : option string
}.

(** Truthiness of [file.file]: a buffer is an object and always truthy,
    text is truthy unless empty. *)
Definition file_truthy (f : option FileData) : bool :=
  match f with
  | None => false
  | Some (Buffer _) => true
  | Some (Text s) => JS.truthy (Some s)
  end.

End REST.

(** ** Multipart bodies ([form-data]) and fetch options *)

Module Fetch.

Record FormPart : Type := {
  field : string;
  content : REST.FileData;
  filename : option string
}.

(** A [FormData] object: its boundary, drawn when the object is created,
    and the parts appended so far. *)
Record FormData : Type := {
  boundary : string;
  parts : list FormPart
}.

Definition FormData_new (boundary : string) : FormData :=
  {| boundary := boundary; parts := [] |}.

Definition append (body : FormData) (f : string) (c : REST.FileData)
           (fname : option string) : FormData :=
  {| boundary := boundary body;
     parts := parts body ++ [{| field := f; content := c; filename := fname |}] |}.

Definition getHeaders (body : FormData) : gmap string string :=
  {[ "content-type" := "multipart/form-data; boundary=" +:+ boundary body ]}.

Inductive Body : Type :=
| Json (text : string)
| Multipart (form : FormData).

(** The options handed to [fetch]; the shared keep-alive [agent] is a
    constant of the module and carries no data. *)
Record RequestInit : Type := {
  method : string;
  headers : gmap string string;
  body : option Body
}.

(** [{ ...a, ...b, ...c }]: later objects win on equal keys. *)
Definition spread (objects : list (gmap string string)) : gmap string string :=
  foldl (fun acc o => o ∪ acc) ∅ objects.

End Fetch.

(** ** Constants ([util/Constants]) *)

Module Constants.

(** The two entries of [package.json] the user agent quotes; the file is
    not among the sources, so they are parameters. *)
Record Package : Type := {
  repository_url : string;
  package_version : string
}.

Definition UserAgent (pkg : Package) : string :=
  "DiscordBot (" +:+ repository_url pkg +:+ ", " +:+ package_version pkg +:+ ")".

End Constants.

(** ** Bucket state ([RequestHandler], fields and getters) *)

Module Handler.

(** The handler's own fields.  [asyncQueue] lists the calls of [push]
    that hold or await the queue, oldest first: the head is the call in
    progress.  The back reference to the manager is passed to the
    methods instead of being stored. *)
Record RequestHandler : Type := {
  id : string;
  asyncQueue : list nat;
  reset : JS.number;
  remaining : JS.number;
  limit : JS.number;
  hash : string;
  majorParameter : string
}.

Definition new (hash majorParameter : string) : RequestHandler :=
  {| id := hash +:+ ":" +:+ majorParameter;
     asyncQueue := [];
     reset := JS.of_Z (-1);
     remaining := JS.of_Z 1;
     limit := JS.PInf;
     hash := hash;
     majorParameter := majorParameter |}.

(** [asyncQueue.remaining] *)
Definition queue_remaining (h : RequestHandler) : nat := length (asyncQueue h).

(** [get limited]; [now] is the reading of [Date.now()]. *)
Definition limited (now : Z) (h : RequestHandler) : bool :=
  JS.leb (remaining h) (JS.of_Z 0) && JS.ltb (JS.of_Z now) (reset h).

(** [get inactive] *)
Definition inactive (now : Z) (h : RequestHandler) : bool :=
  (queue_remaining h =? 0)%nat && negb (limited now h).

(** [get timeToReset] *)
Definition timeToReset (now : Z) (h : RequestHandler) : JS.number :=
  JS.sub (reset h) (JS.of_Z now).

(** [asyncQueue.wait()] called by push number [tid] *)
Definition wait (tid : nat) (h : RequestHandler) : RequestHandler :=
  {| id := id h; asyncQueue := asyncQueue h ++ [tid]; reset := reset h;
     remaining := remaining h; limit := limit h; hash := hash h;
     majorParameter := majorParameter h |}.

(** [asyncQueue.shift()] *)
Definition shift (h : RequestHandler) : RequestHandler :=
  {| id := id h; asyncQueue := tail (asyncQueue h); reset := reset h;
     remaining := remaining h; limit := limit h; hash := hash h;
     majorParameter := majorParameter h |}.

End Handler.

(** ** The manager ([RESTManager]) *)

Module Manager.

Record RESTOptions : Type := {
  userAgentAppendix : string;
  offset : Z;
  retries : Z;
  timeout : Z;
  version : Z;
  api : string;
  cdn : string
}.

(** The manager's fields.  [globalTimeout] holds the identity of the
    pending promise, or [None] for [null]. *)
Record RESTManager : Type := {
  globalTimeout : option nat;
  options : RESTOptions;
  hashes : gmap string string;
  queues : gmap string Handler.RequestHandler;
  token : option string
}.

Definition set_queues (qs : gmap string Handler.RequestHandler) (m : RESTManager)
  : RESTManager :=
  {| globalTimeout := globalTimeout m; options := options m; hashes := hashes m;
     queues := qs; token := token m |}.

Definition set_hashes (hs : gmap string string) (m : RESTManager) : RESTManager :=
  {| globalTimeout := globalTimeout m; options := options m; hashes := hs;
     queues := queues m; token := token m |}.

Definition set_globalTimeout (g : option nat) (m : RESTManager) : RESTManager :=
  {| globalTimeout := g; options := options m; hashes := hashes m;
     queues := queues m; token := token m |}.

(** The setter [set token]. *)
Definition set_token (t : string) (m : RESTManager) : RESTManager :=
  {| globalTimeout := globalTimeout m; options := options m; hashes := hashes m;
     queues := queues m; token := Some t |}.

(** The constructor, from the options already merged with the defaults
    and the value of [process.env.DISCORD_TOKEN]. *)
Definition new (merged : RESTOptions) (DISCORD_TOKEN : option string) : RESTManager :=
  {| globalTimeout := None;
     options := {| userAgentAppendix := userAgentAppendix merged;
                   offset := Z.max 0 (offset merged);
                   retries := retries merged;
                   timeout := timeout merged;
                   version := version merged;
                   api := api merged;
                   cdn := cdn merged |};
     hashes := ∅;
     queues := ∅;
     token := if JS.truthy DISCORD_TOKEN then DISCORD_TOKEN else None |}.

(** [queues.sweep(handler => handler.inactive)], the body of the sweeper:
    [Cache.sweep] deletes the entries its predicate accepts. *)
Definition sweep (now : Z) (m : RESTManager) : RESTManager :=
  set_queues (filter (fun kv => Handler.inactive now (snd kv) = false) (queues m)) m.

(** [createQueue] *)
Definition createQueue (hash majorParameter : string) (m : RESTManager)
  : RESTManager * Handler.RequestHandler :=
  let queue := Handler.new hash majorParameter in
  (set_queues (<[Handler.id queue := queue]> (queues m)) m, queue).

Section Assembly.

Variable pkg : Constants.Package.

(** The filter applied to [request.query]:
    [value !== null && typeof value !== undefined]. *)
Definition query_filter (pair : string * JS.value) : bool :=
  JS.strict_not_null (snd pair)
  && JS.string_strict_neq_undefined (JS.typeof (snd pair)).

(** The loop over [request.files]: an entry is appended when both it
    and its [file] are truthy. *)
Definition appendFiles (body : Fetch.FormData) (files : list (option REST.File))
  : Fetch.FormData :=
  foldl (fun body file =>
           match file with
           | Some f =>
               match REST.file f with
               | Some c =>
                   if REST.file_truthy (REST.file f)
                   then Fetch.append body (REST.name f) c (Some (REST.name f))
                   else body
               | None => body
               end
           | None => body
           end) body files.

(** The body branch of [resolveRequest]: the body and the additional
    headers, each possibly left [undefined]. *)
Definition resolveBody (boundary : string) (request : REST.Request)
  : option Fetch.Body * option (gmap string string) :=
  match REST.files request with
  | Some (f :: fs) =>
      let body := appendFiles (Fetch.FormData_new boundary) (f :: fs) in
      let body :=
        match REST.data request with
        | Some d => Fetch.append body "payload_json"
                      (REST.Text (JS.JSON_stringify d)) None
        | None => body
        end in
      (Some (Fetch.Multipart body), Some (Fetch.getHeaders body))
  | _ =>
      if JS.loose_not_null (REST.data request)
      then (Some (Fetch.Json (JS.JSON_stringify (default JS.JNull (REST.data request)))),
            Some {[ "Content-Type" := "application/json" ]})
      else (None, None)
  end.

(** The mandatory headers, or the exception for a missing token. *)
Definition resolveHeaders (m : RESTManager) (request : REST.Request)
  : completion (gmap string string) :=
  let headers : gmap string string :=
    <[ "X-RateLimit-Precision" := "millisecond" ]>
      {[ "User-Agent" :=
           Constants.UserAgent pkg +:+ " " +:+ userAgentAppendix (options m) ]} in
  let authorized :=
    match REST.auth request with
    | None | Some true =>
        if negb (JS.truthy (token m))
        then Throw (PlainError "No bot token has been provided, and is required for the action you are trying to do.")
        else Ok (<[ "Authorization" := "Bot " +:+ default "" (token m) ]> headers)
    | Some false => Ok headers
    end in
  match authorized with
  | Throw e => Throw e
  | Ok headers =>
      Ok (if JS.truthy (REST.reason request)
          then <[ "X-Audit-Log-Reason"
                  := JS.encodeURIComponent (default "" (REST.reason request)) ]> headers
          else headers)
  end.

(** [resolveRequest]; [boundary] is the boundary a new [FormData]
    draws. *)
Definition resolveRequest (m : RESTManager) (boundary : string)
           (request : REST.Request) : completion (string * Fetch.RequestInit) :=
  let querystring :=
    match REST.query request with
    | Some q => "?" +:+ JS.URLSearchParams (List.filter query_filter q)
    | None => ""
    end in
  let url := api (options m) +:+ "/v" +:+ JS.string_of_Z (version (options m))
               +:+ REST.endpoint request +:+ querystring in
  match resolveHeaders m request with
  | Throw e => Throw e
  | Ok headers =>
      let '(body, additionalHeaders) := resolveBody boundary request in
      Ok (url,
          {| Fetch.method := REST.method request;
             Fetch.headers :=
               Fetch.spread [default ∅ (REST.headers request);
                             default ∅ additionalHeaders;
                             headers];
             Fetch.body := body |})
  end.

(** What [queueRequest] hands back: the exception it throws, or the
    promise of the [push] it started, described by the handler the
    request was queued on and the arguments of the call. *)
Record Queued : Type := {
  queued_on : string;
  queued_route : REST.RouteIdentifier;
  queued_url : string;
  queued_options : Fetch.RequestInit
}.

(** [queueRequest]; [tid] names the call of [push] it makes, whose
    first action, [asyncQueue.wait()], runs before [push] first
    suspends. *)
Definition queueRequest (m : RESTManager) (boundary : string) (tid : nat)
           (routeID : REST.RouteIdentifier) (request : REST.Request)
  : RESTManager * completion Queued :=
  let known := hashes m !! (REST.method request +:+ "-" +:+ REST.route routeID) in
  let hash := if JS.truthy known then default "" known
              else "UnknownHash(" +:+ REST.route routeID +:+ ")" in
  let '(m, queue) :=
    match queues m !! (hash +:+ ":" +:+ REST.majorParameter routeID) with
    | Some queue => (m, queue)
    | None => createQueue hash (REST.majorParameter routeID) m
    end in
  match resolveRequest m boundary request with
  | Throw e => (m, Throw e)
  | Ok (url, options) =>
      (set_queues (<[Handler.id queue := Handler.wait tid queue]> (queues m)) m,
       Ok {| queued_on := Handler.id queue; queued_route := routeID;
             queued_url := url; queued_options := options |})
  end.

End Assembly.

End Manager.

(** ** Responses ([node-fetch]) *)

Module Response.

Definition lower_byte (c : ascii) : ascii :=
  if JS.is_upper c then ascii_of_N (N_of_ascii c + 32) else c.

Fixpoint lower (s : string) : string :=
  match s with
  | EmptyString => EmptyString
  | String c rest => String (lower_byte c) (lower rest)
  end.

(** A [Headers] object, keyed by the lower-case field name. *)
Definition Headers : Type := gmap string string.

(** [headers.get(name)]: field names compare without regard to case;
    [None] is the [null] an absent field gives. *)
Definition get (h : Headers) (name : string) : option string := h !! lower name.

(** A received response.  [headers] is optional because the handler
    guards its reading of the headers with [if (res.headers)]; [json]
    and [buffer] are what [res.json()] and [res.buffer()] resolve with. *)
Record Response : Type := {
  status : Z;
  statusText : string;
  headers : option Headers;
  json : JS.json;
  buffer : string
}.

(** [res.ok] *)
Definition ok (res : Response) : bool :=
  ((200 <=? status res) && (status res <? 300))%Z.

(** How a call of [fetch] ends. *)
Inductive FetchOutcome : Type :=
| Responded (res : Response)
| Rejected (name : string).

End Response.

(** ** The handler's methods ([RequestHandler]) *)

Module RequestHandler.

Import Handler Manager.

(** A decoded body. *)
Inductive Decoded : Type :=
| DJson (j : JS.json)
| DBuffer (bytes : string).

(** [s.startsWith(prefix)] *)
Definition startsWith (prefix s : string) : bool := String.prefix prefix s.

(** [parseResponse]: reading [res.headers.get] of a missing [headers]
    throws. *)
Definition parseResponse (res : Response.Response) : completion Decoded :=
  match Response.headers res with
  | None => Throw TypeError
  | Some h =>
      match Response.get h "Content-Type" with
      | Some ct =>
          if startsWith "application/json" ct
          then Ok (DJson (Response.json res))
          else Ok (DBuffer (Response.buffer res))
      | None => Ok (DBuffer (Response.buffer res))
      end
  end.

Fixpoint field_lookup (name : string) (fields : list (string * JS.json)) : JS.value :=
  match fields with
  | [] => None
  | (k, v) :: rest => if String.eqb k name then Some v else field_lookup name rest
  end.

(** [data.message] and [data.code]: a property of a decoded body.  Only
    [null] throws; a body that is not an object has neither property. *)
Definition property (data : Decoded) (name : string) : completion JS.value :=
  match data with
  | DJson JS.JNull => Throw TypeError
  | DJson (JS.JObject fields) => Ok (field_lookup name fields)
  | DJson _ => Ok None
  | DBuffer _ => Ok None
  end.

(** Modelled from the spec: the event names come from
    [../types/InternalREST], which is not among the sources.  An event
    is kept as the data the handler passes to [emit]: the payload of
    [Ratelimited], the text of the hash-update [Debug] message, and the
    two values the 429 [Debug] message quotes. *)
Inductive Event : Type :=
| Ratelimited (timeToReset limit : JS.number) (method hash route majorParameter : string)
| DebugHashUpdate (text : string)
| Debug429 (route : string) (retryAfter : JS.number).

(** Value a call resolves with: a decoded body, or [null]. *)
Inductive Resolved : Type :=
| Body (d : Decoded)
| Null.

(** How one run of the body of [makeRequest] ends: it returns, throws,
    or calls itself again, after [sleep(delay)] when a delay is given. *)
Inductive Next : Type :=
| Return (r : Resolved)
| Raise (e : Error)
| Again (delay : option JS.number) (retries : Z).

Definition set_bucket (limit remaining reset : JS.number) (h : RequestHandler)
  : RequestHandler :=
  {| id := id h; asyncQueue := asyncQueue h; reset := reset;
     remaining := remaining; limit := limit; hash := hash h;
     majorParameter := majorParameter h |}.

(** The state after one run of the body, what it emitted, the timer it
    started for a global limit (promise and delay), and how it ended. *)
Record Pass : Type := {
  handler : RequestHandler;
  manager : RESTManager;
  emitted : list Event;
  timer : option (nat * JS.number);
  next : Next
}.

(** [retryAfter], computed from the headers (lines 130-152). *)
Definition retryAfter_of (m : RESTManager) (res : Response.Response) : JS.number :=
  match Response.headers res with
  | None => JS.of_Z 0
  | Some h =>
      let retry := Response.get h "Retry-After" in
      let cloudflare := negb (JS.truthy (Response.get h "Via")) in
      if JS.truthy retry
      then JS.add (JS.mul (JS.Number (default "" retry))
                          (if cloudflare then JS.of_Z 1000 else JS.of_Z 1))
                  (JS.of_Z (offset (options m)))
      else JS.of_Z 0
  end.

(** The header block of [makeRequest] (lines 133-170): bucket state,
    hash table, global timeout. *)
Definition readHeaders (now : Z) (fresh : nat) (m : RESTManager) (h : RequestHandler)
           (routeID : REST.RouteIdentifier) (options : Fetch.RequestInit)
           (res : Response.Response)
  : RequestHandler * RESTManager * list Event * option (nat * JS.number) :=
  match Response.headers res with
  | None => (h, m, [], None)
  | Some hs =>
      let limit := Response.get hs "X-RateLimit-Limit" in
      let remaining := Response.get hs "X-RateLimit-Remaining" in
      let reset := Response.get hs "X-RateLimit-Reset-After" in
      let hash := Response.get hs "X-RateLimit-Bucket" in
      let h' :=
        set_bucket
          (if JS.truthy limit then JS.Number (default "" limit) else JS.PInf)
          (if JS.truthy remaining then JS.Number (default "" remaining) else JS.of_Z 1)
          (if JS.truthy reset
           then JS.add (JS.add (JS.mul (JS.Number (default "" reset)) (JS.of_Z 1000))
                               (JS.of_Z now))
                       (JS.of_Z (offset (Manager.options m)))
           else JS.of_Z now)
          h in
      let retryAfter := retryAfter_of m res in
      let '(m1, ev) :=
        if JS.truthy hash && negb (String.eqb (default "" hash) (Handler.hash h))
        then (set_hashes (<[ Fetch.method options +:+ "-" +:+ REST.route routeID
                             := default "" hash ]> (hashes m)) m,
              [DebugHashUpdate ("Bucket hash update: " +:+ Handler.hash h +:+ " => "
                                  +:+ default "" hash +:+ " for "
                                  +:+ Fetch.method options +:+ "-" +:+ REST.route routeID)])
        else (m, []) in
      if JS.truthy (Response.get hs "X-RateLimit-Global")
      then (h', set_globalTimeout (Some fresh) m1, ev, Some (fresh, retryAfter))
      else (h', m1, ev, None)
  end.

(** The classification of the response (lines 172-195); [retryAfter]
    is the value the header block computed. *)
Definition classify (m : RESTManager) (routeID : REST.RouteIdentifier) (url : string)
           (options : Fetch.RequestInit) (retries : Z) (retryAfter : JS.number)
           (res : Response.Response)
  : list Event * Next :=
  if Response.ok res then
    ([], match parseResponse res with
         | Ok d => Return (Body d)
         | Throw e => Raise e
         end)
  else if (Response.status res =? 429)%Z then
    ([Debug429 (REST.route routeID) retryAfter], Again (Some retryAfter) retries)
  else if ((500 <=? Response.status res) && (Response.status res <? 600))%Z then
    ([], if negb (retries =? Manager.retries (Manager.options m))%Z
         then Again None (retries + 1)
         else Raise (HTTPError (Response.statusText res) "Response"
                       (Response.status res) (Fetch.method options) url))
  else if ((400 <=? Response.status res) && (Response.status res <? 500))%Z then
    ([], match parseResponse res with
         | Throw e => Raise e
         | Ok data =>
             match property data "message" with
             | Throw e => Raise e
             | Ok message =>
                 match property data "code" with
                 | Throw e => Raise e
                 | Ok code =>
                     Raise (DiscordAPIError message code (Response.status res)
                              (Fetch.method options) url)
                 end
             end
         end)
  else ([], Return Null).

(** One run of the body of [makeRequest], given how the call of [fetch]
    ended.  [now] is the reading of [Date.now()] and [fresh] the
    identity of the promise a global limit would create. *)
Definition makeRequest_body (now : Z) (fresh : nat) (m : RESTManager)
           (h : RequestHandler) (routeID : REST.RouteIdentifier) (url : string)
           (options : Fetch.RequestInit) (retries : Z) (o : Response.FetchOutcome)
  : Pass :=
  match o with
  | Response.Rejected name =>
      {| handler := h; manager := m; emitted := []; timer := None;
         next := if String.eqb name "AbortError"
                    && negb (retries =? Manager.retries (Manager.options m))%Z
                 then Again None (retries + 1)
                 else Raise (FetchRejection name) |}
  | Response.Responded res =>
      let '(h', m', ev, t) := readHeaders now fresh m h routeID options res in
      let '(ev', n) :=
        classify m' routeID url options retries (retryAfter_of m res) res in
      {| handler := h'; manager := m'; emitted := ev ++ ev'; timer := t; next := n |}
  end.

(** A run of [makeRequest] on its own, against a script that gives, for
    each call of [fetch] in turn, the clock reading when the call ends
    and how it ends.  [sends] lists the value of [retries] at each call
    of [fetch]; [result] is [None] while the last call is unanswered. *)
Record Run : Type := {
  sends : list Z;
  final_handler : RequestHandler;
  final_manager : RESTManager;
  events : list Event;
  result : option (completion Resolved)
}.

Fixpoint makeRequest (script : list (Z * Response.FetchOutcome)) (fresh : nat)
         (m : RESTManager) (h : RequestHandler) (routeID : REST.RouteIdentifier)
         (url : string) (options : Fetch.RequestInit) (retries : Z) : Run :=
  match script with
  | [] =>
      {| sends := [retries]; final_handler := h; final_manager := m;
         events := []; result := None |}
  | (now, o) :: rest =>
      let p := makeRequest_body now fresh m h routeID url options retries o in
      match next p with
      | Return r =>
          {| sends := [retries]; final_handler := handler p;
             final_manager := manager p; events := emitted p;
             result := Some (Ok r) |}
      | Raise e =>
          {| sends := [retries]; final_handler := handler p;
             final_manager := manager p; events := emitted p;
             result := Some (Throw e) |}
      | Again _ retries' =>
          let r := makeRequest rest (S fresh) (manager p) (handler p)
                     routeID url options retries' in
          {| sends := retries :: sends r; final_handler := final_handler r;
             final_manager := final_manager r; events := emitted p ++ events r;
             result := result r |}
      end
  end.

End RequestHandler.

(** ** Several calls of [push] under the event loop

    [push] and [makeRequest] suspend at each [await]; between two
    suspensions a call runs without interruption.  A [World] holds the
    manager, the calls of [push] in progress with the point each is
    suspended at, and the timers of the global-limit promises.  A step is
    a caller submitting a request, the event loop resuming one call,
    the outcome of one [fetch] arriving, one timer firing, time passing,
    or the sweeper running.  Any order of steps is allowed in which each
    step is enabled: a call resumes from a sleep only when its time has
    come, from the queue only at its head, from the global timeout only
    when the promise it awaits has resolved.  A timer runs out its delay
    after the clock reading at which it was started. *)

Module Loop.

Import Handler Manager RequestHandler.

(** Where a call of [push] is suspended. *)
Inductive Point : Type :=
| AwaitQueue
    (** line 82, [await this.asyncQueue.wait()] *)
| AwaitGlobal (g : option nat)
    (** line 85, [await this.manager.globalTimeout]: [g] is the value
        the expression had when it was evaluated *)
| LocalSleep (until : Z)
    (** line 98, [await sleep(this.timeToReset)]: the timer runs out at
        [until] *)
| InFlight (retries : Z)
    (** line 121, [await fetch(...)] inside [makeRequest] *)
| Backoff (until : Z) (retries : Z)
    (** line 178, [await sleep(retryAfter)] *)
| Settled (r : completion Resolved)
    (** [push] has returned or thrown, and its [finally] block has run *).

(** A call of [push]: the handler it was made on, its arguments, and
    where it stands. *)
Record Task : Type := {
  on : string;
  routeID : REST.RouteIdentifier;
  url : string;
  options : Fetch.RequestInit;
  at_point : Point
}.

Definition move (pt : Point) (t : Task) : Task :=
  {| on := on t; routeID := routeID t; url := url t; options := options t;
     at_point := pt |}.

Inductive Entry : Type :=
| Emitted (e : Event)
| Issued (tid : nat) (retries : Z) (global : option nat)
    (** call number [tid] calls [fetch]; [global] is the value of
        [manager.globalTimeout] at that moment *).

Record World : Type := {
  clock : Z;
  manager : RESTManager;
  tasks : gmap nat Task;
  timers : gmap nat Z;
  resolved : gset nat;
  fresh : nat;
  log : list Entry
}.

Definition initial (m : RESTManager) : World :=
  {| clock := 0; manager := m; tasks := ∅; timers := ∅; resolved := ∅;
     fresh := 0; log := [] |}.

Inductive Label : Type :=
| Submit (tid : nat) (boundary : string) (route : REST.RouteIdentifier)
         (request : REST.Request)
| Resume (tid : nat) (emitting reading : Z)
    (** the event loop resumes call [tid].  A call that finds its bucket
        limited at line 87 reads the clock twice more before it
        suspends: [emitting] milliseconds later, for the event of line
        90, and, the listeners of the event having run, [reading]
        milliseconds after that, for the sleep of line 98 *)
| Respond (tid : nat) (o : Response.FetchOutcome)
| Fire (p : nat)
| Tick (dt : Z)
| Sweep.

(** A timer that runs out at [until] has run out. *)
Definition due (now : Z) (until : Z) : bool := (until <=? now)%Z.

(** [sleep(delay)] called at [now]: the time its timer runs out. *)
Definition sleep (now : Z) (delay : JS.number) : Z :=
  now + JS.setTimeout_delay delay.

Definition put_task (tid : nat) (t : Task) (entries : list Entry) (w : World) : World :=
  {| clock := clock w; manager := manager w; tasks := <[tid := t]> (tasks w);
     timers := timers w; resolved := resolved w; fresh := fresh w;
     log := log w ++ entries |}.

(** The world when the clock reads [now]. *)
Definition at_clock (now : Z) (w : World) : World :=
  {| clock := now; manager := manager w; tasks := tasks w; timers := timers w;
     resolved := resolved w; fresh := fresh w; log := log w |}.

(** Call number [tid] enters [makeRequest] and calls [fetch]. *)
Definition issue (tid : nat) (retries : Z) (t : Task) (w : World) : World :=
  put_task tid (move (InFlight retries) t)
           [Issued tid retries (globalTimeout (manager w))] w.

Definition awaited_done (w : World) (g : option nat) : bool :=
  match g with
  | None => true
  | Some p => bool_decide (p ∈ resolved w)
  end.

Section Steps.

Variable pkg : Constants.Package.

Definition submit (tid : nat) (boundary : string) (route : REST.RouteIdentifier)
           (request : REST.Request) (w : World) : option World :=
  match tasks w !! tid with
  | Some _ => None
  | None =>
      let '(m, c) := queueRequest pkg (manager w) boundary tid route request in
      Some
        {| clock := clock w; manager := m;
           tasks := match c with
                    | Ok q => <[tid := {| on := queued_on q;
                                          routeID := queued_route q;
                                          url := queued_url q;
                                          options := queued_options q;
                                          at_point := AwaitQueue |}]> (tasks w)
                    | Throw _ => tasks w
                    end;
           timers := timers w; resolved := resolved w; fresh := fresh w;
           log := log w |}
  end.

(** [push] (lines 80-101), from the [await] call [tid] is suspended at to
    its next [await]: the wait for the queue, then the wait for the
    global timeout read at that moment, then, if the bucket is limited,
    the sleep until its reset, then the call of [makeRequest], which
    calls [fetch].  The limited branch reads [Date.now()] three times:
    in [limited] (line 87), in [timeToReset] for the event (line 90)
    and, after the listeners of the event have run, in [timeToReset]
    for the sleep (line 98); the clock has moved on by as much when the
    call suspends.  The same function takes a call out of the sleep of
    the 429 branch, back into [makeRequest]. *)
Definition push (tid : nat) (emitting reading : Z) (w : World) : option World :=
  match tasks w !! tid with
  | None => None
  | Some t =>
      match queues (manager w) !! on t with
      | None => None
      | Some h =>
          match at_point t with
          | AwaitQueue =>
              match asyncQueue h with
              | first :: _ =>
                  if (first =? tid)%nat then
                    let g := globalTimeout (manager w) in
                    Some (put_task tid (move (AwaitGlobal g) t) [] w)
                  else None
              | [] => None
              end
          | AwaitGlobal g =>
              if awaited_done w g then
                if limited (clock w) h then
                  if (0 <=? emitting)%Z && (0 <=? reading)%Z then
                    let at_event := clock w + emitting in
                    let at_sleep := at_event + reading in
                    Some (at_clock at_sleep
                            (put_task tid
                               (move (LocalSleep (sleep at_sleep (timeToReset at_sleep h))) t)
                               [Emitted (Ratelimited (timeToReset at_event h) (limit h)
                                           (Fetch.method (options t)) (hash h)
                                           (REST.route (routeID t))
                                           (Handler.majorParameter h))] w))
                  else None
                else Some (issue tid 0 t w)
              else None
          | LocalSleep until =>
              if due (clock w) until then Some (issue tid 0 t w) else None
          | Backoff until retries =>
              if due (clock w) until then Some (issue tid retries t w) else None
          | InFlight _ => None
          | Settled _ => None
          end
      end
  end.

(** The call of [fetch] made by call [tid] ends with [o]: the body of
    [makeRequest] runs on it; when [makeRequest] returns or throws,
    [push] does, after its [finally] block has released the queue. *)
Definition settle (tid : nat) (o : Response.FetchOutcome) (w : World) : option World :=
  match tasks w !! tid with
  | None => None
  | Some t =>
      match queues (manager w) !! on t, at_point t with
      | Some h, InFlight retries =>
          let p := makeRequest_body (clock w) (fresh w) (manager w) h
                     (routeID t) (url t) (options t) retries o in
          let after (h' : RequestHandler) (pt : Point) (entries : list Entry) : World :=
            {| clock := clock w;
               manager := set_queues (<[on t := h']> (queues (RequestHandler.manager p)))
                            (RequestHandler.manager p);
               tasks := <[tid := move pt t]> (tasks w);
               timers := match timer p with
                         | Some (promise, delay) =>
                             <[promise := sleep (clock w) delay]> (timers w)
                         | None => timers w
                         end;
               resolved := resolved w;
               fresh := S (fresh w);
               log := log w ++ map Emitted (emitted p) ++ entries |} in
          Some
            match next p with
            | Return r => after (shift (handler p)) (Settled (Ok r)) []
            | Raise e => after (shift (handler p)) (Settled (Throw e)) []
            | Again None retries' =>
                after (handler p) (InFlight retries')
                      [Issued tid retries' (globalTimeout (RequestHandler.manager p))]
            | Again (Some delay) retries' =>
                after (handler p)
                      (Backoff (sleep (clock w) delay) retries') []
            end
      | _, _ => None
      end
  end.

(** The timer of promise [p] runs out: the callback clears
    [globalTimeout], whatever it holds, and the promise resolves. *)
Definition fire (p : nat) (w : World) : option World :=
  match timers w !! p with
  | Some until =>
      if due (clock w) until then
        Some {| clock := clock w;
                manager := set_globalTimeout None (manager w);
                tasks := tasks w;
                timers := delete p (timers w);
                resolved := {[p]} ∪ resolved w;
                fresh := fresh w;
                log := log w |}
      else None
  | None => None
  end.

Definition step (l : Label) (w : World) : option World :=
  match l with
  | Submit tid boundary route request => submit tid boundary route request w
  | Resume tid emitting reading => push tid emitting reading w
  | Respond tid o => settle tid o w
  | Fire p => fire p w
  | Tick dt =>
      if (0 <? dt)%Z then
        Some {| clock := clock w + dt; manager := manager w; tasks := tasks w;
                timers := timers w; resolved := resolved w; fresh := fresh w;
                log := log w |}
      else None
  | Sweep =>
      Some {| clock := clock w; manager := sweep (clock w) (manager w);
              tasks := tasks w; timers := timers w; resolved := resolved w;
              fresh := fresh w; log := log w |}
  end.

(** A schedule, run from a world; [None] when a step is not enabled. *)
Fixpoint run (ls : list Label) (w : World) : option World :=
  match ls with
  | [] => Some w
  | l :: rest =>
      match step l w with
      | Some w' => run rest w'
      | None => None
      end
  end.

End Steps.

End Loop.

(** ** Defaults and a running example *)

(** [RestOptionsDefaults] of [util/Constants]; [process_version] is the
    host's [process.version]. *)
Definition RestOptionsDefaults (process_version : string) : Manager.RESTOptions :=
  {| Manager.userAgentAppendix := "Node.js/" +:+ process_version;
     Manager.offset := 100;
     Manager.retries := 1;
     Manager.timeout := 15000;
     Manager.version := 7;
     Manager.api := "https://discord.com/api";
     Manager.cdn := "https://cdn.discordapp.com" |}.

Module Sample.

Definition pkg : Constants.Package :=
  {| Constants.repository_url := "https://github.com/dirigeants/rest";
     Constants.package_version := "0.5.0" |}.

(** A manager built with the defaults, without and with a token. *)
Definition bare : Manager.RESTManager :=
  Manager.new (RestOptionsDefaults "v12.18.0") None.

Definition manager : Manager.RESTManager := Manager.set_token "abc" bare.

Definition get (endpoint : string) : REST.Request :=
  {| REST.method := "GET"; REST.endpoint := endpoint; REST.query := None;
     REST.headers := None; REST.data := None; REST.files := None;
     REST.auth := None; REST.reason := None |}.

Definition with_query (q : list (string * JS.value)) (r : REST.Request) : REST.Request :=
  {| REST.method := REST.method r; REST.endpoint := REST.endpoint r;
     REST.query := Some q; REST.headers := REST.headers r; REST.data := REST.data r;
     REST.files := REST.files r; REST.auth := REST.auth r; REST.reason := REST.reason r |}.

Definition messages : REST.RouteIdentifier :=
  {| REST.route := "/channels/1/messages"; REST.majorParameter := "1" |}.

Definition guild : REST.RouteIdentifier :=
  {| REST.route := "/guilds/2"; REST.majorParameter := "2" |}.

Definition response (status : Z) (headers : list (string * string)) (body : JS.json)
  : Response.Response :=
  {| Response.status := status; Response.statusText := "";
     Response.headers := Some (list_to_map headers);
     Response.json := body; Response.buffer := "" |}.

End Sample.

(** ** The vocabulary of the statements *)

(** The query filter as the specification words it: a pair survives
    when its value is neither [null] nor [undefined]. *)
Definition spec_survives (pair : string * JS.value) : bool :=
  JS.loose_not_null (snd pair).

Definition base_url (o : Manager.RESTOptions) (request : REST.Request) : string :=
  Manager.api o +:+ "/v" +:+ JS.string_of_Z (Manager.version o) +:+ REST.endpoint request.

(** The URL as the specification words it: the query string, with its
    [?], only when a pair survives. *)
Definition spec_url (o : Manager.RESTOptions) (request : REST.Request)
           (q : list (string * JS.value)) : string :=
  base_url o request +:+
    match List.filter spec_survives q with
    | [] => ""
    | survivors => "?" +:+ JS.URLSearchParams survivors
    end.

Definition no_token_error : Error :=
  PlainError "No bot token has been provided, and is required for the action you are trying to do.".

(** No call was added to any queue between [m] and [m']: a handler of
    [m'] is a handler of [m], unchanged, or is new and has an empty
    queue; and every handler of [m] is still there. *)
Definition nothing_queued (m m' : Manager.RESTManager) : Prop :=
  (forall id h, Manager.queues m !! id = Some h -> Manager.queues m' !! id = Some h)
  /\ (forall id h', Manager.queues m' !! id = Some h' ->
        Manager.queues m !! id = Some h'
        \/ (Manager.queues m !! id = None /\ Handler.asyncQueue h' = [])).

(** The multipart field that carries the JSON data. *)
Definition payload_json (d : JS.json) : Fetch.FormPart :=
  {| Fetch.field := "payload_json";
     Fetch.content := REST.Text (JS.JSON_stringify d);
     Fetch.filename := None |}.

(** The two failures that count against the retries: a timed-out
    request, and a 5xx response. *)
Definition server_failure (o : Response.FetchOutcome) : Prop :=
  o = Response.Rejected "AbortError"
  \/ exists res, o = Response.Responded res /\ 500 <= Response.status res < 600.

Definition is_429 (item : Z * Response.FetchOutcome) : Prop :=
  exists res, snd item = Response.Responded res /\ Response.status res = 429.

(** Call [tid] has read [g] in [manager.globalTimeout] at line 85, and
    is held by it: the call is still at line 85, awaiting [g], or it is
    further on and [g] was [null] or is a promise that has resolved. *)
Definition passed_global (w : Loop.World) (tid : nat) (g : option nat) : Prop :=
  exists t, Loop.tasks w !! tid = Some t
            /\ match Loop.at_point t with
               | Loop.AwaitQueue => False
               | Loop.AwaitGlobal g' => g' = g
               | Loop.LocalSleep _ | Loop.InFlight _ | Loop.Backoff _ _
               | Loop.Settled _ => Loop.awaited_done w g = true
               end.

(** The claim of C2 in the specification's words, on the log of a world:
    every call of [fetch] is made while [manager.globalTimeout] is
    [null]. *)
Definition never_under_global (w : Loop.World) : Prop :=
  forall tid retries global,
    In (Loop.Issued tid retries global) (Loop.log w) -> global = None.

(** ** Sample requests, responses and schedules *)

(** The options of a completed assembly, for stating examples. *)
Definition assembled_options (c : completion (string * Fetch.RequestInit))
  : Fetch.RequestInit :=
  match c with
  | Ok (_, opts) => opts
  | Throw _ => {| Fetch.method := ""; Fetch.headers := ∅; Fetch.body := None |}
  end.

Definition chatty : REST.Request :=
  {| REST.method := "POST"; REST.endpoint := "/channels/1/messages";
     REST.query := None;
     REST.headers := Some (<[ "User-Agent" := "curl" ]> {[ "Authorization" := "Bot forged" ]});
     REST.data := Some (JS.JObject [("content", JS.JString "hi")]);
     REST.files := None; REST.auth := None; REST.reason := Some "spring cleaning" |}.

Definition upload (data : JS.value) : REST.Request :=
  {| REST.method := "POST"; REST.endpoint := "/channels/1/messages";
     REST.query := None; REST.headers := None; REST.data := data;
     REST.files := Some [Some {| REST.name := "f"; REST.file := Some (REST.Buffer "bytes") |}];
     REST.auth := None; REST.reason := None |}.

(** A bucket that used its last token, with the reset still ahead. *)
Definition spent : Handler.RequestHandler :=
  RequestHandler.set_bucket (JS.of_Z 5) (JS.of_Z 0) (JS.of_Z 2100)
    (Handler.new "abc" "1").

Definition plain_get : Fetch.RequestInit :=
  {| Fetch.method := "GET"; Fetch.headers := ∅; Fetch.body := None |}.


Definition cloudflare_429 : Response.Response :=
  Sample.response 429 [("retry-after", "1")] JS.JNull.

Definition global_429 : Response.Response :=
  Sample.response 429
    [("retry-after", "2"); ("via", "1.1 proxy"); ("x-ratelimit-global", "true")] JS.JNull.

Definition cold_200 : Response.Response :=
  Sample.response 200
    [("x-ratelimit-limit", "5"); ("x-ratelimit-remaining", "4");
     ("x-ratelimit-reset-after", "2"); ("x-ratelimit-bucket", "abc");
     ("content-type", "application/json")]
    (JS.JObject [("id", JS.JString "1")]).

Definition unavailable : Response.Response := Sample.response 503 [] JS.JNull.

(** Three requests.  The first, on the messages bucket, is answered with
    [remaining = 0] and a reset five seconds away.  The second, on the
    same bucket, passes line 85 while there is no global timeout and
    sleeps until the reset.  The third, on another bucket, is answered
    with a global 429 whose timeout runs for a minute.  When the reset of
    the messages bucket comes, the second request is sent. *)
Definition drained_200 : Response.Response :=
  Sample.response 200 [("x-ratelimit-remaining", "0"); ("x-ratelimit-reset-after", "5")]
    JS.JNull.

Definition minute_429 : Response.Response :=
  Sample.response 429
    [("retry-after", "60000"); ("via", "1.1 google"); ("x-ratelimit-global", "true")]
    JS.JNull.

Definition before_reset : list Loop.Label :=
  [Loop.Submit 1 "" Sample.messages (Sample.get "/channels/1/messages");
   Loop.Resume 1 0 0; Loop.Resume 1 0 0;
   Loop.Tick 50; Loop.Respond 1 (Response.Responded drained_200);
   Loop.Submit 2 "" Sample.messages (Sample.get "/channels/1/messages");
   Loop.Resume 2 0 0; Loop.Resume 2 0 0;
   Loop.Submit 3 "" Sample.guild (Sample.get "/guilds/2");
   Loop.Resume 3 0 0; Loop.Resume 3 0 0;
   Loop.Tick 950; Loop.Respond 3 (Response.Responded minute_429);
   Loop.Tick 4150].

Definition world_before_reset : Loop.World :=
  default (Loop.initial Sample.manager)
          (Loop.run Sample.pkg before_reset (Loop.initial Sample.manager)).

Definition world_after_reset : Loop.World :=
  default (Loop.initial Sample.manager)
          (Loop.step Sample.pkg (Loop.Resume 2 0 0) world_before_reset).

(** A global 429 on the guild bucket, then a request on the messages
    bucket, submitted while the global timeout is pending. *)
Definition global_pending : list Loop.Label :=
  [Loop.Submit 1 "" Sample.guild (Sample.get "/guilds/2");
   Loop.Resume 1 0 0; Loop.Resume 1 0 0;
   Loop.Tick 20; Loop.Respond 1 (Response.Responded global_429);
   Loop.Submit 2 "" Sample.messages (Sample.get "/channels/1/messages")].

(** The second request reads the global timeout at line 85. *)
Definition during_global : list Loop.Label :=
  global_pending ++ [Loop.Resume 2 0 0].

Definition world_global_pending : Loop.World :=
  default (Loop.initial Sample.manager)
          (Loop.run Sample.pkg global_pending (Loop.initial Sample.manager)).

Definition world_at_global : Loop.World :=
  default world_global_pending
          (Loop.step Sample.pkg (Loop.Resume 2 0 0) world_global_pending).

(** The timer of the global timeout has run out. *)
Definition global_over : list Loop.Label := [Loop.Tick 102; Loop.Fire 0].

Definition world_global_over : Loop.World :=
  default world_at_global (Loop.run Sample.pkg global_over world_at_global).

Definition world_after_global : Loop.World :=
  default world_global_over
          (Loop.step Sample.pkg (Loop.Resume 2 0 0) world_global_over).

(** ** The queue discipline of the handlers *)

Definition is_settled (pt : Loop.Point) : bool :=
  match pt with
  | Loop.Settled _ => true
  | _ => false
  end.

Definition is_waiting (pt : Loop.Point) : bool :=
  match pt with
  | Loop.AwaitQueue => true
  | _ => false
  end.

(** A call holds its handler's queue from the moment [asyncQueue.wait()]
    lets it through until its [finally] block has run. *)
Definition holds_queue (pt : Loop.Point) : bool :=
  negb (is_waiting pt) && negb (is_settled pt).

(** A handler of the table: it is stored under its own [id], and its
    queue lists, each once, calls in progress that were made on it. *)
Definition queue_ok (w : Loop.World) (k : string) (h : Handler.RequestHandler) : Prop :=
  Handler.id h = k
  /\ NoDup (Handler.asyncQueue h)
  /\ forall tid, tid ∈ Handler.asyncQueue h ->
       exists t, Loop.tasks w !! tid = Some t
                 /\ Loop.on t = k
                 /\ is_settled (Loop.at_point t) = false.

(** A call in progress: its handler is in the table and lists it, at the
    head when the call has been let through. *)
Definition call_ok (w : Loop.World) (tid : nat) (t : Loop.Task) : Prop :=
  is_settled (Loop.at_point t) = false ->
  exists h, Manager.queues (Loop.manager w) !! Loop.on t = Some h
            /\ tid ∈ Handler.asyncQueue h
            /\ (is_waiting (Loop.at_point t) = false ->
                head (Handler.asyncQueue h) = Some tid).

Definition queues_ok (w : Loop.World) : Prop :=
  (forall k h, Manager.queues (Loop.manager w) !! k = Some h -> queue_ok w k h)
  /\ (forall tid t, Loop.tasks w !! tid = Some t -> call_ok w tid t).

(** A manager no request has been queued on yet: every handler sits
    under its own [id] with an empty queue. *)
Definition idle (m : Manager.RESTManager) : Prop :=
  forall k h, Manager.queues m !! k = Some h ->
              Handler.id h = k /\ Handler.asyncQueue h = [].

(** The bucket hash [queueRequest] uses for a request: the learned hash
    of the method and route, or the placeholder. *)
Definition bucket_hash (m : Manager.RESTManager) (method : string)
           (routeID : REST.RouteIdentifier) : string :=
  match Manager.hashes m !! (method +:+ "-" +:+ REST.route routeID) with
  | Some (String c s) => String c s
  | _ => "UnknownHash(" +:+ REST.route routeID +:+ ")"
  end.

(** The key of the table [queueRequest] queues a request under. *)
Definition bucket_key (m : Manager.RESTManager) (method : string)
           (routeID : REST.RouteIdentifier) : string :=
  bucket_hash m method routeID +:+ ":" +:+ REST.majorParameter routeID.

(** The queue of the handler stored under [k], empty when there is none. *)
Definition queue_at (m : Manager.RESTManager) (k : string) : list nat :=
  match Manager.queues m !! k with
  | Some h => Handler.asyncQueue h
  | None => []
  end.

(** Two calls on the messages bucket; the first has been let through
    and has called [fetch], the second waits behind it. *)
Definition two_on_messages : list Loop.Label :=
  [Loop.Submit 1 "" Sample.messages (Sample.get "/channels/1/messages");
   Loop.Submit 2 "" Sample.messages (Sample.get "/channels/1/messages");
   Loop.Resume 1 0 0; Loop.Resume 1 0 0].

Definition world_two_on_messages : Loop.World :=
  default (Loop.initial Sample.manager)
          (Loop.run Sample.pkg two_on_messages (Loop.initial Sample.manager)).

Definition messages_key : string := "UnknownHash(/channels/1/messages):1".

Definition messages_handler : Handler.RequestHandler :=
  default (Handler.new "UnknownHash(/channels/1/messages)" "1")
          (Manager.queues (Loop.manager world_two_on_messages) !! messages_key).

Definition world_first_settled : Loop.World :=
  default world_two_on_messages
          (Loop.step Sample.pkg (Loop.Respond 1 (Response.Responded cold_200))
                     world_two_on_messages).

(** ** Buckets and retries *)

(** The key of the table of learned hashes for a method and a route. *)
Definition route_key (method : string) (routeID : REST.RouteIdentifier) : string :=
  method +:+ "-" +:+ REST.route routeID.

(** A response with status 429. *)
Definition is_429b (item : Z * Response.FetchOutcome) : bool :=
  match snd item with
  | Response.Responded res => (Response.status res =? 429)%Z
  | Response.Rejected _ => false
  end.

Definition count_429 (script : list (Z * Response.FetchOutcome)) : nat :=
  length (List.filter is_429b script).

(** The counters [from], [from + 1], ..., [n] of them. *)
Definition counters (from : Z) (n : nat) : list Z :=
  List.map (fun i => from + Z.of_nat i) (seq 0 n).

(** A response that names the bucket of the route. *)
Definition hashed_200 : Response.Response :=
  Sample.response 200 [("x-ratelimit-bucket", "abcd1234")] JS.JNull.

Definition fresh_messages_handler : Handler.RequestHandler :=
  Handler.new "UnknownHash(/channels/1/messages)" "1".

(** A 429, then a success; and a 5xx followed by a time-out. *)
Definition limited_then_served : list (Z * Response.FetchOutcome) :=
  [(10, Response.Responded minute_429); (20, Response.Responded cold_200)].

Definition failing_twice : list (Z * Response.FetchOutcome) :=
  [(10, Response.Responded unavailable); (20, Response.Rejected "AbortError")].

(** ** Buckets without a reset, and requests that are refused *)

(** A response that reports an empty bucket but no reset. *)
Definition spent_no_reset : Response.Response :=
  Sample.response 200 [("x-ratelimit-remaining", "0")] JS.JNull.

(** The manager after a request was refused for want of a token. *)
Definition after_refusal : Manager.RESTManager :=
  fst (Manager.queueRequest Sample.pkg Sample.bare "" 1 Sample.messages
         (Sample.get "/channels/1/messages")).

(** ** The encoders, read back *)

Fixpoint string_forallb (p : ascii -> bool) (s : string) : bool :=
  match s with
  | EmptyString => true
  | String c rest => p c && string_forallb p rest
  end.

(** The bytes [encodeURIComponent] can produce: those it keeps, and
    [%]; the hexadecimal digits are among the first. *)
Definition uri_safe (c : ascii) : bool :=
  JS.is_alnum c || JS.is_one_of "-_.!~*'()%" c.

(** The bytes the form serializer can produce. *)
Definition form_safe (c : ascii) : bool :=
  JS.is_alnum c || JS.is_one_of "*-._+%" c.

(** The value of a hexadecimal digit, upper case. *)
Definition hex_value (c : ascii) : N :=
  if JS.is_digit c then N_of_ascii c - 48 else N_of_ascii c - 55.

(** Percent-decoding, the inverse the proofs read the encoders back
    with: [%XY] is one byte; with [plus] set, [+] is a space. *)
Fixpoint percent_decode (plus : bool) (s : string) : string :=
  match s with
  | EmptyString => EmptyString
  | String c rest =>
      if Ascii.eqb c "%" then
        match rest with
        | String a (String b rest') =>
            String (ascii_of_N (16 * hex_value a + hex_value b))
                   (percent_decode plus rest')
        | _ => String c (percent_decode plus rest)
        end
      else if plus && Ascii.eqb c "+" then String " " (percent_decode plus rest)
      else String c (percent_decode plus rest)
  end.

(** The bytes of a query string: those of the form serializer and the
    two separators. *)
Definition query_safe (c : ascii) : bool :=
  form_safe c || JS.is_one_of "=&" c.

(** A text cut at its first [=]. *)
Fixpoint split_eq (s : string) : string * string :=
  match s with
  | EmptyString => (EmptyString, EmptyString)
  | String c rest =>
      if Ascii.eqb c "=" then (EmptyString, rest)
      else (String c (fst (split_eq rest)), snd (split_eq rest))
  end.

(** A text cut at every [&]: the first segment and the others. *)
Fixpoint split_amp (s : string) : string * list string :=
  match s with
  | EmptyString => (EmptyString, [])
  | String c rest =>
      if Ascii.eqb c "&" then (EmptyString, fst (split_amp rest) :: snd (split_amp rest))
      else (String c (fst (split_amp rest)), snd (split_amp rest))
  end.

Definition parse_pair (segment : string) : string * string :=
  (percent_decode true (fst (split_eq segment)),
   percent_decode true (snd (split_eq segment))).

(** The reading of a query string by a form-urlencoded parser: the
    segments between [&], each cut at its first [=] and decoded. *)
Definition parse_query (s : string) : list (string * string) :=
  match s with
  | EmptyString => []
  | _ => List.map parse_pair (fst (split_amp s) :: snd (split_amp s))
  end.

(** A pair of a query as the serializer sees it: the name and the text
    of the value. *)
Definition query_text (p : string * JS.value) : string * string :=
  (fst p, JS.to_string (snd p)).

(** ** Uploads *)

(** The part one entry of [request.files] contributes to the form: one
    part named after the file, or none when the entry or its content is
    missing or empty. *)
Definition file_parts (entry : option REST.File) : list Fetch.FormPart :=
  match entry with
  | Some f =>
      match REST.file f with
      | Some c =>
          if REST.file_truthy (Some c)
          then [{| Fetch.field := REST.name f; Fetch.content := c;
                   Fetch.filename := Some (REST.name f) |}]
          else []
      | None => []
      end
  | None => []
  end.

Definition two_files : list (option REST.File) :=
  [Some {| REST.name := "a.png"; REST.file := Some (REST.Buffer "PNG") |};
   None;
   Some {| REST.name := "empty.txt"; REST.file := Some (REST.Text "") |};
   Some {| REST.name := "b.txt"; REST.file := Some (REST.Text "hello") |}].

Definition upload_two : REST.Request :=
  {| REST.method := "POST"; REST.endpoint := "/channels/1/messages";
     REST.query := None; REST.headers := None;
     REST.data := Some (JS.JObject [("content", JS.JString "hi")]);
     REST.files := Some two_files; REST.auth := None; REST.reason := None |}.

(** The URL of a completed assembly, for stating examples. *)
Definition assembled_url (c : completion (string * Fetch.RequestInit)) : string :=
  match c with
  | Ok (url, _) => url
  | Throw _ => ""
  end.

Definition searching : REST.Request :=
  Sample.with_query [("q", Some (JS.JString "a&b=c d")); ("before", Some JS.JNull);
                     ("limit", Some (JS.JNumber 10))]
                    (Sample.get "/channels/1/messages").

(** ** The CDN link builder ([src/lib/CDN.ts]) *)

Module CDN.

Definition ALLOWED_EXTENSIONS : list string := ["webp"; "png"; "jpg"; "jpeg"; "gif"].

Definition ALLOWED_SIZES : list Z := [16; 32; 64; 128; 256; 512; 1024; 2048; 4096].

(** [ImageURLOptions]; a size is kept at its integer values. *)
Record ImageURLOptions : Type := {
  extension : option string;
  size : option Z;
  dynamic : option bool
}.

(** What a builder throws: the [RangeError] of the validation, or the
    [TypeError] of [new URL] on a text that is no URL. *)
Inductive Failure : Type :=
| RangeError (message : string)
| InvalidURL (input : string).

Inductive Link : Type :=
| Returns (url : string)
| Throws (e : Failure).

(** [s.toLowerCase()], on the bytes of the text: the letters [A]-[Z]
    change.  A text with a letter outside ASCII is in no case one of the
    allowed extensions, before or after. *)
Definition toLowerCase (s : string) : string := Response.lower s.

(** [list.includes(x)] *)
Definition includes (list : list string) (x : string) : bool :=
  existsb (String.eqb x) list.

Definition includes_size (list : list Z) (x : Z) : bool :=
  existsb (Z.eqb x) list.

(** Truthiness of an optional number. *)
Definition size_truthy (size : option Z) : bool :=
  match size with
  | Some z => negb (z =? 0)%Z
  | None => false
  end.

Definition newline : string := String (ascii_of_N 10) EmptyString.

Definition extension_message (extension : string) : string :=
  "Invalid extension provided: " +:+ extension +:+ newline
    +:+ "Must be one of: " +:+ JS.join ", " ALLOWED_EXTENSIONS.

Definition size_message (size : Z) : string :=
  "Invalid size provided: " +:+ JS.string_of_Z size +:+ newline
    +:+ "Must be one of: " +:+ JS.join ", " (List.map JS.string_of_Z ALLOWED_SIZES).

Section Builder.

(** The platform's [URL]: [new URL(text)], which throws on a text that
    is no URL, [url.searchParams.set(name, value)] and [url.toString()]. *)
Variable URL : Type.
Variable URL_new : string -> option URL.
Variable searchParams_set : URL -> string -> string -> URL.
Variable URL_toString : URL -> string.

(** [this.base] *)
Variable base : string.

(** [makeURL]; [options] is [None] when the argument is left out. *)
Definition makeURL (route : string) (options : option ImageURLOptions) : Link :=
  let given := match options with Some o => extension o | None => None end in
  let size := match options with Some o => size o | None => None end in
  let extension := toLowerCase (default "png" given) in
  if JS.truthy (Some extension) && negb (includes ALLOWED_EXTENSIONS extension)
  then Throws (RangeError (extension_message extension))
  else if size_truthy size && negb (includes_size ALLOWED_SIZES (default 0 size))
  then Throws (RangeError (size_message (default 0 size)))
  else
    match URL_new (base +:+ route +:+ "." +:+ extension) with
    | None => Throws (InvalidURL (base +:+ route +:+ "." +:+ extension))
    | Some url =>
        Returns (URL_toString
                   (if size_truthy size
                    then searchParams_set url "size" (JS.string_of_Z (default 0 size))
                    else url))
    end.

Definition appAsset (clientID assetHash : string) (options : option ImageURLOptions) : Link :=
  makeURL ("/app-assets/" +:+ clientID +:+ "/" +:+ assetHash) options.

Definition appIcon (clientID iconHash : string) (options : option ImageURLOptions) : Link :=
  makeURL ("/app-icons/" +:+ clientID +:+ "/" +:+ iconHash) options.

Definition defaultAvatar (discriminator : Z) : Link :=
  makeURL ("/embed/avatars/" +:+ JS.string_of_Z discriminator) None.

Definition discoverySplash (guildID splashHash : string) (options : option ImageURLOptions)
  : Link :=
  makeURL ("/discovery-splashes/" +:+ guildID +:+ "/" +:+ splashHash) options.

Definition emoji (emojiID : string) (extension : option string) : Link :=
  makeURL ("/emojis/" +:+ emojiID)
          (Some {| extension := extension; size := None; dynamic := None |}).

Definition groupDMIcon (channelID iconHash : string) (options : option ImageURLOptions)
  : Link :=
  makeURL ("/channel-icons/" +:+ channelID +:+ "/" +:+ iconHash) options.

Definition guildBanner (guildID bannerHash : string) (options : option ImageURLOptions)
  : Link :=
  makeURL ("/banners/" +:+ guildID +:+ "/" +:+ bannerHash) options.

Definition guildIcon (guildID iconHash : string) (options : option ImageURLOptions) : Link :=
  makeURL ("/icons/" +:+ guildID +:+ "/" +:+ iconHash) options.

Definition splash (guildID splashHash : string) (options : option ImageURLOptions) : Link :=
  makeURL ("/splashes/" +:+ guildID +:+ "/" +:+ splashHash) options.

Definition teamIcon (teamID iconHash : string) (options : option ImageURLOptions) : Link :=
  makeURL ("/team-icons/" +:+ teamID +:+ "/" +:+ iconHash) options.

(** [userAvatar]: [dynamic] is taken out of the options, with [false]
    for a default, and the rest is handed on. *)
Definition userAvatar (userID avatarHash : string) (options : option ImageURLOptions)
  : Link :=
  let dynamic := match options with Some o => default false (dynamic o) | None => false end in
  let given := match options with Some o => extension o | None => None end in
  let size := match options with Some o => size o | None => None end in
  let extension :=
    if dynamic
    then if RequestHandler.startsWith "a_" avatarHash then Some "gif" else given
    else given in
  makeURL ("/avatars/" +:+ userID +:+ "/" +:+ avatarHash)
          (Some {| extension := extension; size := size; dynamic := None |}).

End Builder.

End CDN.

(** A stand-in for the platform's [URL] on links that need no
    normalisation: the text as given, and the query added to it. *)
Definition plain_URL : Type := string * option string.

Definition plain_URL_new (text : string) : option plain_URL := Some (text, None).

Definition plain_URL_set (url : plain_URL) (name value : string) : plain_URL :=
  (fst url, Some (name +:+ "=" +:+ value)).

Definition plain_URL_toString (url : plain_URL) : string :=
  match snd url with
  | Some query => fst url +:+ "?" +:+ query
  | None => fst url
  end.

Definition plain_userAvatar :=
  CDN.userAvatar plain_URL plain_URL_new plain_URL_set plain_URL_toString
                 "https://cdn.discordapp.com".

Definition plain_makeURL :=
  CDN.makeURL plain_URL plain_URL_new plain_URL_set plain_URL_toString
              "https://cdn.discordapp.com".

(** ** Waiting for the global timeout *)

(** The promise [p] of a global timeout has resolved, or its timer is
    still running. *)
Definition promise_live (w : Loop.World) (p : nat) : Prop :=
  p ∈ Loop.resolved w \/ is_Some (Loop.timers w !! p).

(** The promise in [manager.globalTimeout], and every promise a call
    awaits at line 85, is one that has resolved or will. *)
Definition globals_ok (w : Loop.World) : Prop :=
  (forall p, Manager.globalTimeout (Loop.manager w) = Some p -> promise_live w p)
  /\ (forall tid t p,
        Loop.tasks w !! tid = Some t ->
        Loop.at_point t = Loop.AwaitGlobal (Some p) ->
        promise_live w p).

(** A global 429 answered to the first call; the second call reads the
    global timeout at line 85. *)
Definition waiting_on_global : Loop.World :=
  default (Loop.initial Sample.manager)
          (Loop.run Sample.pkg during_global (Loop.initial Sample.manager)).

(** The first call on the messages bucket, answered. *)
Definition one_served : list Loop.Label :=
  [Loop.Submit 1 "" Sample.messages (Sample.get "/channels/1/messages");
   Loop.Resume 1 0 0; Loop.Resume 1 0 0;
   Loop.Tick 50; Loop.Respond 1 (Response.Responded drained_200)].

Definition world_one_served : Loop.World :=
  default (Loop.initial Sample.manager)
          (Loop.run Sample.pkg one_served (Loop.initial Sample.manager)).

(** ** The rounding of integers *)

(** The location a right shift by [n] leaves behind, from an exact
    start: the quotient, and the place of the remainder below, at or
    above the half. *)
Definition location_of (n : Z) (rem : Z) : location :=
  if (rem =? 0)%Z then loc_Exact else loc_Inexact (Z.compare (2 * rem) (2 ^ n)).

(** The rounding of a positive integer to 53 digits: mantissa and
    exponent, before the test for overflow. *)
Definition rounded (p : positive) : Z * Z :=
  let d := Zpos (digits2_pos p) in
  if (d <=? 53)%Z then (Zpos p * 2 ^ (53 - d), d - 53)
  else
    let k := d - 53 in
    let v := round_nearest_even (Zpos p / 2 ^ k) (location_of k (Zpos p mod 2 ^ k)) in
    if (v =? 2 ^ 53)%Z then (2 ^ 52, k + 1) else (v, k).


(** * Properties *)

(** ** The JavaScript fragment *)

Example form_encode_ex : JS.URLSearchParams [("a b", Some (JS.JString "x&y")); ("n", Some (JS.JNumber 10))]
                         = "a+b=x%26y&n=10".
Proof. reflexivity. Qed.

Example stringify_ex :
  JS.JSON_stringify (JS.JObject [("content", JS.JString "hi")])
  = "{" +:+ JS.json_quote "content" +:+ ":" +:+ JS.json_quote "hi" +:+ "}".
Proof. reflexivity. Qed.

Example number_ex :
  JS.Number "2" = JS.of_Z 2 /\ JS.Number "1e3" = JS.of_Z 1000
  /\ JS.Number " 0x10 " = JS.of_Z 16 /\ JS.Number "" = JS.of_Z 0
  /\ JS.Number "soon" = JS.NaN
  /\ JS.mul (JS.Number "1.5") (JS.of_Z 2) = JS.of_Z 3
  /\ JS.mul (JS.Number "1.001") (JS.of_Z 1000) = JS.Number "1000.9999999999999".
Proof. repeat split; vm_compute; reflexivity. Qed.

(** ** Request assembly *)

Section AssemblyProperties.

Import Manager.

Variable pkg : Constants.Package.

Lemma query_filter_defined (q : list (string * JS.value)) :
  List.Forall (fun pair => snd pair <> JS.undefined) q ->
  List.filter query_filter q = List.filter spec_survives q.
Proof.
  induction 1 as [| [k v] q Hv _ IH]; [reflexivity |].
  cbn [List.filter]. rewrite IH.
  replace (query_filter (k, v)) with (spec_survives (k, v)); [reflexivity |].
  unfold query_filter, spec_survives, JS.string_strict_neq_undefined. cbn in *.
  destruct v as [[]|]; try reflexivity. now contradiction Hv.
Qed.

Lemma append_assoc (a b c : string) : (a +:+ b) +:+ c = a +:+ (b +:+ c).
Proof.
  induction a as [| x a IH]; [reflexivity |].
  change (String x ((a +:+ b) +:+ c) = String x (a +:+ (b +:+ c))).
  now rewrite IH.
Qed.

Lemma resolveRequest_Ok_url m boundary request url opts :
  resolveRequest pkg m boundary request = Ok (url, opts) ->
  url = base_url (options m) request +:+
          match REST.query request with
          | Some q => "?" +:+ JS.URLSearchParams (List.filter query_filter q)
          | None => ""
          end.
Proof.
  unfold resolveRequest, base_url.
  destruct (resolveHeaders pkg m request); [| discriminate].
  destruct (resolveBody boundary request). intros [= <- _].
  now rewrite !append_assoc.
Qed.

(** C1, as amended.  For a request with a query sequence none of whose
    values is [undefined], the assembled URL is [{api}/v{version}{endpoint}],
    then [?], then the form-urlencoding of exactly the pairs whose value
    is not [null]; the [?] is there whenever a query sequence is given,
    also when no pair survives. *)
Theorem resolveRequest_url m boundary request q url opts :
  REST.query request = Some q ->
  List.Forall (fun pair => snd pair <> JS.undefined) q ->
  resolveRequest pkg m boundary request = Ok (url, opts) ->
  url = base_url (options m) request +:+ "?"
          +:+ JS.URLSearchParams (List.filter spec_survives q).
Proof.
  intros Hq Hdef Hok. apply resolveRequest_Ok_url in Hok.
  rewrite Hq in Hok. rewrite Hok. now rewrite (query_filter_defined q Hdef).
Qed.

End AssemblyProperties.

Lemma resolveRequest_url_witness :
  "https://discord.com/api/v7/channels/1/messages?limit=5"
  = base_url (Manager.options Sample.manager) (Sample.get "/channels/1/messages")
      +:+ "?" +:+ JS.URLSearchParams
                    (List.filter spec_survives
                       [("limit", Some (JS.JNumber 5)); ("before", JS.null)]).
Proof.
  apply (resolveRequest_url Sample.pkg Sample.manager ""
           (Sample.with_query [("limit", Some (JS.JNumber 5)); ("before", JS.null)]
                              (Sample.get "/channels/1/messages"))
           [("limit", Some (JS.JNumber 5)); ("before", JS.null)]
           "https://discord.com/api/v7/channels/1/messages?limit=5"
           (assembled_options
              (Manager.resolveRequest Sample.pkg Sample.manager ""
                 (Sample.with_query [("limit", Some (JS.JNumber 5)); ("before", JS.null)]
                                    (Sample.get "/channels/1/messages"))))).
  - reflexivity.
  - repeat constructor; discriminate.
  - vm_compute. reflexivity.
Defined.

(** C1, as the specification states it, fails: with a query whose only
    pair holds [null], the assembled URL ends in a bare [?]. *)
Lemma resolveRequest_url_counterexample :
  ~ (forall pkg m boundary request q url opts,
       REST.query request = Some q ->
       Manager.resolveRequest pkg m boundary request = Ok (url, opts) ->
       url = spec_url (Manager.options m) request q).
Proof.
  intros H.
  specialize (H Sample.pkg Sample.manager ""
                (Sample.with_query [("before", JS.null)] (Sample.get "/channels/1/messages"))
                [("before", JS.null)]).
  cbn in H. specialize (H _ _ eq_refl eq_refl).
  vm_compute in H. discriminate H.
Qed.

(** The second departure: a pair whose value is [undefined] is kept, and
    printed as the text [undefined]. *)
Example resolveRequest_keeps_undefined :
  exists opts,
    Manager.resolveRequest Sample.pkg Sample.manager ""
      (Sample.with_query [("before", JS.undefined)] (Sample.get "/channels/1/messages"))
    = Ok ("https://discord.com/api/v7/channels/1/messages?before=undefined", opts).
Proof. eexists. reflexivity. Qed.

Section HeaderProperties.

Import Manager.

Variable pkg : Constants.Package.

Lemma spread_lookup (a b c : gmap string string) (k : string) :
  Fetch.spread [a; b; c] !! k
  = match c !! k with
    | Some v => Some v
    | None => match b !! k with
              | Some v => Some v
              | None => a !! k
              end
    end.
Proof.
  unfold Fetch.spread. cbn [foldl]. rewrite !lookup_union, lookup_empty.
  destruct (c !! k), (b !! k), (a !! k); reflexivity.
Qed.

(** A successful assembly, taken apart. *)
Lemma resolveRequest_Ok_inv m boundary request url opts :
  resolveRequest pkg m boundary request = Ok (url, opts) ->
  exists mandatory,
    resolveHeaders pkg m request = Ok mandatory
    /\ Fetch.method opts = REST.method request
    /\ Fetch.body opts = fst (resolveBody boundary request)
    /\ Fetch.headers opts
       = Fetch.spread [default ∅ (REST.headers request);
                       default ∅ (snd (resolveBody boundary request));
                       mandatory].
Proof.
  unfold resolveRequest.
  destruct (resolveHeaders pkg m request) as [mandatory |]; [| discriminate].
  destruct (resolveBody boundary request) as [body additional].
  intros [= _ <-]. exists mandatory. repeat split.
Qed.

Lemma resolveRequest_Ok_intro m boundary request mandatory :
  resolveHeaders pkg m request = Ok mandatory ->
  exists url opts, resolveRequest pkg m boundary request = Ok (url, opts).
Proof.
  intros H. unfold resolveRequest. rewrite H.
  destruct (resolveBody boundary request). eauto.
Qed.

(** What [resolveHeaders] puts under each of the four names it sets. *)
Lemma resolveHeaders_Ok m request mandatory :
  resolveHeaders pkg m request = Ok mandatory ->
  mandatory !! "User-Agent"
  = Some (Constants.UserAgent pkg +:+ " " +:+ userAgentAppendix (options m))
  /\ mandatory !! "X-RateLimit-Precision" = Some "millisecond"
  /\ (REST.auth request <> Some false ->
      exists t, token m = Some t /\ t <> ""
                /\ mandatory !! "Authorization" = Some ("Bot " +:+ t))
  /\ (REST.auth request = Some false -> mandatory !! "Authorization" = None)
  /\ (forall r, REST.reason request = Some r -> r <> "" ->
                mandatory !! "X-Audit-Log-Reason" = Some (JS.encodeURIComponent r)).
Proof.
  unfold resolveHeaders. intros H.
  destruct (REST.auth request) as [[|]|] eqn:Hauth;
    destruct (token m) as [[|c t]|] eqn:Htok; cbn in H; try discriminate;
    destruct (REST.reason request) as [[|c' r]|] eqn:Hreason; cbn in H;
    injection H as <-.
  all: repeat split.
  all: try (intros Hx; first [ discriminate Hx | congruence | reflexivity ]).
  all: try (intros _; eexists; split; [reflexivity | split; [discriminate | reflexivity]]).
  all: intros r0 Hr0 Hne; injection Hr0 as <-; first [congruence | reflexivity].
Qed.

(** C8.  The headers of an assembled request are the caller's headers,
    overlaid by the body-type headers, overlaid by the mandatory ones:
    under every name the mandatory header wins, then the body-type
    header, then the caller's.  So each mandatory header ([User-Agent],
    [X-RateLimit-Precision], and [Authorization] and
    [X-Audit-Log-Reason] when they are set) reaches the result with the
    value the assembler gave it, whatever the caller or the body
    supplied under that name. *)
Theorem resolveRequest_headers_merge m boundary request url opts :
  resolveRequest pkg m boundary request = Ok (url, opts) ->
  exists mandatory,
    resolveHeaders pkg m request = Ok mandatory
    /\ (forall k,
          Fetch.headers opts !! k
          = match mandatory !! k with
            | Some v => Some v
            | None =>
                match default ∅ (snd (resolveBody boundary request)) !! k with
                | Some v => Some v
                | None => default ∅ (REST.headers request) !! k
                end
            end)
    /\ (forall k v, mandatory !! k = Some v -> Fetch.headers opts !! k = Some v)
    /\ Fetch.headers opts !! "User-Agent"
       = Some (Constants.UserAgent pkg +:+ " " +:+ userAgentAppendix (options m))
    /\ Fetch.headers opts !! "X-RateLimit-Precision" = Some "millisecond"
    /\ (REST.auth request <> Some false ->
        exists t, token m = Some t
                  /\ Fetch.headers opts !! "Authorization" = Some ("Bot " +:+ t))
    /\ (forall r, REST.reason request = Some r -> r <> "" ->
                  Fetch.headers opts !! "X-Audit-Log-Reason"
                  = Some (JS.encodeURIComponent r)).
Proof.
  intros Hok.
  destruct (resolveRequest_Ok_inv _ _ _ _ _ Hok) as (mandatory & Hm & _ & _ & Hh).
  destruct (resolveHeaders_Ok _ _ _ Hm) as (Hua & Hprec & Hauth & _ & Hreason).
  assert (Hwin : forall k v, mandatory !! k = Some v -> Fetch.headers opts !! k = Some v).
  { intros k v Hk. rewrite Hh, spread_lookup, Hk. reflexivity. }
  exists mandatory. repeat split; auto.
  - intros k. rewrite Hh. apply spread_lookup.
  - intros Hne. destruct (Hauth Hne) as (t & Ht & _ & Ha). eauto.
Qed.

End HeaderProperties.

Lemma resolveRequest_headers_merge_witness :
  exists mandatory,
    Manager.resolveHeaders Sample.pkg Sample.manager chatty = Ok mandatory
    /\ (forall k v, mandatory !! k = Some v ->
          Fetch.headers (assembled_options
                           (Manager.resolveRequest Sample.pkg Sample.manager "" chatty)) !! k
          = Some v).
Proof.
  destruct (resolveRequest_headers_merge Sample.pkg Sample.manager "" chatty
              "https://discord.com/api/v7/channels/1/messages"
              (assembled_options (Manager.resolveRequest Sample.pkg Sample.manager "" chatty)))
    as (mandatory & Hm & _ & Hwin & _).
  - vm_compute. reflexivity.
  - exists mandatory. split; assumption.
Defined.

Example resolveRequest_headers_merge_example :
  let headers := Fetch.headers (assembled_options
                   (Manager.resolveRequest Sample.pkg Sample.manager "" chatty)) in
  headers !! "Authorization" = Some "Bot abc"
  /\ headers !! "User-Agent"
     = Some "DiscordBot (https://github.com/dirigeants/rest, 0.5.0) Node.js/v12.18.0"
  /\ headers !! "Content-Type" = Some "application/json"
  /\ headers !! "X-Audit-Log-Reason" = Some "spring%20cleaning".
Proof. repeat split; vm_compute; reflexivity. Qed.

Section AuthorizationProperties.

Import Manager.

Variable pkg : Constants.Package.

Lemma resolveHeaders_no_token m request :
  REST.auth request <> Some false ->
  JS.truthy (token m) = false ->
  resolveHeaders pkg m request = Throw no_token_error.
Proof.
  intros Hauth Htok. unfold resolveHeaders.
  destruct (REST.auth request) as [[|]|]; try congruence;
    destruct (token m) as [[|c t]|]; try discriminate; reflexivity.
Qed.

Lemma resolveHeaders_token m request t :
  token m = Some t -> t <> "" ->
  exists mandatory, resolveHeaders pkg m request = Ok mandatory.
Proof.
  intros Htok Ht. unfold resolveHeaders. rewrite Htok.
  destruct t as [| c t]; [congruence |].
  destruct (REST.auth request) as [[|]|]; cbn;
    destruct (REST.reason request) as [[|c' r]|]; cbn; eauto.
Qed.

Lemma resolveHeaders_unauthorized m request :
  REST.auth request = Some false ->
  exists mandatory, resolveHeaders pkg m request = Ok mandatory.
Proof.
  intros Hauth. unfold resolveHeaders. rewrite Hauth.
  destruct (REST.reason request) as [[|c' r]|]; cbn; eauto.
Qed.

Lemma createQueue_nothing_queued hash major m :
  queues m !! (hash +:+ ":" +:+ major) = None ->
  nothing_queued m (fst (createQueue hash major m)).
Proof.
  intros Hnone. unfold createQueue, nothing_queued. cbn. split.
  - intros id h Hid. rewrite lookup_insert_ne; [assumption |].
    intros <-. congruence.
  - intros id h'. rewrite lookup_insert. case_decide as Hd.
    + intros [= <-]. right. subst id. split; [assumption | reflexivity].
    + auto.
Qed.

Lemma queueRequest_throws m boundary tid routeID request e :
  resolveHeaders pkg m request = Throw e ->
  exists m', queueRequest pkg m boundary tid routeID request = (m', Throw e)
             /\ nothing_queued m m'.
Proof.
  intros Hthrow. unfold queueRequest.
  set (hash := if JS.truthy _ then _ else _).
  destruct (queues m !! (hash +:+ ":" +:+ REST.majorParameter routeID)) as [queue |] eqn:Hq.
  - unfold resolveRequest. rewrite Hthrow. eexists. split; [reflexivity |].
    split; auto.
  - pose proof (createQueue_nothing_queued hash (REST.majorParameter routeID) m Hq) as Hn.
    destruct (createQueue hash (REST.majorParameter routeID) m) as [m1 queue] eqn:Hc.
    unfold resolveRequest.
    replace (resolveHeaders pkg m1 request) with (resolveHeaders pkg m request).
    + rewrite Hthrow. eexists. split; [reflexivity | exact Hn].
    + unfold createQueue in Hc. injection Hc as <- _. reflexivity.
Qed.

(** C9.  For a request whose [auth] is true or unset: with a token, the
    assembly succeeds and the request carries [Authorization: Bot <token>];
    with no token (the field is [null] or the empty string, which is
    what the guard [!this.#token] tests) [resolveRequest] throws the
    missing-token error, [queueRequest] throws it in turn without
    having added a call to any queue, and in the event loop the
    submission leaves the calls in progress and the log of network
    activity as they were.  For a request whose [auth] is false the
    assembly succeeds whatever the token is, and the assembler adds no
    [Authorization] header: the name carries only what the body-type
    headers or the caller put there. *)
Theorem resolveRequest_authorization m boundary request :
  (REST.auth request <> Some false ->
   (forall t, token m = Some t -> t <> "" ->
      exists url opts,
        resolveRequest pkg m boundary request = Ok (url, opts)
        /\ Fetch.headers opts !! "Authorization" = Some ("Bot " +:+ t))
   /\ (JS.truthy (token m) = false ->
       resolveRequest pkg m boundary request = Throw no_token_error
       /\ (forall tid routeID,
             exists m', queueRequest pkg m boundary tid routeID request
                        = (m', Throw no_token_error)
                        /\ nothing_queued m m')
       /\ (forall w tid routeID,
             Loop.manager w = m -> Loop.tasks w !! tid = None ->
             exists w', Loop.submit pkg tid boundary routeID request w = Some w'
                        /\ Loop.tasks w' = Loop.tasks w
                        /\ Loop.log w' = Loop.log w)))
  /\ (REST.auth request = Some false ->
      exists url opts,
        resolveRequest pkg m boundary request = Ok (url, opts)
        /\ Fetch.headers opts !! "Authorization"
           = Fetch.spread [default ∅ (REST.headers request);
                           default ∅ (snd (resolveBody boundary request))]
               !! "Authorization").
Proof.
  split.
  - intros Hauth. split.
    + intros t Htok Ht.
      destruct (resolveHeaders_token m request t Htok Ht) as [mandatory Hm].
      destruct (resolveRequest_Ok_intro pkg m boundary request mandatory Hm)
        as (url & opts & Hok).
      exists url, opts. split; [assumption |].
      destruct (resolveRequest_Ok_inv pkg _ _ _ _ _ Hok) as (mandatory' & Hm' & _ & _ & Hh).
      assert (mandatory' = mandatory) as -> by congruence.
      destruct (resolveHeaders_Ok pkg _ _ _ Hm) as (_ & _ & Ha & _).
      destruct (Ha Hauth) as (t' & Ht' & _ & Hl).
      assert (t' = t) as -> by congruence.
      rewrite Hh, spread_lookup, Hl. reflexivity.
    + intros Hno.
      pose proof (resolveHeaders_no_token m request Hauth Hno) as Hthrow.
      split; [| split].
      * unfold resolveRequest. rewrite Hthrow. reflexivity.
      * intros tid routeID. apply queueRequest_throws. assumption.
      * intros w tid routeID Hw Hfresh.
        destruct (queueRequest_throws m boundary tid routeID request _ Hthrow)
          as (m' & Hq & _).
        unfold Loop.submit. rewrite Hfresh, Hw, Hq.
        eexists. split; [reflexivity |]. split; reflexivity.
  - intros Hauth.
    destruct (resolveHeaders_unauthorized m request Hauth) as [mandatory Hm].
    destruct (resolveRequest_Ok_intro pkg m boundary request mandatory Hm)
      as (url & opts & Hok).
    exists url, opts. split; [assumption |].
    destruct (resolveRequest_Ok_inv pkg _ _ _ _ _ Hok) as (mandatory' & Hm' & _ & _ & Hh).
    assert (mandatory' = mandatory) as -> by congruence.
    destruct (resolveHeaders_Ok pkg _ _ _ Hm) as (_ & _ & _ & Hnone & _).
    rewrite Hh, spread_lookup, (Hnone Hauth).
    unfold Fetch.spread. cbn [foldl]. rewrite !lookup_union, lookup_empty.
    destruct (default ∅ (snd (resolveBody boundary request)) !! "Authorization"),
      (default ∅ (REST.headers request) !! "Authorization"); reflexivity.
Qed.

End AuthorizationProperties.

Lemma resolveRequest_authorization_witness :
  (exists url opts,
     Manager.resolveRequest Sample.pkg Sample.manager "" (Sample.get "/users/@me")
     = Ok (url, opts)
     /\ Fetch.headers opts !! "Authorization" = Some "Bot abc")
  /\ Manager.resolveRequest Sample.pkg Sample.bare "" (Sample.get "/users/@me")
     = Throw no_token_error.
Proof.
  split.
  - apply (proj1 (resolveRequest_authorization Sample.pkg Sample.manager ""
                    (Sample.get "/users/@me"))); [discriminate | reflexivity | discriminate].
  - apply (proj1 (resolveRequest_authorization Sample.pkg Sample.bare ""
                    (Sample.get "/users/@me"))); [discriminate | reflexivity].
Defined.

Section BodyProperties.

Import Manager.

Variable pkg : Constants.Package.

Lemma resolveHeaders_no_content_type m request mandatory :
  resolveHeaders pkg m request = Ok mandatory ->
  mandatory !! "Content-Type" = None.
Proof.
  unfold resolveHeaders. intros H.
  destruct (REST.auth request) as [[|]|];
    destruct (token m) as [[|c t]|]; cbn in H; try discriminate;
    destruct (REST.reason request) as [[|c' r]|]; cbn in H;
    injection H as <-; reflexivity.
Qed.

(** C10.  With a non-empty [files], the body is a multipart form whose
    parts are the appended files followed by a [payload_json] field
    exactly when [data] is not [undefined]; for [data = null] that
    field holds the text [null].  With [files] empty or absent, a JSON
    body with the additional header [Content-Type: application/json] is
    produced exactly when [data] is neither [null] nor [undefined], and
    nothing otherwise; the assembled request carries that body, and in
    the JSON case that content type. *)
Theorem resolveBody_data boundary request :
  (forall f fs, REST.files request = Some (f :: fs) ->
     exists form,
       resolveBody boundary request
       = (Some (Fetch.Multipart form), Some (Fetch.getHeaders form))
       /\ Fetch.parts form
          = (Fetch.parts (appendFiles (Fetch.FormData_new boundary) (f :: fs))
               ++ match REST.data request with
                  | Some d => [payload_json d]
                  | None => []
                  end)%list
       /\ (REST.data request = JS.null ->
           exists files_parts,
             Fetch.parts form
             = (files_parts ++ [{| Fetch.field := "payload_json";
                                   Fetch.content := REST.Text "null";
                                   Fetch.filename := None |}])%list))
  /\ (REST.files request = None \/ REST.files request = Some [] ->
      resolveBody boundary request
      = match REST.data request with
        | None => (None, None)
        | Some JS.JNull => (None, None)
        | Some d => (Some (Fetch.Json (JS.JSON_stringify d)),
                     Some {[ "Content-Type" := "application/json" ]})
        end)
  /\ (forall m url opts,
        resolveRequest pkg m boundary request = Ok (url, opts) ->
        Fetch.body opts = fst (resolveBody boundary request)
        /\ (REST.files request = None \/ REST.files request = Some [] ->
            Fetch.headers opts !! "Content-Type"
            = match REST.data request with
              | None | Some JS.JNull =>
                  default ∅ (REST.headers request) !! "Content-Type"
              | Some _ => Some "application/json"
              end)).
Proof.
  split; [| split].
  - intros f fs Hfiles. unfold resolveBody. rewrite Hfiles.
    eexists. split; [reflexivity |]. split.
    + destruct (REST.data request); cbn [Fetch.append Fetch.parts];
        [reflexivity | now rewrite app_nil_r].
    + intros ->. eexists. reflexivity.
  - intros Hfiles. unfold resolveBody.
    destruct Hfiles as [-> | ->];
      destruct (REST.data request) as [[]|]; reflexivity.
  - intros m url opts Hok.
    destruct (resolveRequest_Ok_inv pkg _ _ _ _ _ Hok) as (mandatory & Hm & _ & Hb & Hh).
    split; [assumption |].
    intros Hfiles. rewrite Hh, spread_lookup.
    rewrite (resolveHeaders_no_content_type _ _ _ Hm).
    unfold resolveBody.
    destruct Hfiles as [-> | ->];
      destruct (REST.data request) as [[]|]; cbn;
      try reflexivity;
      destruct (default ∅ (REST.headers request) !! "Content-Type"); reflexivity.
Qed.

End BodyProperties.

Lemma resolveBody_data_witness :
  (exists form,
     Manager.resolveBody "xyz" (upload JS.null)
     = (Some (Fetch.Multipart form), Some (Fetch.getHeaders form))
     /\ Fetch.parts form
        = [{| Fetch.field := "f"; Fetch.content := REST.Buffer "bytes";
              Fetch.filename := Some "f" |};
           {| Fetch.field := "payload_json"; Fetch.content := REST.Text "null";
              Fetch.filename := None |}])
  /\ Manager.resolveBody "xyz" (Sample.get "/users/@me") = (None, None).
Proof.
  split.
  - destruct (proj1 (resolveBody_data Sample.pkg "xyz" (upload JS.null)) _ _ eq_refl)
      as (form & Hbody & Hparts & _).
    exists form. split; [exact Hbody | exact Hparts].
  - apply (proj1 (proj2 (resolveBody_data Sample.pkg "xyz" (Sample.get "/users/@me")))).
    left. reflexivity.
Defined.

Example multipart_upload :
  exists form,
    Fetch.body (assembled_options
                  (Manager.resolveRequest Sample.pkg Sample.manager "xyz"
                     (upload (Some (JS.JObject [("content", JS.JString "hi")])))))
    = Some (Fetch.Multipart form)
    /\ Fetch.parts form
       = [{| Fetch.field := "f"; Fetch.content := REST.Buffer "bytes";
             Fetch.filename := Some "f" |};
          payload_json (JS.JObject [("content", JS.JString "hi")])]
    /\ Fetch.headers (assembled_options
                        (Manager.resolveRequest Sample.pkg Sample.manager "xyz"
                           (upload (Some (JS.JObject [("content", JS.JString "hi")])))))
         !! "content-type" = Some "multipart/form-data; boundary=xyz".
Proof. eexists. repeat split; vm_compute; reflexivity. Qed.

(** ** The sweeper *)

Section SweeperProperties.

Import Handler Manager.

Lemma inactive_spec now h :
  inactive now h = true <-> queue_remaining h = 0%nat /\ limited now h = false.
Proof.
  unfold inactive. rewrite andb_true_iff, Nat.eqb_eq, negb_true_iff. reflexivity.
Qed.

Lemma limited_spec now h :
  limited now h = true
  <-> JS.leb (remaining h) (JS.of_Z 0) = true /\ JS.ltb (JS.of_Z now) (reset h) = true.
Proof. unfold limited. apply andb_true_iff. Qed.

Lemma sweep_lookup now m id :
  queues (sweep now m) !! id
  = match queues m !! id with
    | Some h => if inactive now h then None else Some h
    | None => None
    end.
Proof.
  unfold sweep. cbn. rewrite map_lookup_filter.
  destruct (queues m !! id) as [h |]; [| reflexivity]. cbn.
  destruct (inactive now h); cbn; case_guard;
    first [discriminate | reflexivity | congruence].
Qed.

(** C5.  The sweeper takes a handler out of the table only when the
    handler is inactive; inactive means that its queue is empty and it
    is not limited, and limited means [remaining <= 0] and
    [now < reset].  So a handler whose queue is not empty, or that is
    limited, is still in the table after the sweep, unchanged; and the
    sweep puts nothing new into the table. *)
Theorem sweeper_keeps_active now m id h :
  queues m !! id = Some h ->
  (queues (sweep now m) !! id = None ->
     inactive now h = true
     /\ queue_remaining h = 0%nat
     /\ limited now h = false)
  /\ (inactive now h = true <-> queue_remaining h = 0%nat /\ limited now h = false)
  /\ (limited now h = true
      <-> JS.leb (remaining h) (JS.of_Z 0) = true
          /\ JS.ltb (JS.of_Z now) (reset h) = true)
  /\ (queue_remaining h <> 0%nat \/ limited now h = true ->
      queues (sweep now m) !! id = Some h)
  /\ (forall id' h', queues (sweep now m) !! id' = Some h' ->
                     queues m !! id' = Some h').
Proof.
  intros Hid. split; [| split; [| split; [| split]]].
  - rewrite sweep_lookup, Hid.
    destruct (inactive now h) eqn:Hi; [| discriminate].
    intros _. apply inactive_spec in Hi. tauto.
  - apply inactive_spec.
  - apply limited_spec.
  - intros Hactive. rewrite sweep_lookup, Hid.
    destruct (inactive now h) eqn:Hi; [| reflexivity].
    apply inactive_spec in Hi. destruct Hi as [Hq Hl].
    destruct Hactive; congruence.
  - intros id' h'. rewrite sweep_lookup.
    destruct (queues m !! id') as [h0 |]; [| discriminate].
    destruct (inactive now h0); congruence.
Qed.

End SweeperProperties.

Lemma sweeper_keeps_active_witness :
  Manager.queues (Manager.sweep 1000
                    (Manager.set_queues {[ "abc:1" := spent ]} Sample.manager))
    !! "abc:1" = Some spent.
Proof.
  assert (Hin : Manager.queues (Manager.set_queues {[ "abc:1" := spent ]} Sample.manager)
                  !! "abc:1" = Some spent) by (vm_compute; reflexivity).
  destruct (sweeper_keeps_active 1000
              (Manager.set_queues {[ "abc:1" := spent ]} Sample.manager) "abc:1" spent Hin)
    as (_ & _ & _ & Hkept & _).
  apply Hkept. right. vm_compute. reflexivity.
Defined.

Example sweeper_drops_idle :
  Manager.queues (Manager.sweep 3000
                    (Manager.set_queues {[ "abc:1" := spent ]} Sample.manager))
    !! "abc:1" = None.
Proof. vm_compute. reflexivity. Qed.

(** ** One response, read and classified *)

(** Decide the comparisons a goal makes on integers, and drop the cases
    the hypotheses exclude. *)
Ltac status_cases :=
  repeat match goal with
         | |- context [(?a <=? ?b)%Z] => destruct (Z.leb_spec a b)
         | |- context [(?a <? ?b)%Z] => destruct (Z.ltb_spec a b)
         | |- context [(?a =? ?b)%Z] => destruct (Z.eqb_spec a b)
         end;
  cbn; try lia; try reflexivity.

Section ResponseProperties.

Import Handler Manager RequestHandler.

Lemma readHeaders_options now fresh m h routeID opts res :
  options (snd (fst (fst (readHeaders now fresh m h routeID opts res)))) = options m.
Proof.
  unfold readHeaders. destruct (Response.headers res) as [hs |]; [| reflexivity].
  destruct (JS.truthy (Response.get hs "X-RateLimit-Bucket") && _);
    destruct (JS.truthy (Response.get hs "X-RateLimit-Global")); reflexivity.
Qed.

Lemma makeRequest_body_options now fresh m h routeID url opts retries o :
  options (manager (makeRequest_body now fresh m h routeID url opts retries o))
  = options m.
Proof.
  destruct o as [res | name]; [| reflexivity]. cbn.
  pose proof (readHeaders_options now fresh m h routeID opts res) as H.
  destruct (readHeaders now fresh m h routeID opts res) as [[[h' m'] ev] t].
  destruct (classify m' routeID url opts retries (retryAfter_of m res) res).
  exact H.
Qed.

(** The end of a pass that received a response is the classification of
    that response, made with the unchanged options. *)
Lemma makeRequest_body_next now fresh m h routeID url opts retries res :
  next (makeRequest_body now fresh m h routeID url opts retries (Response.Responded res))
  = snd (classify m routeID url opts retries (retryAfter_of m res) res).
Proof.
  cbn.
  pose proof (readHeaders_options now fresh m h routeID opts res) as H.
  destruct (readHeaders now fresh m h routeID opts res) as [[[h' m'] ev] t].
  cbn in H.
  destruct (classify m' routeID url opts retries (retryAfter_of m res) res) eqn:Hc.
  cbn. unfold classify in *. rewrite H in Hc.
  rewrite Hc. reflexivity.
Qed.


End ResponseProperties.


Section HeaderReading.

Import Handler Manager RequestHandler.

Lemma truthy_nonempty (v : string) : v <> "" -> JS.truthy (Some v) = true.
Proof. destruct v; [congruence | reflexivity]. Qed.

(** Addition of numbers is commutative: the exact sum is, and it is
    rounded once. *)
Lemma add_swap (a b : JS.number) : JS.add a b = JS.add b a.
Proof.
  unfold JS.add.
  destruct a as [[] | [] | | sa ma ea], b as [[] | [] | | sb mb eb]; try reflexivity.
  cbn [SFadd]. now rewrite Z.min_comm, Z.add_comm.
Qed.

(** C4.  For a response whose headers carry a [Retry-After] value [v],
    [retryAfter] is [Number(v) * 1000 + offset] when there is no [Via]
    header and [Number(v) * 1 + offset] when there is one; with no
    [Retry-After] header it is [0].  (A header is carried with a value:
    the empty text is not one.)  This is the delay of the 429 branch and
    of the global timeout. *)
Theorem retryAfter_value m res hs :
  Response.headers res = Some hs ->
  (forall v, Response.get hs "Retry-After" = Some v -> v <> "" ->
     (Response.get hs "Via" = None ->
      retryAfter_of m res
      = JS.add (JS.mul (JS.Number v) (JS.of_Z 1000)) (JS.of_Z (offset (options m))))
     /\ (forall via, Response.get hs "Via" = Some via -> via <> "" ->
         retryAfter_of m res
         = JS.add (JS.mul (JS.Number v) (JS.of_Z 1)) (JS.of_Z (offset (options m)))))
  /\ (Response.get hs "Retry-After" = None -> retryAfter_of m res = JS.of_Z 0)
  /\ (forall now fresh h routeID url opts retries,
        Response.status res = 429 ->
        next (makeRequest_body now fresh m h routeID url opts retries
                (Response.Responded res))
        = Again (Some (retryAfter_of m res)) retries)
  /\ (forall now fresh h routeID url opts retries global,
        Response.get hs "X-RateLimit-Global" = Some global -> global <> "" ->
        timer (makeRequest_body now fresh m h routeID url opts retries
                 (Response.Responded res))
        = Some (fresh, retryAfter_of m res)).
Proof.
  intros Hhs. split; [| split; [| split]].
  - intros v Hv Hne. unfold retryAfter_of. rewrite Hhs, Hv.
    rewrite (truthy_nonempty v Hne). split.
    + intros ->. reflexivity.
    + intros via -> Hvia. rewrite (truthy_nonempty via Hvia). reflexivity.
  - intros Hnone. unfold retryAfter_of. now rewrite Hhs, Hnone.
  - intros now fresh h routeID url opts retries Hs.
    rewrite makeRequest_body_next. unfold classify, Response.ok. rewrite Hs.
    reflexivity.
  - intros now fresh h routeID url opts retries global Hg Hne.
    cbn. unfold readHeaders. rewrite Hhs, Hg, (truthy_nonempty global Hne).
    destruct (JS.truthy (Response.get hs "X-RateLimit-Bucket") && _);
      destruct (classify _ routeID url opts retries (retryAfter_of m res) res);
      reflexivity.
Qed.

(** The bucket fields a pass leaves behind when the response carries
    headers. *)
Lemma makeRequest_body_handler now fresh m h routeID url opts retries res hs :
  Response.headers res = Some hs ->
  handler (makeRequest_body now fresh m h routeID url opts retries
             (Response.Responded res))
  = set_bucket
      (if JS.truthy (Response.get hs "X-RateLimit-Limit")
       then JS.Number (default "" (Response.get hs "X-RateLimit-Limit"))
       else JS.PInf)
      (if JS.truthy (Response.get hs "X-RateLimit-Remaining")
       then JS.Number (default "" (Response.get hs "X-RateLimit-Remaining"))
       else JS.of_Z 1)
      (if JS.truthy (Response.get hs "X-RateLimit-Reset-After")
       then JS.add (JS.add (JS.mul (JS.Number
                                      (default "" (Response.get hs "X-RateLimit-Reset-After")))
                                   (JS.of_Z 1000))
                           (JS.of_Z now))
                   (JS.of_Z (offset (options m)))
       else JS.of_Z now)
      h.
Proof.
  intros Hhs. cbn [makeRequest_body]. unfold readHeaders. rewrite Hhs.
  destruct (JS.truthy (Response.get hs "X-RateLimit-Bucket") && _);
    destruct (JS.truthy (Response.get hs "X-RateLimit-Global"));
    destruct (classify _ routeID url opts retries (retryAfter_of m res) res);
    reflexivity.
Qed.

(** C7.  After a response that carries headers, the handler's [limit]
    is the value of [X-RateLimit-Limit], or infinity without that
    header; [remaining] is the value of [X-RateLimit-Remaining], or 1
    without it; [reset] is [now + value * 1000 + offset] for the value
    of [X-RateLimit-Reset-After], and exactly [now], with no offset,
    without it.  (A header is carried with a value: the empty text is
    not one.) *)
Theorem bucket_update now fresh m h routeID url opts retries res hs :
  Response.headers res = Some hs ->
  let h' := handler (makeRequest_body now fresh m h routeID url opts retries
                       (Response.Responded res)) in
  (forall v, Response.get hs "X-RateLimit-Limit" = Some v -> v <> "" ->
             limit h' = JS.Number v)
  /\ (Response.get hs "X-RateLimit-Limit" = None -> limit h' = JS.PInf)
  /\ (forall v, Response.get hs "X-RateLimit-Remaining" = Some v -> v <> "" ->
                remaining h' = JS.Number v)
  /\ (Response.get hs "X-RateLimit-Remaining" = None -> remaining h' = JS.of_Z 1)
  /\ (forall v, Response.get hs "X-RateLimit-Reset-After" = Some v -> v <> "" ->
                reset h'
                = JS.add (JS.add (JS.of_Z now) (JS.mul (JS.Number v) (JS.of_Z 1000)))
                         (JS.of_Z (offset (options m))))
  /\ (Response.get hs "X-RateLimit-Reset-After" = None -> reset h' = JS.of_Z now).
Proof.
  intros Hhs h'. subst h'.
  rewrite (makeRequest_body_handler now fresh m h routeID url opts retries res hs Hhs).
  unfold set_bucket. cbn [limit remaining reset]. repeat split.
  - intros v -> Hne. now rewrite (truthy_nonempty v Hne).
  - intros ->. reflexivity.
  - intros v -> Hne. now rewrite (truthy_nonempty v Hne).
  - intros ->. reflexivity.
  - intros v -> Hne. rewrite (truthy_nonempty v Hne). cbn [default].
    f_equal. apply add_swap.
  - intros ->. reflexivity.
Qed.

End HeaderReading.

Lemma retryAfter_value_witness :
  RequestHandler.retryAfter_of Sample.manager cloudflare_429 = JS.of_Z 1100
  /\ RequestHandler.retryAfter_of Sample.manager global_429 = JS.of_Z 102.
Proof.
  split.
  - destruct (retryAfter_value Sample.manager cloudflare_429
                (list_to_map [("retry-after", "1")]) eq_refl) as (H & _).
    destruct (H "1" ltac:(vm_compute; reflexivity) ltac:(discriminate)) as (Hcf & _).
    exact (Hcf ltac:(vm_compute; reflexivity)).
  - destruct (retryAfter_value Sample.manager global_429
                (list_to_map [("retry-after", "2"); ("via", "1.1 proxy");
                              ("x-ratelimit-global", "true")]) eq_refl) as (H & _).
    destruct (H "2" ltac:(vm_compute; reflexivity) ltac:(discriminate)) as (_ & Hvia).
    exact (Hvia "1.1 proxy" ltac:(vm_compute; reflexivity) ltac:(discriminate)).
Defined.

Lemma bucket_update_witness :
  let h' := RequestHandler.handler
              (RequestHandler.makeRequest_body 1000 0 Sample.manager
                 (Handler.new "UnknownHash(/users/@me)" "")
                 {| REST.route := "/users/@me"; REST.majorParameter := "" |}
                 "https://discord.com/api/v7/users/@me" plain_get 0
                 (Response.Responded cold_200)) in
  Handler.limit h' = JS.of_Z 5
  /\ Handler.remaining h' = JS.of_Z 4
  /\ Handler.reset h' = JS.of_Z 3100.
Proof.
  pose proof (bucket_update 1000 0 Sample.manager
                (Handler.new "UnknownHash(/users/@me)" "")
                {| REST.route := "/users/@me"; REST.majorParameter := "" |}
                "https://discord.com/api/v7/users/@me" plain_get 0 cold_200
                (list_to_map
                   [("x-ratelimit-limit", "5"); ("x-ratelimit-remaining", "4");
                    ("x-ratelimit-reset-after", "2"); ("x-ratelimit-bucket", "abc");
                    ("content-type", "application/json")]) eq_refl) as H.
  cbv zeta in H. destruct H as (Hl & _ & Hr & _ & Ht & _).
  cbv zeta. split; [| split].
  - exact (Hl "5" ltac:(vm_compute; reflexivity) ltac:(discriminate)).
  - exact (Hr "4" ltac:(vm_compute; reflexivity) ltac:(discriminate)).
  - exact (Ht "2" ltac:(vm_compute; reflexivity) ltac:(discriminate)).
Defined.

(** ** The retry counter *)

Section RetryProperties.

Import Handler Manager RequestHandler.

Variables (routeID : REST.RouteIdentifier) (url : string) (opts : Fetch.RequestInit).

Lemma failure_next now fresh m h r o :
  server_failure o ->
  next (makeRequest_body now fresh m h routeID url opts r o)
  = if (r =? retries (options m))%Z
    then Raise (match o with
                | Response.Rejected name => FetchRejection name
                | Response.Responded res =>
                    HTTPError (Response.statusText res) "Response"
                      (Response.status res) (Fetch.method opts) url
                end)
    else Again None (r + 1).
Proof.
  intros [-> | (res & -> & Hs)].
  - cbn. destruct (r =? retries (options m))%Z; reflexivity.
  - rewrite makeRequest_body_next. unfold classify, Response.ok.
    status_cases.
Qed.

Lemma too_many_next now fresh m h r res :
  Response.status res = 429 ->
  next (makeRequest_body now fresh m h routeID url opts r (Response.Responded res))
  = Again (Some (retryAfter_of m res)) r.
Proof.
  intros Hs. rewrite makeRequest_body_next. unfold classify, Response.ok.
  rewrite Hs. reflexivity.
Qed.

(** A pass that calls [makeRequest] again either keeps the counter or
    adds one to a counter that differs from the bound. *)
Lemma next_Again_cases now fresh m h r o delay r' :
  next (makeRequest_body now fresh m h routeID url opts r o) = Again delay r' ->
  r' = r \/ (r' = r + 1 /\ r <> retries (options m)).
Proof.
  destruct o as [res | name].
  - rewrite makeRequest_body_next. unfold classify.
    destruct (Response.ok res).
    { cbn. destruct (parseResponse res); discriminate. }
    destruct (Response.status res =? 429)%Z.
    { cbn. intros [= _ <-]. now left. }
    destruct ((500 <=? Response.status res) && (Response.status res <? 600))%Z.
    { cbn. destruct (Z.eqb_spec r (retries (options m))); cbn; [discriminate |].
      intros [= _ <-]. now right. }
    destruct ((400 <=? Response.status res) && (Response.status res <? 500))%Z;
      cbn; [| discriminate].
    destruct (parseResponse res) as [data |]; [| discriminate].
    destruct (property data "message"); [| discriminate].
    destruct (property data "code"); discriminate.
  - cbn. destruct (String.eqb name "AbortError"); cbn; [| discriminate].
    destruct (Z.eqb_spec r (retries (options m))); cbn; [discriminate |].
    intros [= _ <-]. now right.
Qed.

Lemma sends_between script :
  forall fresh m h r,
    r <= retries (options m) ->
    List.Forall (fun r' => r <= r' <= retries (options m))
                (sends (makeRequest script fresh m h routeID url opts r)).
Proof.
  induction script as [| [now o] script IH]; intros fresh m h r Hr.
  - cbn. repeat constructor; lia.
  - cbn [makeRequest].
    pose proof (makeRequest_body_options now fresh m h routeID url opts r o) as Ho.
    destruct (next (makeRequest_body now fresh m h routeID url opts r o))
      as [v | e | delay r'] eqn:Hn; cbn [sends].
    + repeat constructor; lia.
    + repeat constructor; lia.
    + apply next_Again_cases in Hn. constructor; [lia |].
      assert (Hr' : r' <= retries (options (manager (makeRequest_body now fresh m h routeID url opts r o))))
        by (rewrite Ho; lia).
      specialize (IH (S fresh) _ (handler (makeRequest_body now fresh m h routeID url opts r o)) r' Hr').
      rewrite Ho in IH.
      eapply List.Forall_impl; [| exact IH]. cbn. intros x Hx. lia.
Qed.

Lemma consecutive_429s s429 :
  List.Forall is_429 s429 ->
  forall rest fresh m h r,
  exists fresh' m' h',
    options m' = options m
    /\ sends (makeRequest (s429 ++ rest) fresh m h routeID url opts r)
       = (repeat r (length s429)
            ++ sends (makeRequest rest fresh' m' h' routeID url opts r))%list
    /\ result (makeRequest (s429 ++ rest) fresh m h routeID url opts r)
       = result (makeRequest rest fresh' m' h' routeID url opts r).
Proof.
  induction 1 as [| [now o] s429 (res & Ho & Hs) _ IH]; intros rest fresh m h r.
  - exists fresh, m, h. repeat split.
  - cbn in Ho. subst o. cbn [app makeRequest].
    rewrite (too_many_next now fresh m h r res Hs).
    destruct (IH rest (S fresh)
                (manager (makeRequest_body now fresh m h routeID url opts r
                            (Response.Responded res)))
                (handler (makeRequest_body now fresh m h routeID url opts r
                            (Response.Responded res))) r)
      as (fresh' & m' & h' & Hopt & Hsends & Hres).
    exists fresh', m', h'. split; [| split].
    + rewrite Hopt. apply makeRequest_body_options.
    + cbn [sends length repeat]. rewrite Hsends. reflexivity.
    + cbn [result]. exact Hres.
Qed.

(** C3.  With [options.retries] a count (not negative), every call of
    [fetch] in a run of [makeRequest] is made with a retries counter
    between 0 and [options.retries].  A timed-out request or a 5xx
    response met with a counter that differs from [options.retries]
    makes [makeRequest] call itself with the counter plus one; met with
    a counter equal to [options.retries] it makes the error propagate:
    the abort error as it is, the 5xx response as an HTTP error.  A 429
    response makes [makeRequest] call itself, after the sleep, with the
    counter as it is, and so does any number of 429 responses in a row. *)
Theorem retries_bounded m :
  (0 <= retries (options m) ->
   forall script fresh h,
     List.Forall (fun r => 0 <= r <= retries (options m))
                 (sends (makeRequest script fresh m h routeID url opts 0)))
  /\ (forall now fresh h r o,
        server_failure o -> r <> retries (options m) ->
        next (makeRequest_body now fresh m h routeID url opts r o) = Again None (r + 1))
  /\ (forall now fresh h,
        next (makeRequest_body now fresh m h routeID url opts (retries (options m))
                (Response.Rejected "AbortError"))
        = Raise (FetchRejection "AbortError"))
  /\ (forall now fresh h res,
        500 <= Response.status res < 600 ->
        next (makeRequest_body now fresh m h routeID url opts (retries (options m))
                (Response.Responded res))
        = Raise (HTTPError (Response.statusText res) "Response" (Response.status res)
                   (Fetch.method opts) url))
  /\ (forall now fresh h r res,
        Response.status res = 429 ->
        next (makeRequest_body now fresh m h routeID url opts r
                (Response.Responded res))
        = Again (Some (retryAfter_of m res)) r)
  /\ (forall s429 rest fresh h r,
        List.Forall is_429 s429 ->
        exists fresh' m' h',
          options m' = options m
          /\ sends (makeRequest (s429 ++ rest) fresh m h routeID url opts r)
             = (repeat r (length s429)
                  ++ sends (makeRequest rest fresh' m' h' routeID url opts r))%list
          /\ result (makeRequest (s429 ++ rest) fresh m h routeID url opts r)
             = result (makeRequest rest fresh' m' h' routeID url opts r)).
Proof.
  split; [| split; [| split; [| split; [| split]]]].
  - intros HR script fresh h. apply sends_between. assumption.
  - intros now fresh h r o Hf Hne. rewrite (failure_next now fresh m h r o Hf).
    destruct (Z.eqb_spec r (retries (options m))); [contradiction | reflexivity].
  - intros now fresh h. rewrite failure_next by (left; reflexivity).
    now rewrite Z.eqb_refl.
  - intros now fresh h res Hs. rewrite failure_next by (right; eauto).
    now rewrite Z.eqb_refl.
  - intros now fresh h r res Hs. apply too_many_next. assumption.
  - intros s429 rest fresh h r H429. apply consecutive_429s. assumption.
Qed.

End RetryProperties.

Lemma retries_bounded_witness :
  List.Forall (fun r => 0 <= r <= 1)
    (RequestHandler.sends
       (RequestHandler.makeRequest
          [(10, Response.Responded unavailable); (20, Response.Responded unavailable)]
          0 Sample.manager (Handler.new "abc" "1") Sample.messages
          "https://discord.com/api/v7/channels/1/messages" plain_get 0)).
Proof.
  exact (proj1 (retries_bounded Sample.messages
                  "https://discord.com/api/v7/channels/1/messages" plain_get
                  Sample.manager) ltac:(cbn; lia) _ _ _).
Defined.

(** Two 503 responses with the default single retry: two calls of
    [fetch], then the HTTP error. *)
Example two_503s :
  let run := RequestHandler.makeRequest
               [(10, Response.Responded unavailable); (20, Response.Responded unavailable)]
               0 Sample.manager (Handler.new "abc" "1") Sample.messages
               "https://discord.com/api/v7/channels/1/messages" plain_get 0 in
  RequestHandler.sends run = [0; 1]
  /\ RequestHandler.result run
     = Some (Throw (HTTPError "" "Response" 503 "GET"
                      "https://discord.com/api/v7/channels/1/messages")).
Proof. split; vm_compute; reflexivity. Qed.

(** A 429 behind Cloudflare, then a 200: the counter stays at 0 and the
    handler reports the hit with a delay of 1100 ms. *)
Example a_429_then_200 :
  let run := RequestHandler.makeRequest
               [(10, Response.Responded cloudflare_429); (1200, Response.Responded cold_200)]
               0 Sample.manager (Handler.new "abc" "1") Sample.messages
               "https://discord.com/api/v7/channels/1/messages" plain_get 0 in
  RequestHandler.sends run = [0; 0]
  /\ RequestHandler.events run
     = [RequestHandler.Debug429 "/channels/1/messages" (JS.of_Z 1100)]
  /\ RequestHandler.result run
     = Some (Ok (RequestHandler.Body
                   (RequestHandler.DJson (JS.JObject [("id", JS.JString "1")])))).
Proof. repeat split; vm_compute; reflexivity. Qed.

(** ** The global timeout *)

Section GlobalTimeoutProperties.

Import Handler Manager RequestHandler Loop.

Variable pkg : Constants.Package.

Lemma awaited_done_mono (w w' : World) g :
  resolved w ⊆ resolved w' -> awaited_done w g = true -> awaited_done w' g = true.
Proof.
  destruct g as [p |]; cbn; [| reflexivity].
  rewrite !bool_decide_eq_true. set_solver.
Qed.

(** The resolved promises only grow. *)
Lemma step_resolved l (w w' : World) :
  step pkg l w = Some w' -> resolved w ⊆ resolved w'.
Proof.
  intros Hstep. destruct l as [tid boundary route request | tid d1 d2 | tid o | p | dt |];
    cbn [step] in Hstep.
  - unfold submit in Hstep.
    destruct (tasks w !! tid); [discriminate |].
    destruct (queueRequest pkg (Loop.manager w) boundary tid route request) as [m c].
    now injection Hstep as <-.
  - unfold push in Hstep.
    destruct (tasks w !! tid) as [t |]; [| discriminate].
    destruct (queues (Loop.manager w) !! on t) as [h |]; [| discriminate].
    destruct (at_point t) as [| g | u | r | u r | c]; try discriminate.
    + destruct (asyncQueue h) as [| first rest]; [discriminate |].
      destruct (first =? tid)%nat; [| discriminate]. now injection Hstep as <-.
    + destruct (awaited_done w g); [| discriminate].
      destruct (limited (clock w) h).
      * destruct ((0 <=? d1)%Z && (0 <=? d2)%Z); [| discriminate]. now injection Hstep as <-.
      * now injection Hstep as <-.
    + destruct (due (clock w) u); [| discriminate]. now injection Hstep as <-.
    + destruct (due (clock w) u); [| discriminate]. now injection Hstep as <-.
  - unfold settle in Hstep.
    destruct (tasks w !! tid) as [t |]; [| discriminate].
    destruct (queues (Loop.manager w) !! on t) as [h |]; [| discriminate].
    destruct (at_point t) as [| g | u | r | u r | c]; try discriminate.
    injection Hstep as <-. now destruct (next _) as [v | e | [delay |] r'].
  - unfold fire in Hstep.
    destruct (timers w !! p) as [u |]; [| discriminate].
    destruct (due (clock w) u); [| discriminate].
    injection Hstep as <-. cbn. set_solver.
  - destruct (0 <? dt)%Z; [| discriminate]. now injection Hstep as <-.
  - now injection Hstep as <-.
Qed.

(** A step made for another call, or for none, leaves a call where it
    stands and makes no call of [fetch] for it. *)
Lemma step_other_call l (w w' : World) tid t :
  tasks w !! tid = Some t ->
  step pkg l w = Some w' ->
  (forall d1 d2, l <> Resume tid d1 d2) ->
  (forall o, l <> Respond tid o) ->
  tasks w' !! tid = Some t
  /\ exists entries,
       log w' = (log w ++ entries)%list
       /\ forall retries global, ~ In (Issued tid retries global) entries.
Proof.
  intros Ht Hstep Hres Hrsp.
  destruct l as [tid' boundary route request | tid' d1 d2 | tid' o | p | dt |];
    cbn [step] in Hstep.
  - unfold submit in Hstep.
    destruct (tasks w !! tid') eqn:Hfresh; [discriminate |].
    destruct (queueRequest pkg (Loop.manager w) boundary tid' route request) as [m c].
    injection Hstep as <-. cbn. split.
    + destruct c as [q | e]; [| exact Ht].
      rewrite lookup_insert_ne; [exact Ht | congruence].
    + exists []. split; [now rewrite app_nil_r | intros ? ? []].
  - assert (Hne : tid' <> tid) by (intros ->; now apply (Hres d1 d2)).
    unfold push in Hstep.
    destruct (tasks w !! tid') as [t' |]; [| discriminate].
    destruct (queues (Loop.manager w) !! on t') as [h |]; [| discriminate].
    destruct (at_point t') as [| g | u | r | u r | c]; try discriminate.
    + destruct (asyncQueue h) as [| first rest]; [discriminate |].
      destruct (first =? tid')%nat; [| discriminate]. injection Hstep as <-. cbn.
      split; [now rewrite lookup_insert_ne |].
      exists []. split; [reflexivity | intros ? ? []].
    + destruct (awaited_done w g); [| discriminate].
      destruct (limited (clock w) h).
      * destruct ((0 <=? d1)%Z && (0 <=? d2)%Z); [| discriminate].
        injection Hstep as <-. cbn.
        split; [now rewrite lookup_insert_ne |].
        eexists. split; [reflexivity |]. intros ? ? [[=] | []].
      * injection Hstep as <-. cbn.
        split; [now rewrite lookup_insert_ne |].
        eexists. split; [reflexivity |]. intros ? ? [[= ? ? ?] | []]. congruence.
    + destruct (due (clock w) u); [| discriminate]. injection Hstep as <-. cbn.
      split; [now rewrite lookup_insert_ne |].
      eexists. split; [reflexivity |]. intros ? ? [[= ? ? ?] | []]. congruence.
    + destruct (due (clock w) u); [| discriminate]. injection Hstep as <-. cbn.
      split; [now rewrite lookup_insert_ne |].
      eexists. split; [reflexivity |]. intros ? ? [[= ? ? ?] | []]. congruence.
  - assert (Hne : tid' <> tid) by (intros ->; now apply (Hrsp o)).
    unfold settle in Hstep.
    destruct (tasks w !! tid') as [t' |]; [| discriminate].
    destruct (queues (Loop.manager w) !! on t') as [h |]; [| discriminate].
    destruct (at_point t') as [| g | u | r | u r | c]; try discriminate.
    injection Hstep as <-.
    destruct (next _) as [v | e | [delay |] r']; cbn;
      (split; [now rewrite lookup_insert_ne |]);
      (eexists; split; [reflexivity |]);
      intros retries global Hin; apply in_app_or in Hin; destruct Hin as [Hin | Hin];
      try (apply in_map_iff in Hin; destruct Hin as (? & [=] & _));
      try (destruct Hin as [[= ? ? ?] | []]; congruence);
      try contradiction.
  - unfold fire in Hstep.
    destruct (timers w !! p) as [u |]; [| discriminate].
    destruct (due (clock w) u); [| discriminate].
    injection Hstep as <-. cbn. split; [exact Ht |].
    exists []. split; [now rewrite app_nil_r | intros ? ? []].
  - destruct (0 <? dt)%Z; [| discriminate]. injection Hstep as <-. cbn.
    split; [exact Ht |]. exists []. split; [now rewrite app_nil_r | intros ? ? []].
  - injection Hstep as <-. cbn. split; [exact Ht |].
    exists []. split; [now rewrite app_nil_r | intros ? ? []].
Qed.

(** One step: a call that has read [g] at line 85 stays held by it, and
    a call of [fetch] the step makes for it is made with [g] [null] or
    resolved. *)
Lemma step_passed_global l (w w' : World) tid g :
  passed_global w tid g ->
  step pkg l w = Some w' ->
  passed_global w' tid g
  /\ exists entries,
       log w' = (log w ++ entries)%list
       /\ forall retries global,
            In (Issued tid retries global) entries -> awaited_done w g = true.
Proof.
  intros (t & Ht & Hinv) Hstep.
  pose proof (step_resolved l w w' Hstep) as Hsub.
  assert (Hkeep : tasks w' !! tid = Some t -> passed_global w' tid g).
  { intros Ht'. exists t. split; [exact Ht' |].
    destruct (at_point t); try exact Hinv; eauto using awaited_done_mono. }
  assert (Hother : (forall d1 d2, l <> Resume tid d1 d2) -> (forall o, l <> Respond tid o) ->
                   passed_global w' tid g
                   /\ exists entries,
                        log w' = (log w ++ entries)%list
                        /\ forall retries global,
                             In (Issued tid retries global) entries ->
                             awaited_done w g = true).
  { intros H1 H2.
    destruct (step_other_call l w w' tid t Ht Hstep H1 H2) as (Ht' & entries & Hlog & Hno).
    split; [now apply Hkeep |]. exists entries. split; [exact Hlog |].
    intros retries global Hin. now apply Hno in Hin. }
  destruct l as [tid' boundary route request | tid' d1 d2 | tid' o | p | dt |];
    try (apply Hother; discriminate).
  - destruct (decide (tid' = tid)) as [-> | Hne];
      [| apply Hother; [intros ? ? [=]; congruence | discriminate]].
    cbn [step] in Hstep. unfold push in Hstep. rewrite Ht in Hstep.
    destruct (queues (Loop.manager w) !! on t) as [h |]; [| discriminate].
    destruct (at_point t) as [| g' | u | r | u r | c] eqn:Hat; try discriminate.
    + contradiction.
    + subst g'. destruct (awaited_done w g) eqn:Hdone; [| discriminate].
      destruct (limited (clock w) h).
      * destruct ((0 <=? d1)%Z && (0 <=? d2)%Z); [| discriminate].
        injection Hstep as <-. split.
        -- eexists. split; [cbn; now rewrite lookup_insert_eq |]. exact Hdone.
        -- eexists. split; [reflexivity |]. intros ? ? [[=] | []].
      * injection Hstep as <-. split.
        -- eexists. split; [cbn; now rewrite lookup_insert_eq |]. exact Hdone.
        -- eexists. split; [reflexivity |]. intros ? ? _. reflexivity.
    + destruct (due (clock w) u); [| discriminate]. injection Hstep as <-. split.
      * eexists. split; [cbn; now rewrite lookup_insert_eq |]. exact Hinv.
      * eexists. split; [reflexivity |]. intros ? ? _. exact Hinv.
    + destruct (due (clock w) u); [| discriminate]. injection Hstep as <-. split.
      * eexists. split; [cbn; now rewrite lookup_insert_eq |]. exact Hinv.
      * eexists. split; [reflexivity |]. intros ? ? _. exact Hinv.
  - destruct (decide (tid' = tid)) as [-> | Hne];
      [| apply Hother; [discriminate | intros ? [=]; congruence]].
    cbn [step] in Hstep. unfold settle in Hstep. rewrite Ht in Hstep.
    destruct (queues (Loop.manager w) !! on t) as [h |]; [| discriminate].
    destruct (at_point t) as [| g' | u | r | u r | c] eqn:Hat; try discriminate.
    injection Hstep as <-.
    destruct (next _) as [v | e | [delay |] r']; cbn;
      (split;
       [ eexists; split; [cbn; now rewrite lookup_insert_eq |]; exact Hinv
       | eexists; split; [reflexivity |]; intros ? ? _; exact Hinv ]).
Qed.

Lemma run_passed_global schedule tid g :
  forall w w', passed_global w tid g -> run pkg schedule w = Some w' ->
               passed_global w' tid g.
Proof.
  induction schedule as [| l schedule IH]; intros w w' Hinv Hrun; cbn in Hrun.
  - now injection Hrun as <-.
  - destruct (step pkg l w) as [w1 |] eqn:Hstep; [| discriminate].
    eapply IH; [| exact Hrun]. eapply step_passed_global; eauto.
Qed.

(** C2, as amended.  A call of [push] reads [manager.globalTimeout]
    once, when it is resumed at the head of its handler's queue: it
    then stands at line 85 awaiting the value [g] the field had at that
    moment, and nothing has been sent.  From then on, whatever steps
    follow, the call is never back at the queue and never awaits another
    value at line 85, and every call of [fetch] a step makes for it is
    made when [g] was [null] or is a promise that has resolved.  (A
    global timeout installed after the reading is not awaited.) *)
Theorem fetch_after_global_wait tid emitting reading w1 t1 w2 later w3 l w4 :
  tasks w1 !! tid = Some t1 ->
  at_point t1 = AwaitQueue ->
  step pkg (Resume tid emitting reading) w1 = Some w2 ->
  run pkg later w2 = Some w3 ->
  step pkg l w3 = Some w4 ->
  let g := globalTimeout (Loop.manager w1) in
  (exists h rest, queues (Loop.manager w1) !! on t1 = Some h
                  /\ asyncQueue h = tid :: rest)
  /\ tasks w2 !! tid = Some (move (AwaitGlobal g) t1)
  /\ log w2 = log w1
  /\ (exists t3, tasks w3 !! tid = Some t3
                 /\ at_point t3 <> AwaitQueue
                 /\ forall g', at_point t3 = AwaitGlobal g' -> g' = g)
  /\ exists entries,
       log w4 = (log w3 ++ entries)%list
       /\ forall retries global,
            In (Issued tid retries global) entries ->
            match g with
            | None => True
            | Some p => p ∈ resolved w3
            end.
Proof.
  intros Ht1 Hat1 Hread Hlater Hstep g.
  cbn [step] in Hread. unfold push in Hread. rewrite Ht1, Hat1 in Hread.
  destruct (queues (Loop.manager w1) !! on t1) as [h |]; [| discriminate].
  destruct (asyncQueue h) as [| first rest] eqn:Hqueue; [discriminate |].
  destruct (Nat.eqb_spec first tid) as [-> |]; [| discriminate].
  injection Hread as <-.
  split; [eauto |]. split; [cbn; now rewrite lookup_insert_eq |].
  split; [cbn; now rewrite app_nil_r |].
  assert (Hinv2 : passed_global
                    (put_task tid (move (AwaitGlobal g) t1) [] w1) tid g).
  { eexists. split; [cbn; now rewrite lookup_insert_eq | reflexivity]. }
  pose proof (run_passed_global later tid g _ _ Hinv2 Hlater) as Hinv3.
  split.
  - destruct Hinv3 as (t3 & Ht3 & Hpt). exists t3. split; [exact Ht3 |].
    destruct (at_point t3); try contradiction; split; try discriminate;
      intros g' [=]; congruence.
  - destruct (step_passed_global l w3 w4 tid g Hinv3 Hstep) as (_ & entries & Hlog & Hsent).
    exists entries. split; [exact Hlog |].
    intros retries global Hin. specialize (Hsent retries global Hin).
    destruct g as [p |]; [| exact I].
    cbn in Hsent. now apply bool_decide_eq_true in Hsent.
Qed.

End GlobalTimeoutProperties.

Lemma before_reset_runs :
  Loop.run Sample.pkg before_reset (Loop.initial Sample.manager) = Some world_before_reset.
Proof. vm_compute. reflexivity. Qed.

Lemma reset_step :
  Loop.step Sample.pkg (Loop.Resume 2 0 0) world_before_reset = Some world_after_reset.
Proof. vm_compute. reflexivity. Qed.

Example second_request_sent_under_global_timeout :
  Loop.clock world_after_reset = 5150
  /\ Loop.log world_after_reset
     = [Loop.Issued 1 0 None;
        Loop.Emitted (RequestHandler.Ratelimited (JS.of_Z 5100) JS.PInf "GET"
                        "UnknownHash(/channels/1/messages)" "/channels/1/messages" "1");
        Loop.Issued 3 0 None;
        Loop.Emitted (RequestHandler.Debug429 "/guilds/2" (JS.of_Z 60100));
        Loop.Issued 2 0 (Some 1%nat)]
  /\ Manager.globalTimeout (Loop.manager world_after_reset) = Some 1%nat
  /\ Loop.timers world_after_reset !! 1%nat = Some 61100
  /\ 1%nat ∉ Loop.resolved world_after_reset.
Proof.
  repeat split; try (vm_compute; reflexivity).
  vm_compute. intros H. discriminate H.
Qed.

(** What the protocol does give: a request that reaches line 85 while a
    global timeout is pending stays there until the timer has fired. *)
Example request_waits_for_global_timeout :
  Manager.globalTimeout (Loop.manager world_global_pending) = Some 0%nat
  /\ Loop.step Sample.pkg (Loop.Resume 2 0 0) world_at_global = None
  /\ Loop.log world_after_global
     = [Loop.Issued 1 0 None;
        Loop.Emitted (RequestHandler.Debug429 "/guilds/2" (JS.of_Z 102));
        Loop.Issued 2 0 None].
Proof.
  repeat split; vm_compute; reflexivity.
Qed.

(** C2, as the specification states it, fails: the second request is sent
    while the global timeout set by the third request's response is still
    pending. *)
Lemma fetch_under_global_timeout_counterexample :
  ~ (forall pkg m schedule w,
       Loop.run pkg schedule (Loop.initial m) = Some w -> never_under_global w).
Proof.
  intros H.
  assert (Hrun : Loop.run Sample.pkg (before_reset ++ [Loop.Resume 2 0 0])
                   (Loop.initial Sample.manager) = Some world_after_reset)
    by (vm_compute; reflexivity).
  specialize (H _ _ _ _ Hrun 2%nat 0 (Some 1%nat)).
  assert (Hin : In (Loop.Issued 2 0 (Some 1%nat)) (Loop.log world_after_reset))
    by (vm_compute; tauto).
  specialize (H Hin). discriminate H.
Qed.

Lemma fetch_after_global_wait_witness :
  exists t1,
    Loop.tasks world_global_pending !! 2%nat = Some t1
    /\ (exists h rest,
          Manager.queues (Loop.manager world_global_pending) !! Loop.on t1 = Some h
          /\ Handler.asyncQueue h = 2%nat :: rest)
    /\ Loop.tasks world_at_global !! 2%nat
       = Some (Loop.move
                 (Loop.AwaitGlobal (Manager.globalTimeout (Loop.manager world_global_pending)))
                 t1)
    /\ Loop.log world_at_global = Loop.log world_global_pending
    /\ (exists t3, Loop.tasks world_global_over !! 2%nat = Some t3
                   /\ Loop.at_point t3 <> Loop.AwaitQueue
                   /\ forall g', Loop.at_point t3 = Loop.AwaitGlobal g' ->
                                 g' = Manager.globalTimeout (Loop.manager world_global_pending))
    /\ exists entries,
         Loop.log world_after_global = (Loop.log world_global_over ++ entries)%list
         /\ forall retries global,
              In (Loop.Issued 2 retries global) entries ->
              match Manager.globalTimeout (Loop.manager world_global_pending) with
              | None => True
              | Some p => p ∈ Loop.resolved world_global_over
              end.
Proof.
  eexists. split; [vm_compute; reflexivity |].
  eapply (fetch_after_global_wait Sample.pkg 2 0 0 world_global_pending _
            world_at_global global_over world_global_over
            (Loop.Resume 2 0 0) world_after_global).
  - vm_compute. reflexivity.
  - reflexivity.
  - vm_compute. reflexivity.
  - vm_compute. reflexivity.
  - vm_compute. reflexivity.
Defined.

Example global_timeout_awaited :
  Manager.globalTimeout (Loop.manager world_global_pending) = Some 0%nat
  /\ 0%nat ∈ Loop.resolved world_global_over
  /\ In (Loop.Issued 2 0 None) (Loop.log world_after_global).
Proof.
  split; [vm_compute; reflexivity |]. split.
  - vm_compute. reflexivity.
  - vm_compute. tauto.
Qed.


(** * Further properties of the code *)

(** ** The queue discipline of the handlers *)

Section QueueDiscipline.

Import Handler Manager RequestHandler Loop.

Variable pkg : Constants.Package.

(** What a pass leaves alone: the table of queues, the options and the
    token of the manager; the identity and the queue of the handler. *)
Lemma makeRequest_body_frame now fresh m h routeID url opts retries o :
  let p := makeRequest_body now fresh m h routeID url opts retries o in
  queues (RequestHandler.manager p) = queues m
  /\ token (RequestHandler.manager p) = token m
  /\ Manager.options (RequestHandler.manager p) = Manager.options m
  /\ Handler.id (handler p) = Handler.id h
  /\ Handler.hash (handler p) = Handler.hash h
  /\ Handler.majorParameter (handler p) = Handler.majorParameter h
  /\ asyncQueue (handler p) = asyncQueue h.
Proof.
  destruct o as [res | name]; [| cbn; repeat split].
  cbn. unfold readHeaders.
  destruct (Response.headers res) as [hs |].
  - destruct (JS.truthy (Response.get hs "X-RateLimit-Bucket") && _);
      destruct (JS.truthy (Response.get hs "X-RateLimit-Global"));
      destruct (classify _ routeID url opts retries (retryAfter_of m res) res);
      cbn; repeat split.
  - destruct (classify _ routeID url opts retries (retryAfter_of m res) res);
      cbn; repeat split.
Qed.

Lemma bucket_hash_eq m method routeID :
  (if JS.truthy (hashes m !! (method +:+ "-" +:+ REST.route routeID))
   then default "" (hashes m !! (method +:+ "-" +:+ REST.route routeID))
   else "UnknownHash(" +:+ REST.route routeID +:+ ")")
  = bucket_hash m method routeID.
Proof.
  unfold bucket_hash.
  destruct (hashes m !! (method +:+ "-" +:+ REST.route routeID)) as [[| c s] |];
    reflexivity.
Qed.

(** [queueRequest], seen from the table: the handler under the request's
    key is the one that was there, or a new one; on success the call is
    added at the back of its queue; nothing else changes. *)
Lemma queueRequest_table m boundary tid routeID request m' c :
  (forall k h, queues m !! k = Some h -> Handler.id h = k) ->
  queueRequest pkg m boundary tid routeID request = (m', c) ->
  let k := bucket_key m (REST.method request) routeID in
  exists q0,
    (queues m !! k = Some q0
     \/ (queues m !! k = None
         /\ q0 = Handler.new (bucket_hash m (REST.method request) routeID)
                   (REST.majorParameter routeID)))
    /\ Handler.id q0 = k
    /\ Manager.options m' = Manager.options m
    /\ token m' = token m
    /\ hashes m' = hashes m
    /\ globalTimeout m' = globalTimeout m
    /\ match c with
       | Throw e =>
           queues m' = <[k := q0]> (queues m)
           /\ resolveRequest pkg m boundary request = Throw e
       | Ok q =>
           queues m' = <[k := wait tid q0]> (queues m)
           /\ queued_on q = k
           /\ queued_route q = routeID
           /\ resolveRequest pkg m boundary request
              = Ok (queued_url q, queued_options q)
       end.
Proof.
  intros Hid. unfold queueRequest. rewrite bucket_hash_eq.
  intros Hq. unfold bucket_key.
  set (hash := bucket_hash m (REST.method request) routeID) in *.
  set (k := hash +:+ ":" +:+ REST.majorParameter routeID) in *.
  destruct (queues m !! k) as [q0 |] eqn:Hk.
  - exists q0. pose proof (Hid k q0 Hk) as Hq0.
    destruct (resolveRequest pkg m boundary request) as [[url opts] | e] eqn:Hr;
      injection Hq as <- <-; cbn; rewrite ?Hq0;
      repeat split; auto.
    now rewrite insert_id.
  - exists (Handler.new hash (REST.majorParameter routeID)).
    cbn [createQueue] in Hq.
    change (Handler.id (Handler.new hash (REST.majorParameter routeID))) with k in *.
    assert (Hsame : resolveRequest pkg
                      (set_queues (<[k := Handler.new hash (REST.majorParameter routeID)]>
                                     (queues m)) m) boundary request
                    = resolveRequest pkg m boundary request) by reflexivity.
    rewrite Hsame in Hq.
    destruct (resolveRequest pkg m boundary request) as [[url opts] | e] eqn:Hr;
      injection Hq as <- <-; cbn;
      repeat split; auto.
    now rewrite insert_insert_eq.
Qed.

Lemma queues_ok_same (w w' : World) :
  queues_ok w ->
  queues (Loop.manager w') = queues (Loop.manager w) ->
  tasks w' = tasks w ->
  queues_ok w'.
Proof.
  intros [Hq Hc] Hqs Hts. split.
  - intros k h. rewrite Hqs. intros Hk.
    destruct (Hq k h Hk) as (Hid & Hnd & Hmem). repeat split; auto.
    intros tid Hin. rewrite Hts. auto.
  - intros tid t. rewrite Hts. intros Ht Hs.
    destruct (Hc tid t Ht Hs) as (h & Hh & Hin & Hhead).
    exists h. rewrite Hqs. auto.
Qed.

(** One call moves on, and its handler is put back: either with the
    queue as it was, the call still in progress, or with the head of the
    queue taken off, the call settled. *)
Lemma queues_ok_update (w w' : World) tid t t' h h' :
  queues_ok w ->
  tasks w !! tid = Some t ->
  is_settled (at_point t) = false ->
  queues (Loop.manager w) !! on t = Some h ->
  queues (Loop.manager w') = <[on t := h']> (queues (Loop.manager w)) ->
  Handler.id h' = Handler.id h ->
  tasks w' = <[tid := t']> (tasks w) ->
  on t' = on t ->
  (asyncQueue h' = asyncQueue h
   /\ is_settled (at_point t') = false
   /\ (is_waiting (at_point t') = false -> head (asyncQueue h) = Some tid))
  \/ (is_waiting (at_point t) = false
      /\ asyncQueue h' = tail (asyncQueue h)
      /\ is_settled (at_point t') = true) ->
  queues_ok w'.
Proof.
  intros [Hq Hc] Ht Hs Hh Hqs Hid Hts Hon Hcase.
  destruct (Hq _ _ Hh) as (Hidh & Hnd & Hmem).
  destruct (Hc _ _ Ht Hs) as (h0 & Hh0 & Hin & Hhead).
  assert (h0 = h) as -> by congruence.
  split.
  - intros k hk. rewrite Hqs, lookup_insert. case_decide as Hk.
    + intros [= <-]. subst k.
      destruct Hcase as [(Hsame & Hs' & Hhead') | (Hw & Htail & Hs')].
      * repeat split; [congruence | now rewrite Hsame |].
        intros tid0 Hin0. rewrite Hsame in Hin0. rewrite Hts, lookup_insert.
        case_decide; [subst tid0; eauto |]. auto.
      * specialize (Hhead Hw).
        destruct (asyncQueue h) as [| x rest] eqn:Hqueue; [discriminate |].
        injection Hhead as ->. cbn in Htail.
        apply NoDup_cons in Hnd. destruct Hnd as [Hnotin Hnd].
        repeat split; [congruence | now rewrite Htail |].
        intros tid0 Hin0. rewrite Htail in Hin0. rewrite Hts, lookup_insert.
        case_decide; [subst tid0; contradiction |].
        apply Hmem. now right.
    + intros Hk'. destruct (Hq _ _ Hk') as (Hidk & Hndk & Hmemk).
      repeat split; auto.
      intros tid0 Hin0. destruct (Hmemk tid0 Hin0) as (t0 & Ht0 & Hon0 & Hs0).
      rewrite Hts, lookup_insert. case_decide; [| eauto].
      subst tid0. assert (t0 = t) as -> by congruence. congruence.
  - intros tid0 t0. rewrite Hts, lookup_insert. case_decide as Htid.
    + intros [= <-]. subst tid0. intros Hs'.
      destruct Hcase as [(Hsame & _ & Hhead') | (_ & _ & Hs'')]; [| congruence].
      exists h'. rewrite Hqs, Hon, lookup_insert_eq, Hsame. auto.
    + intros Ht0 Hs0.
      destruct (Hc _ _ Ht0 Hs0) as (h1 & Hh1 & Hin1 & Hhead1).
      rewrite Hqs, lookup_insert. case_decide as Hk.
      * assert (h1 = h) as -> by congruence.
        exists h'. split; [reflexivity |].
        destruct Hcase as [(Hsame & _ & _) | (Hw & Htail & _)].
        -- rewrite Hsame. auto.
        -- specialize (Hhead Hw).
           destruct (asyncQueue h) as [| x rest] eqn:Hqueue; [discriminate |].
           injection Hhead as ->. cbn in Htail. rewrite Htail.
           apply elem_of_cons in Hin1. destruct Hin1 as [-> | Hin1]; [congruence |].
           split; [assumption |].
           intros Hw0. specialize (Hhead1 Hw0). cbn in Hhead1. congruence.
      * exists h1. auto.
Qed.

Lemma queues_ok_submit (w w' : World) tid boundary route request :
  queues_ok w ->
  submit pkg tid boundary route request w = Some w' ->
  queues_ok w'.
Proof.
  intros [Hq Hc] Hsub. unfold submit in Hsub.
  destruct (tasks w !! tid) eqn:Hfresh; [discriminate |].
  destruct (queueRequest pkg (Loop.manager w) boundary tid route request)
    as [m' c] eqn:Hqr.
  injection Hsub as <-.
  assert (Hids : forall k h, queues (Loop.manager w) !! k = Some h -> Handler.id h = k)
    by (intros k h Hk; apply (Hq k h Hk)).
  destruct (queueRequest_table _ _ _ _ _ _ _ Hids Hqr)
    as (q0 & Hq0 & Hid0 & _ & _ & _ & _ & Hc').
  set (k := bucket_key (Loop.manager w) (REST.method request) route) in *.
  assert (Hq0ok : NoDup (asyncQueue q0)
                  /\ forall tid0, tid0 ∈ asyncQueue q0 ->
                       exists t, tasks w !! tid0 = Some t /\ on t = k
                                 /\ is_settled (at_point t) = false).
  { destruct Hq0 as [Hk | [_ ->]].
    - destruct (Hq _ _ Hk) as (_ & Hnd & Hmem). auto.
    - cbn. split; [constructor |]. intros ? Hin. now apply elem_of_nil in Hin. }
  destruct Hq0ok as [Hnd0 Hmem0].
  assert (Hnotin : tid ∉ asyncQueue q0).
  { intros Hin. destruct (Hmem0 _ Hin) as (t & Ht & _). congruence. }
  destruct c as [q | e]; cbn.
  - destruct Hc' as (Hqs & Hon & _). split; cbn.
    + intros k' h'. rewrite Hqs, lookup_insert. case_decide as Hk.
      * intros [= <-]. subst k'. repeat split; [exact Hid0 | |].
        -- cbn. apply NoDup_app. repeat split; [assumption | | apply NoDup_singleton].
           intros x Hx Hx'. apply list_elem_of_singleton in Hx'. now subst x.
        -- cbn. intros tid0 Hin. apply elem_of_app in Hin.
           rewrite lookup_insert. case_decide as Htid.
           ++ subst tid0. eexists. split; [reflexivity |]. cbn. auto.
           ++ destruct Hin as [Hin | Hin]; [auto |].
              apply list_elem_of_singleton in Hin. congruence.
      * intros Hk'. destruct (Hq _ _ Hk') as (Hidk & Hndk & Hmemk).
        repeat split; auto.
        intros tid0 Hin. destruct (Hmemk _ Hin) as (t & Ht & Hont & Hst).
        cbn. rewrite lookup_insert. case_decide; [congruence | eauto].
    + unfold call_ok. cbn. intros tid0 t0. rewrite lookup_insert. case_decide as Htid.
      * intros [= <-]. cbn. intros _.
        exists (wait tid q0). rewrite Hqs, Hon, lookup_insert_eq.
        split; [reflexivity |]. split; [| discriminate].
        cbn. apply elem_of_app. right. now apply list_elem_of_singleton.
      * intros Ht0 Hs0. destruct (Hc _ _ Ht0 Hs0) as (h1 & Hh1 & Hin1 & Hhead1).
        rewrite Hqs, lookup_insert. case_decide as Hk.
        -- exists (wait tid q0). split; [reflexivity |].
           assert (q0 = h1) as ->.
           { destruct Hq0 as [Hk0 | [Hk0 _]]; congruence. }
           cbn. split; [apply elem_of_app; now left |].
           intros Hw. specialize (Hhead1 Hw).
           destruct (asyncQueue h1); [discriminate | exact Hhead1].
        -- exists h1. auto.
  - destruct Hc' as (Hqs & _). split; cbn.
    + intros k' h'. rewrite Hqs, lookup_insert. case_decide as Hk.
      * intros [= <-]. subst k'. repeat split; auto.
      * intros Hk'. apply (Hq _ _ Hk').
    + unfold call_ok. cbn. intros tid0 t0 Ht0 Hs0.
      destruct (Hc _ _ Ht0 Hs0) as (h1 & Hh1 & Hin1 & Hhead1).
      rewrite Hqs, lookup_insert. case_decide as Hk.
      * exists q0. split; [reflexivity |].
        assert (q0 = h1) as ->.
        { destruct Hq0 as [Hk0 | [Hk0 _]]; congruence. }
        auto.
      * exists h1. auto.
Qed.

Lemma queues_ok_sweep (w : World) :
  queues_ok w ->
  queues_ok {| clock := clock w; Loop.manager := sweep (clock w) (Loop.manager w);
               tasks := tasks w; timers := timers w; resolved := resolved w;
               fresh := fresh w; log := log w |}.
Proof.
  intros [Hq Hc]. split; unfold queue_ok, call_ok; cbn -[sweep].
  - intros k h. rewrite sweep_lookup.
    destruct (queues (Loop.manager w) !! k) as [h0 |] eqn:Hk; [| discriminate].
    destruct (inactive (clock w) h0); [discriminate |].
    intros [= <-]. apply (Hq _ _ Hk).
  - intros tid t Ht Hs. destruct (Hc _ _ Ht Hs) as (h & Hh & Hin & Hhead).
    exists h. split; [| auto].
    rewrite sweep_lookup, Hh.
    destruct (inactive (clock w) h) eqn:Hi; [| reflexivity].
    apply inactive_spec in Hi. destruct Hi as [Hempty _].
    unfold queue_remaining in Hempty.
    destruct (asyncQueue h); [now apply elem_of_nil in Hin | discriminate].
Qed.

Lemma queues_ok_move (w : World) tid t pt entries h :
  queues_ok w ->
  tasks w !! tid = Some t ->
  is_settled (at_point t) = false ->
  queues (Loop.manager w) !! on t = Some h ->
  is_settled pt = false ->
  (is_waiting pt = false -> head (asyncQueue h) = Some tid) ->
  queues_ok (put_task tid (move pt t) entries w).
Proof.
  intros Hinv Ht Hs Hh Hpt Hhead.
  eapply (queues_ok_update w _ tid t _ h h Hinv Ht Hs Hh).
  - cbn. symmetry. now apply insert_id.
  - reflexivity.
  - cbn. reflexivity.
  - reflexivity.
  - left. cbn. repeat split; assumption.
Qed.

Lemma holder_head (w : World) tid t h :
  queues_ok w ->
  tasks w !! tid = Some t ->
  queues (Loop.manager w) !! on t = Some h ->
  holds_queue (at_point t) = true ->
  head (asyncQueue h) = Some tid.
Proof.
  intros [_ Hc] Ht Hh Hholds. unfold holds_queue in Hholds.
  apply andb_prop in Hholds as [Hw Hs]. apply negb_true_iff in Hw, Hs.
  destruct (Hc _ _ Ht Hs) as (h0 & Hh0 & _ & Hhead).
  assert (h0 = h) as -> by congruence. auto.
Qed.

Lemma step_queues l (w w' : World) :
  queues_ok w -> step pkg l w = Some w' -> queues_ok w'.
Proof.
  intros Hinv Hstep.
  destruct l as [tid boundary route request | tid d1 d2 | tid o | p | dt |];
    cbn [step] in Hstep.
  - eapply queues_ok_submit; eauto.
  - unfold push in Hstep.
    destruct (tasks w !! tid) as [t |] eqn:Ht; [| discriminate].
    destruct (queues (Loop.manager w) !! on t) as [h |] eqn:Hh; [| discriminate].
    destruct (at_point t) as [| g | u | r | u r | c] eqn:Hat; try discriminate.
    + destruct (asyncQueue h) as [| first rest] eqn:Hqueue; [discriminate |].
      destruct (Nat.eqb_spec first tid) as [-> |]; [| discriminate].
      injection Hstep as <-.
      apply (queues_ok_move w tid t _ _ h); auto.
      * now rewrite Hat.
      * now rewrite Hqueue.
    + assert (Hhead : head (asyncQueue h) = Some tid)
        by (eapply holder_head; eauto; now rewrite Hat).
      destruct (awaited_done w g); [| discriminate].
      destruct (limited (clock w) h).
      * destruct ((0 <=? d1)%Z && (0 <=? d2)%Z); [| discriminate].
        injection Hstep as <-.
        eapply queues_ok_same; [| reflexivity | reflexivity].
        apply (queues_ok_move w tid t _ _ h); auto; now rewrite Hat.
      * injection Hstep as <-.
        apply (queues_ok_move w tid t _ _ h); auto; now rewrite Hat.
    + assert (Hhead : head (asyncQueue h) = Some tid)
        by (eapply holder_head; eauto; now rewrite Hat).
      destruct (due (clock w) u); [| discriminate]. injection Hstep as <-.
      apply (queues_ok_move w tid t _ _ h); auto; now rewrite Hat.
    + assert (Hhead : head (asyncQueue h) = Some tid)
        by (eapply holder_head; eauto; now rewrite Hat).
      destruct (due (clock w) u); [| discriminate]. injection Hstep as <-.
      apply (queues_ok_move w tid t _ _ h); auto; now rewrite Hat.
  - unfold settle in Hstep.
    destruct (tasks w !! tid) as [t |] eqn:Ht; [| discriminate].
    destruct (queues (Loop.manager w) !! on t) as [h |] eqn:Hh; [| discriminate].
    destruct (at_point t) as [| g | until | r | until r | c] eqn:Hat; try discriminate.
    assert (Hhead : head (asyncQueue h) = Some tid)
      by (eapply holder_head; eauto; now rewrite Hat).
    assert (Hs : is_settled (at_point t) = false) by now rewrite Hat.
    pose proof (makeRequest_body_frame (clock w) (fresh w) (Loop.manager w) h
                  (Loop.routeID t) (Loop.url t) (Loop.options t) r o) as Hframe.
    cbv zeta in Hframe. destruct Hframe as (Hqs & _ & _ & Hid & _ & _ & Hqueue).
    injection Hstep as <-.
    destruct (next (makeRequest_body (clock w) (fresh w) (Loop.manager w) h
                      (Loop.routeID t) (Loop.url t) (Loop.options t) r o))
      as [v | e | [delay |] r'].
    + eapply (queues_ok_update w _ tid t _ h _ Hinv Ht Hs Hh).
      * cbn. now rewrite Hqs.
      * cbn. exact Hid.
      * cbn. reflexivity.
      * reflexivity.
      * right. rewrite Hat. cbn. rewrite Hqueue. repeat split.
    + eapply (queues_ok_update w _ tid t _ h _ Hinv Ht Hs Hh).
      * cbn. now rewrite Hqs.
      * cbn. exact Hid.
      * cbn. reflexivity.
      * reflexivity.
      * right. rewrite Hat. cbn. rewrite Hqueue. repeat split.
    + eapply (queues_ok_update w _ tid t _ h _ Hinv Ht Hs Hh).
      * cbn. now rewrite Hqs.
      * exact Hid.
      * cbn. reflexivity.
      * reflexivity.
      * left. repeat split; auto.
    + eapply (queues_ok_update w _ tid t _ h _ Hinv Ht Hs Hh).
      * cbn. now rewrite Hqs.
      * exact Hid.
      * cbn. reflexivity.
      * reflexivity.
      * left. repeat split; auto.
  - unfold fire in Hstep.
    destruct (timers w !! p) as [until |]; [| discriminate].
    destruct (due (clock w) until); [| discriminate].
    injection Hstep as <-. eapply queues_ok_same; eauto.
  - destruct (0 <? dt)%Z; [| discriminate]. injection Hstep as <-.
    eapply queues_ok_same; eauto.
  - injection Hstep as <-. now apply queues_ok_sweep.
Qed.

Lemma run_queues schedule :
  forall w w', queues_ok w -> run pkg schedule w = Some w' -> queues_ok w'.
Proof.
  induction schedule as [| l schedule IH]; intros w w' Hinv Hrun; cbn in Hrun.
  - now injection Hrun as <-.
  - destruct (step pkg l w) as [w1 |] eqn:Hstep; [| discriminate].
    eapply IH; [| exact Hrun]. eapply step_queues; eauto.
Qed.

Lemma initial_queues m : idle m -> queues_ok (initial m).
Proof.
  intros Hidle. split; cbn.
  - intros k h Hk. destruct (Hidle k h Hk) as [Hid Hempty].
    repeat split; [assumption | rewrite Hempty; constructor |].
    rewrite Hempty. intros tid Hin. now apply elem_of_nil in Hin.
  - intros tid t. rewrite lookup_empty. discriminate.
Qed.

Lemma reachable_queues m schedule w :
  idle m -> run pkg schedule (initial m) = Some w -> queues_ok w.
Proof. intros Hidle. apply run_queues. now apply initial_queues. Qed.

End QueueDiscipline.

(** ** The queue discipline, in every world the event loop can reach *)

Section QueueProperties.

Import Handler Manager RequestHandler Loop.

Variable pkg : Constants.Package.

(** X1. Mutual exclusion on a bucket: in every world reached from a
    manager nothing was queued on, by any schedule of submissions,
    resumptions, responses, timers and sweeps, at most one call of a
    handler is between [asyncQueue.wait()] and the [finally] block of
    [push]; two calls on the same handler that both hold the queue are
    the same call. *)
Theorem one_call_holds_queue m schedule w tid1 tid2 t1 t2 :
  idle m ->
  run pkg schedule (initial m) = Some w ->
  tasks w !! tid1 = Some t1 ->
  tasks w !! tid2 = Some t2 ->
  on t1 = on t2 ->
  holds_queue (at_point t1) = true ->
  holds_queue (at_point t2) = true ->
  tid1 = tid2.
Proof.
  intros Hidle Hrun Ht1 Ht2 Hon H1 H2.
  pose proof (reachable_queues pkg m schedule w Hidle Hrun) as Hinv.
  assert (Hs : is_settled (at_point t1) = false).
  { unfold holds_queue in H1. apply andb_prop in H1 as [_ Hs].
    now apply negb_true_iff in Hs. }
  destruct (proj2 Hinv _ _ Ht1 Hs) as (h & Hh & _ & _).
  pose proof (holder_head w tid1 t1 h Hinv Ht1 Hh H1) as Hhead1.
  rewrite Hon in Hh.
  pose proof (holder_head w tid2 t2 h Hinv Ht2 Hh H2) as Hhead2.
  congruence.
Qed.

(** X2. What a queue holds: in every reachable world the queue of a
    handler lists, each exactly once, the calls made on it that have not
    returned or thrown yet; a call that has settled is in no queue (the
    [finally] block of [push] has released it), and a call in progress
    is never missing from its handler's queue. *)
Theorem queue_lists_calls_in_progress m schedule w k h :
  idle m ->
  run pkg schedule (initial m) = Some w ->
  queues (Loop.manager w) !! k = Some h ->
  NoDup (asyncQueue h)
  /\ forall tid,
       tid ∈ asyncQueue h
       <-> exists t, tasks w !! tid = Some t /\ on t = k
                     /\ is_settled (at_point t) = false.
Proof.
  intros Hidle Hrun Hk.
  pose proof (reachable_queues pkg m schedule w Hidle Hrun) as [Hq Hc].
  destruct (Hq _ _ Hk) as (_ & Hnd & Hmem).
  split; [exact Hnd |]. intros tid. split; [apply Hmem |].
  intros (t & Ht & Hon & Hs).
  destruct (Hc _ _ Ht Hs) as (h0 & Hh0 & Hin & _).
  rewrite Hon in Hh0. congruence.
Qed.

(** X3. The handler of a call in progress is never lost: in every
    reachable world, whatever sweeps and bucket-hash updates happened
    since the call was queued, the table still holds a handler under the
    key the call was queued on, and that handler's [id] is that key. *)
Theorem handler_of_call_kept m schedule w tid t :
  idle m ->
  run pkg schedule (initial m) = Some w ->
  tasks w !! tid = Some t ->
  is_settled (at_point t) = false ->
  exists h, queues (Loop.manager w) !! on t = Some h
            /\ Handler.id h = on t
            /\ inactive (clock w) h = false.
Proof.
  intros Hidle Hrun Ht Hs.
  pose proof (reachable_queues pkg m schedule w Hidle Hrun) as [Hq Hc].
  destruct (Hc _ _ Ht Hs) as (h & Hh & Hin & _).
  exists h. split; [exact Hh |]. split; [apply (Hq _ _ Hh) |].
  unfold inactive, queue_remaining.
  destruct (asyncQueue h) as [| x rest]; [| reflexivity].
  now apply elem_of_nil in Hin.
Qed.

(** X4. No lost wake-up: in every reachable world a non-empty queue is
    led by a call that either holds the queue or waits for it and can be
    resumed at once (the step [Resume] is enabled); every call behind
    the head waits at [asyncQueue.wait()]. *)
Theorem queue_head_progress m schedule w k h first rest :
  idle m ->
  run pkg schedule (initial m) = Some w ->
  queues (Loop.manager w) !! k = Some h ->
  asyncQueue h = first :: rest ->
  (exists t, tasks w !! first = Some t /\ on t = k
             /\ (holds_queue (at_point t) = true
                 \/ (at_point t = AwaitQueue
                     /\ forall emitting reading,
                          exists w', step pkg (Resume first emitting reading) w = Some w')))
  /\ forall tid, tid ∈ rest ->
       exists t, tasks w !! tid = Some t /\ on t = k /\ at_point t = AwaitQueue.
Proof.
  intros Hidle Hrun Hk Hqueue.
  pose proof (reachable_queues pkg m schedule w Hidle Hrun) as [Hq Hc].
  destruct (Hq _ _ Hk) as (_ & Hnd & Hmem).
  rewrite Hqueue in Hnd, Hmem. apply NoDup_cons in Hnd as [Hfirst _].
  split.
  - destruct (Hmem first) as (t & Ht & Hon & Hs); [left |].
    exists t. split; [exact Ht |]. split; [exact Hon |].
    destruct (at_point t) eqn:Hat; try discriminate;
      try (left; reflexivity).
    right. split; [reflexivity |]. intros emitting reading.
    cbn [step]. unfold push. rewrite Ht, Hon, Hk, Hat, Hqueue.
    rewrite Nat.eqb_refl. eauto.
  - intros tid Hin.
    destruct (Hmem tid) as (t & Ht & Hon & Hs); [now right |].
    exists t. split; [exact Ht |]. split; [exact Hon |].
    destruct (Hc _ _ Ht Hs) as (h0 & Hh0 & _ & Hhead).
    rewrite Hon in Hh0. assert (h0 = h) as -> by congruence.
    rewrite Hqueue in Hhead. cbn in Hhead.
    destruct (at_point t); try reflexivity;
      (specialize (Hhead eq_refl); injection Hhead as ->; contradiction).
Qed.

(** X5. First in, first out: a step of the event loop from a reachable
    world changes the queue found under a key in one of two ways only:
    the submission of call [tid] appends [tid] at the back, and the
    response that settles call [tid] removes [tid] from the front.
    Resumptions, timers, clock ticks, retries and sweeps leave every
    queue as it is (a swept handler had an empty queue). *)
Theorem queue_fifo_step m schedule w l w' k :
  idle m ->
  run pkg schedule (initial m) = Some w ->
  step pkg l w = Some w' ->
  queue_at (Loop.manager w') k = queue_at (Loop.manager w) k
  \/ (exists tid boundary route request,
        l = Submit tid boundary route request
        /\ queue_at (Loop.manager w') k = (queue_at (Loop.manager w) k ++ [tid])%list)
  \/ (exists tid o,
        l = Respond tid o
        /\ queue_at (Loop.manager w) k = tid :: queue_at (Loop.manager w') k).
Proof.
  intros Hidle Hrun Hstep.
  pose proof (reachable_queues pkg m schedule w Hidle Hrun) as Hinv.
  destruct l as [tid boundary route request | tid d1 d2 | tid o | p | dt |];
    cbn [step] in Hstep.
  - unfold submit in Hstep.
    destruct (tasks w !! tid) eqn:Hfresh; [discriminate |].
    destruct (queueRequest pkg (Loop.manager w) boundary tid route request)
      as [m' c] eqn:Hqr.
    injection Hstep as <-. cbn.
    assert (Hids : forall k h, queues (Loop.manager w) !! k = Some h -> Handler.id h = k)
      by (intros k0 h Hk; apply (proj1 Hinv k0 h Hk)).
    destruct (queueRequest_table pkg _ _ _ _ _ _ _ Hids Hqr)
      as (q0 & Hq0 & _ & _ & _ & _ & _ & Hc).
    set (key := bucket_key (Loop.manager w) (REST.method request) route) in *.
    assert (Hat : queue_at (Loop.manager w) key = asyncQueue q0).
    { unfold queue_at. destruct Hq0 as [-> | [-> ->]]; reflexivity. }
    destruct c as [q | e].
    + destruct Hc as (Hqs & _). unfold queue_at at 1 3. rewrite Hqs, lookup_insert.
      case_decide as Hk.
      * subst k. right. left. exists tid, boundary, route, request.
        split; [reflexivity |]. fold (queue_at (Loop.manager w) key).
        rewrite Hat. reflexivity.
      * left. reflexivity.
    + destruct Hc as (Hqs & _). unfold queue_at at 1. rewrite Hqs, lookup_insert.
      case_decide as Hk.
      * subst k. left. now rewrite Hat.
      * left. reflexivity.
  - left. unfold push in Hstep.
    destruct (tasks w !! tid) as [t |]; [| discriminate].
    destruct (queues (Loop.manager w) !! on t) as [h |]; [| discriminate].
    destruct (at_point t); try discriminate.
    + destruct (asyncQueue h) as [| first rest]; [discriminate |].
      destruct (first =? tid)%nat; [| discriminate]. now injection Hstep as <-.
    + destruct (awaited_done w g); [| discriminate].
      destruct (limited (clock w) h); [| now injection Hstep as <-].
      destruct ((0 <=? d1)%Z && (0 <=? d2)%Z); [| discriminate].
      now injection Hstep as <-.
    + destruct (due (clock w) until); [| discriminate]. now injection Hstep as <-.
    + destruct (due (clock w) until); [| discriminate]. now injection Hstep as <-.
  - unfold settle in Hstep.
    destruct (tasks w !! tid) as [t |] eqn:Ht; [| discriminate].
    destruct (queues (Loop.manager w) !! on t) as [h |] eqn:Hh; [| discriminate].
    destruct (at_point t) as [| g | until | r | until r | c] eqn:Hat; try discriminate.
    assert (Hhead : head (asyncQueue h) = Some tid)
      by (eapply holder_head; eauto; now rewrite Hat).
    pose proof (makeRequest_body_frame (clock w) (fresh w) (Loop.manager w) h
                  (Loop.routeID t) (Loop.url t) (Loop.options t) r o) as Hframe.
    cbv zeta in Hframe. destruct Hframe as (Hqs & _ & _ & _ & _ & _ & Hqueue).
    injection Hstep as <-.
    assert (Hother : on t <> k ->
              forall h', queue_at (set_queues (<[on t := h']>
                           (queues (RequestHandler.manager
                              (makeRequest_body (clock w) (fresh w) (Loop.manager w) h
                                 (Loop.routeID t) (Loop.url t) (Loop.options t) r o))))
                           (RequestHandler.manager
                              (makeRequest_body (clock w) (fresh w) (Loop.manager w) h
                                 (Loop.routeID t) (Loop.url t) (Loop.options t) r o))) k
                         = queue_at (Loop.manager w) k).
    { intros Hk h'. unfold queue_at. cbn. rewrite Hqs, lookup_insert.
      case_decide; [contradiction | reflexivity]. }
    assert (Hhere : forall h', queue_at (set_queues (<[on t := h']>
                           (queues (RequestHandler.manager
                              (makeRequest_body (clock w) (fresh w) (Loop.manager w) h
                                 (Loop.routeID t) (Loop.url t) (Loop.options t) r o))))
                           (RequestHandler.manager
                              (makeRequest_body (clock w) (fresh w) (Loop.manager w) h
                                 (Loop.routeID t) (Loop.url t) (Loop.options t) r o)))
                           (on t)
                         = asyncQueue h').
    { intros h'. unfold queue_at. cbn. rewrite lookup_insert.
      case_decide; [reflexivity | contradiction]. }
    destruct (decide (on t = k)) as [Hk | Hk].
    + subst k.
      assert (Hnow : queue_at (Loop.manager w) (on t) = asyncQueue h)
        by (unfold queue_at; now rewrite Hh).
      destruct (next (makeRequest_body (clock w) (fresh w) (Loop.manager w) h
                        (Loop.routeID t) (Loop.url t) (Loop.options t) r o))
        as [v | e | [delay |] r']; cbn [Loop.manager]; rewrite Hhere, Hnow.
      * right. right. exists tid, o. split; [reflexivity |]. cbn. rewrite Hqueue.
        destruct (asyncQueue h); [discriminate |]. now injection Hhead as ->.
      * right. right. exists tid, o. split; [reflexivity |]. cbn. rewrite Hqueue.
        destruct (asyncQueue h); [discriminate |]. now injection Hhead as ->.
      * left. exact Hqueue.
      * left. exact Hqueue.
    + left.
      destruct (next (makeRequest_body (clock w) (fresh w) (Loop.manager w) h
                        (Loop.routeID t) (Loop.url t) (Loop.options t) r o))
        as [v | e | [delay |] r']; cbn [Loop.manager]; now apply Hother.
  - left. unfold fire in Hstep.
    destruct (timers w !! p) as [until |]; [| discriminate].
    destruct (due (clock w) until); [| discriminate].
    now injection Hstep as <-.
  - left. destruct (0 <? dt)%Z; [| discriminate]. now injection Hstep as <-.
  - left. injection Hstep as <-. unfold queue_at. cbn -[sweep].
    rewrite sweep_lookup.
    destruct (queues (Loop.manager w) !! k) as [h |]; [| reflexivity].
    destruct (inactive (clock w) h) eqn:Hi; [| reflexivity].
    apply inactive_spec in Hi as [Hz _]. unfold queue_remaining in Hz.
    destruct (asyncQueue h); [reflexivity | discriminate].
Qed.

End QueueProperties.

Lemma one_call_holds_queue_witness :
  exists t, Loop.tasks world_two_on_messages !! 1%nat = Some t
            /\ holds_queue (Loop.at_point t) = true
            /\ 1%nat = 1%nat.
Proof.
  eexists. split; [vm_compute; reflexivity |]. split; [vm_compute; reflexivity |].
  eapply (one_call_holds_queue Sample.pkg Sample.manager two_on_messages
            world_two_on_messages 1 1).
  - intros k h Hk. vm_compute in Hk. discriminate Hk.
  - vm_compute. reflexivity.
  - vm_compute. reflexivity.
  - vm_compute. reflexivity.
  - reflexivity.
  - vm_compute. reflexivity.
  - vm_compute. reflexivity.
Defined.

Lemma queue_lists_calls_in_progress_witness :
  NoDup (Handler.asyncQueue messages_handler)
  /\ forall tid,
       tid ∈ Handler.asyncQueue messages_handler
       <-> exists t, Loop.tasks world_two_on_messages !! tid = Some t
                     /\ Loop.on t = messages_key
                     /\ is_settled (Loop.at_point t) = false.
Proof.
  apply (queue_lists_calls_in_progress Sample.pkg Sample.manager two_on_messages
           world_two_on_messages messages_key messages_handler).
  - intros k h Hk. vm_compute in Hk. discriminate Hk.
  - vm_compute. reflexivity.
  - vm_compute. reflexivity.
Defined.

Lemma handler_of_call_kept_witness :
  exists t, Loop.tasks world_two_on_messages !! 2%nat = Some t
            /\ exists h,
                 Manager.queues (Loop.manager world_two_on_messages) !! Loop.on t = Some h
                 /\ Handler.id h = Loop.on t
                 /\ Handler.inactive (Loop.clock world_two_on_messages) h = false.
Proof.
  eexists. split; [vm_compute; reflexivity |].
  eapply (handler_of_call_kept Sample.pkg Sample.manager two_on_messages
            world_two_on_messages 2).
  - intros k h Hk. vm_compute in Hk. discriminate Hk.
  - vm_compute. reflexivity.
  - vm_compute. reflexivity.
  - reflexivity.
Defined.

Lemma queue_head_progress_witness :
  (exists t, Loop.tasks world_two_on_messages !! 1%nat = Some t
             /\ Loop.on t = messages_key
             /\ (holds_queue (Loop.at_point t) = true
                 \/ (Loop.at_point t = Loop.AwaitQueue
                     /\ forall emitting reading,
                          exists w', Loop.step Sample.pkg (Loop.Resume 1 emitting reading)
                                       world_two_on_messages
                                     = Some w')))
  /\ forall tid, tid ∈ [2%nat] ->
       exists t, Loop.tasks world_two_on_messages !! tid = Some t
                 /\ Loop.on t = messages_key /\ Loop.at_point t = Loop.AwaitQueue.
Proof.
  apply (queue_head_progress Sample.pkg Sample.manager two_on_messages
           world_two_on_messages messages_key messages_handler 1 [2%nat]).
  - intros k h Hk. vm_compute in Hk. discriminate Hk.
  - vm_compute. reflexivity.
  - vm_compute. reflexivity.
  - vm_compute. reflexivity.
Defined.

Lemma queue_fifo_step_witness :
  queue_at (Loop.manager world_first_settled) messages_key
  = queue_at (Loop.manager world_two_on_messages) messages_key
  \/ (exists tid boundary route request,
        Loop.Respond 1 (Response.Responded cold_200)
        = Loop.Submit tid boundary route request
        /\ queue_at (Loop.manager world_first_settled) messages_key
           = (queue_at (Loop.manager world_two_on_messages) messages_key ++ [tid])%list)
  \/ (exists tid o,
        Loop.Respond 1 (Response.Responded cold_200) = Loop.Respond tid o
        /\ queue_at (Loop.manager world_two_on_messages) messages_key
           = tid :: queue_at (Loop.manager world_first_settled) messages_key).
Proof.
  apply (queue_fifo_step Sample.pkg Sample.manager two_on_messages
           world_two_on_messages (Loop.Respond 1 (Response.Responded cold_200))
           world_first_settled messages_key).
  - intros k h Hk. vm_compute in Hk. discriminate Hk.
  - vm_compute. reflexivity.
  - vm_compute. reflexivity.
Defined.

Example queue_hand_over :
  queue_at (Loop.manager world_two_on_messages) messages_key = [1%nat; 2%nat]
  /\ queue_at (Loop.manager world_first_settled) messages_key = [2%nat].
Proof. split; vm_compute; reflexivity. Qed.

(** ** Buckets: learned hashes and the handler a request is queued on *)

Section BucketProperties.

Import Handler Manager RequestHandler.

Variable pkg : Constants.Package.

Lemma makeRequest_body_hashes now fresh m h routeID url opts retries res hs :
  Response.headers res = Some hs ->
  hashes (manager (makeRequest_body now fresh m h routeID url opts retries
                     (Response.Responded res)))
  = if JS.truthy (Response.get hs "X-RateLimit-Bucket")
       && negb (String.eqb (default "" (Response.get hs "X-RateLimit-Bucket"))
                           (Handler.hash h))
    then <[route_key (Fetch.method opts) routeID
           := default "" (Response.get hs "X-RateLimit-Bucket")]> (hashes m)
    else hashes m.
Proof.
  intros Hhs. unfold makeRequest_body, readHeaders, route_key. rewrite Hhs.
  destruct (JS.truthy (Response.get hs "X-RateLimit-Bucket") && _);
    destruct (JS.truthy (Response.get hs "X-RateLimit-Global"));
    destruct (classify _ routeID url opts retries (retryAfter_of m res) res);
    reflexivity.
Qed.

Lemma bucket_key_other m m' method routeID :
  hashes m' !! route_key method routeID = hashes m !! route_key method routeID ->
  bucket_key m' method routeID = bucket_key m method routeID.
Proof.
  unfold bucket_key, bucket_hash, route_key. now intros ->.
Qed.

(** X6. A learned hash re-routes the route: when a response carries an
    [X-RateLimit-Bucket] value that is not empty and differs from the
    hash of the handler that made the request, the next [queueRequest]
    of a request with the same method on the same route is queued under
    [<new hash>:<major parameter>], on a handler that is in the table
    afterwards; requests of every other method and route keep the key
    they had. *)
Theorem hash_update_reroutes now fresh m h routeID url opts retries res hs newhash
        boundary tid request :
  (forall k q, queues m !! k = Some q -> Handler.id q = k) ->
  Response.headers res = Some hs ->
  Response.get hs "X-RateLimit-Bucket" = Some newhash ->
  newhash <> "" ->
  newhash <> Handler.hash h ->
  REST.method request = Fetch.method opts ->
  let p := makeRequest_body now fresh m h routeID url opts retries
             (Response.Responded res) in
  let key := newhash +:+ ":" +:+ REST.majorParameter routeID in
  (exists m' c,
      queueRequest pkg (manager p) boundary tid routeID request = (m', c)
      /\ (exists q0, queues m' !! key = Some q0 /\ Handler.id q0 = key)
      /\ forall q, c = Ok q -> queued_on q = key /\ tid ∈ queue_at m' key)
  /\ forall method' routeID',
       route_key method' routeID' <> route_key (Fetch.method opts) routeID ->
       bucket_key (manager p) method' routeID' = bucket_key m method' routeID'.
Proof.
  intros Hids Hhs Hget Hne Hdiff Hmethod p key.
  assert (Hhashes : hashes (manager p)
                    = <[route_key (Fetch.method opts) routeID := newhash]> (hashes m)).
  { unfold p. rewrite (makeRequest_body_hashes _ _ _ _ _ _ _ _ _ hs Hhs), Hget.
    rewrite truthy_nonempty by assumption. cbn.
    destruct (String.eqb_spec newhash (Handler.hash h)); [contradiction | reflexivity]. }
  split.
  - assert (Hkey : bucket_key (manager p) (REST.method request) routeID = key).
    { unfold bucket_key, bucket_hash. fold (route_key (REST.method request) routeID).
      rewrite Hmethod, Hhashes, lookup_insert_eq.
      destruct newhash; [contradiction | reflexivity]. }
    assert (Hids' : forall k q, queues (manager p) !! k = Some q -> Handler.id q = k).
    { intros k q. unfold p.
      pose proof (makeRequest_body_frame now fresh m h routeID url opts retries
                    (Response.Responded res)) as Hframe.
      cbv zeta in Hframe. destruct Hframe as (-> & _). apply Hids. }
    destruct (queueRequest pkg (manager p) boundary tid routeID request)
      as [m' c] eqn:Hqr.
    exists m', c. split; [reflexivity |].
    destruct (queueRequest_table pkg _ _ _ _ _ _ _ Hids' Hqr)
      as (q0 & _ & Hid0 & _ & _ & _ & _ & Hc).
    rewrite Hkey in Hc, Hid0. destruct c as [q | e].
    + destruct Hc as (Hqs & Hon & _). split.
      * exists (wait tid q0). rewrite Hqs, lookup_insert_eq. auto.
      * intros q' [= <-]. split; [exact Hon |].
        unfold queue_at. rewrite Hqs, lookup_insert_eq. cbn.
        apply elem_of_app. right. now left.
    + destruct Hc as (Hqs & _). split.
      * exists q0. rewrite Hqs, lookup_insert_eq. auto.
      * intros q' [=].
  - intros method' routeID' Hother. apply bucket_key_other.
    rewrite Hhashes. now apply lookup_insert_ne.
Qed.

Lemma makeRequest_body_global now fresh m h routeID url opts retries o :
  let p := makeRequest_body now fresh m h routeID url opts retries o in
  globalTimeout (manager p) = globalTimeout m /\ timer p = None
  \/ globalTimeout (manager p) = Some fresh
     /\ exists delay, timer p = Some (fresh, delay).
Proof.
  destruct o as [res | name]; [| left; split; reflexivity].
  unfold makeRequest_body, readHeaders.
  destruct (Response.headers res) as [hs |].
  - destruct (JS.truthy (Response.get hs "X-RateLimit-Bucket") && _);
      destruct (JS.truthy (Response.get hs "X-RateLimit-Global"));
      destruct (classify _ routeID url opts retries (retryAfter_of m res) res);
      cbn; first [left; split; reflexivity | right; split; [reflexivity | eauto]].
  - destruct (classify _ routeID url opts retries (retryAfter_of m res) res).
    left. split; reflexivity.
Qed.

(** X7. What a response cannot do: whatever the outcome of [fetch],
    one pass of [makeRequest] leaves the table of queues, the token and
    the options alone, keeps the handler's [id], [hash], major parameter
    and queue, changes the table of learned hashes under the key of its
    own method and route at most, and leaves [globalTimeout] as it was
    or sets it to the promise it has just created. *)
Theorem makeRequest_body_confined now fresh m h routeID url opts retries o :
  let p := makeRequest_body now fresh m h routeID url opts retries o in
  queues (manager p) = queues m
  /\ token (manager p) = token m
  /\ Manager.options (manager p) = Manager.options m
  /\ Handler.id (handler p) = Handler.id h
  /\ Handler.hash (handler p) = Handler.hash h
  /\ Handler.majorParameter (handler p) = Handler.majorParameter h
  /\ asyncQueue (handler p) = asyncQueue h
  /\ (forall k, k <> route_key (Fetch.method opts) routeID ->
                hashes (manager p) !! k = hashes m !! k)
  /\ (globalTimeout (manager p) = globalTimeout m /\ timer p = None
      \/ globalTimeout (manager p) = Some fresh
         /\ exists delay, timer p = Some (fresh, delay)).
Proof.
  intros p.
  pose proof (makeRequest_body_frame now fresh m h routeID url opts retries o) as Hframe.
  cbv zeta in Hframe. fold p in Hframe.
  destruct Hframe as (H1 & H2 & H3 & H4 & H5 & H6 & H7).
  repeat (split; [assumption |]).
  split; [| apply makeRequest_body_global].
  intros k Hk. destruct o as [res | name]; [| reflexivity].
  unfold p. destruct (Response.headers res) as [hs |] eqn:Hhs.
  - rewrite (makeRequest_body_hashes _ _ _ _ _ _ _ _ _ hs Hhs).
    destruct (JS.truthy (Response.get hs "X-RateLimit-Bucket") && _);
      [now rewrite lookup_insert_ne | reflexivity].
  - unfold makeRequest_body, readHeaders. rewrite Hhs.
    now destruct (classify _ routeID url opts retries (retryAfter_of m res) res).
Qed.

End BucketProperties.

(** ** How many times a call is sent *)

Section SendCount.

Import Handler Manager RequestHandler.

Variables (routeID : REST.RouteIdentifier) (url : string) (opts : Fetch.RequestInit).

Lemma next_Again_inv now fresh m h r o delay r' :
  next (makeRequest_body now fresh m h routeID url opts r o) = Again delay r' ->
  (is_429b (now, o) = true /\ r' = r)
  \/ (is_429b (now, o) = false /\ r' = r + 1 /\ r <> retries (options m)).
Proof.
  destruct o as [res | name].
  - rewrite makeRequest_body_next. unfold classify, is_429b. cbn [snd].
    destruct (Response.ok res).
    + cbn. destruct (parseResponse res); discriminate.
    + destruct (Z.eqb_spec (Response.status res) 429) as [H429 | H429].
      * cbn. intros [= _ <-]. left. auto.
      * destruct ((500 <=? Response.status res) && (Response.status res <? 600))%Z.
        -- cbn.
           destruct (Z.eqb_spec r (retries (options m))); cbn; [discriminate |].
           intros [= _ <-]. right. auto.
        -- destruct ((400 <=? Response.status res) && (Response.status res <? 500))%Z;
             cbn; [| discriminate].
           destruct (parseResponse res) as [d | e]; [| discriminate].
           destruct (property d "message"); [| discriminate].
           destruct (property d "code"); discriminate.
  - cbn. destruct (String.eqb name "AbortError"); cbn; [| discriminate].
    destruct (Z.eqb_spec r (retries (options m))); cbn; [discriminate |].
    intros [= _ <-]. right. auto.
Qed.

Lemma counters_cons from n :
  counters from (S n) = from :: counters (from + 1) n.
Proof.
  unfold counters. cbn [seq List.map]. rewrite Z.add_0_r. f_equal.
  rewrite <- seq_shift, List.map_map. apply List.map_ext. intros i. lia.
Qed.

(** X8. The number of calls of [fetch] one call of [makeRequest] makes
    is bounded: at most one, plus one for each retry it has left, plus
    one for each 429 response it received.  Started by [push] with the
    counter at 0, that is [options.retries + 1] plus the number of 429
    responses. *)
Theorem fetch_count_bound script :
  forall fresh m h r,
    r <= retries (options m) ->
    (length (sends (makeRequest script fresh m h routeID url opts r))
     <= Z.to_nat (retries (options m) - r) + 1 + count_429 script)%nat.
Proof.
  induction script as [| [now o] rest IH]; intros fresh m h r Hr.
  - cbn. lia.
  - cbn [makeRequest].
    destruct (next (makeRequest_body now fresh m h routeID url opts r o))
      as [v | e | delay r'] eqn:Hnext; cbn [sends length]; [lia | lia |].
    pose proof (makeRequest_body_options now fresh m h routeID url opts r o) as Hopts.
    destruct (next_Again_inv _ _ _ _ _ _ _ _ Hnext) as [[H429 ->] | (H429 & -> & Hne)].
    + specialize (IH (S fresh) _ (handler (makeRequest_body now fresh m h routeID url
                                             opts r o)) r
                     ltac:(rewrite Hopts; exact Hr)).
      rewrite Hopts in IH. unfold count_429 in *. cbn [List.filter].
      rewrite H429. cbn [length]. lia.
    + specialize (IH (S fresh) _ (handler (makeRequest_body now fresh m h routeID url
                                             opts r o)) (r + 1)
                     ltac:(rewrite Hopts; lia)).
      rewrite Hopts in IH. unfold count_429 in *. cbn [List.filter].
      rewrite H429. lia.
Qed.

(** X9. Retries run out: against a server that only times out or
    answers 5xx, a call with the counter at [r <= options.retries] calls
    [fetch] exactly [options.retries - r + 1] times, with the counters
    [r], [r + 1], ..., [options.retries], and then throws; it never
    returns a value and never stays unanswered once that many outcomes
    are in. *)
Theorem server_failures_exhaust_retries script :
  forall fresh m h r,
    r <= retries (options m) ->
    List.Forall (fun item => server_failure (snd item)) script ->
    (Z.to_nat (retries (options m) - r) + 1 <= length script)%nat ->
    sends (makeRequest script fresh m h routeID url opts r)
    = counters r (Z.to_nat (retries (options m) - r) + 1)
    /\ exists e, result (makeRequest script fresh m h routeID url opts r)
                 = Some (Throw e).
Proof.
  induction script as [| [now o] rest IH]; intros fresh m h r Hr Hall Hlen.
  - cbn in Hlen. lia.
  - apply List.Forall_cons_iff in Hall as [Ho Hall]. cbn [snd] in Ho.
    cbn [makeRequest].
    rewrite (failure_next routeID url opts now fresh m h r o Ho).
    destruct (Z.eqb_spec r (retries (options m))) as [-> | Hne].
    + cbn [sends result]. rewrite Z.sub_diag.
      change (Z.to_nat 0 + 1)%nat with 1%nat. unfold counters.
      cbn [seq List.map Z.of_nat]. rewrite Z.add_0_r. eauto.
    + pose proof (makeRequest_body_options now fresh m h routeID url opts r o) as Hopts.
      cbn [sends result].
      destruct (IH (S fresh) (manager (makeRequest_body now fresh m h routeID url opts r o))
                  (handler (makeRequest_body now fresh m h routeID url opts r o))
                  (r + 1)) as [Hsends Hres].
      * rewrite Hopts. lia.
      * exact Hall.
      * rewrite Hopts. cbn [length] in Hlen. lia.
      * rewrite Hopts in Hsends. split; [| exact Hres].
        rewrite Hsends.
        replace (Z.to_nat (retries (options m) - r) + 1)%nat
          with (S (Z.to_nat (retries (options m) - (r + 1)) + 1)) by lia.
        now rewrite counters_cons.
Qed.

End SendCount.

Lemma hash_update_reroutes_witness :
  let p := RequestHandler.makeRequest_body 0 0 Sample.manager fresh_messages_handler
             Sample.messages "https://discord.com/api/v7/channels/1/messages"
             plain_get 0 (Response.Responded hashed_200) in
  let key := "abcd1234" +:+ ":" +:+ REST.majorParameter Sample.messages in
  (exists m' c,
      Manager.queueRequest Sample.pkg (RequestHandler.manager p) "" 7 Sample.messages
        (Sample.get "/channels/1/messages") = (m', c)
      /\ (exists q0, Manager.queues m' !! key = Some q0 /\ Handler.id q0 = key)
      /\ forall q, c = Ok q -> Manager.queued_on q = key /\ 7%nat ∈ queue_at m' key)
  /\ forall method' routeID',
       route_key method' routeID' <> route_key (Fetch.method plain_get) Sample.messages ->
       bucket_key (RequestHandler.manager p) method' routeID'
       = bucket_key Sample.manager method' routeID'.
Proof.
  apply (hash_update_reroutes Sample.pkg 0 0 Sample.manager fresh_messages_handler
           Sample.messages "https://discord.com/api/v7/channels/1/messages"
           plain_get 0 hashed_200 (list_to_map [("x-ratelimit-bucket", "abcd1234")])
           "abcd1234" "" 7%nat (Sample.get "/channels/1/messages")).
  - intros k q Hk. vm_compute in Hk. discriminate Hk.
  - reflexivity.
  - vm_compute. reflexivity.
  - discriminate.
  - discriminate.
  - reflexivity.
Defined.

Lemma fetch_count_bound_witness :
  (length (RequestHandler.sends
             (RequestHandler.makeRequest limited_then_served 0 Sample.manager
                fresh_messages_handler Sample.messages
                "https://discord.com/api/v7/channels/1/messages" plain_get 0))
   <= Z.to_nat (Manager.retries (Manager.options Sample.manager) - 0) + 1
      + count_429 limited_then_served)%nat.
Proof.
  apply (fetch_count_bound Sample.messages
           "https://discord.com/api/v7/channels/1/messages" plain_get
           limited_then_served 0 Sample.manager fresh_messages_handler 0).
  vm_compute. discriminate.
Defined.

Lemma server_failures_exhaust_retries_witness :
  RequestHandler.sends
    (RequestHandler.makeRequest failing_twice 0 Sample.manager fresh_messages_handler
       Sample.messages "https://discord.com/api/v7/channels/1/messages" plain_get 0)
  = counters 0 (Z.to_nat (Manager.retries (Manager.options Sample.manager) - 0) + 1)
  /\ exists e,
       RequestHandler.result
         (RequestHandler.makeRequest failing_twice 0 Sample.manager fresh_messages_handler
            Sample.messages "https://discord.com/api/v7/channels/1/messages" plain_get 0)
       = Some (Throw e).
Proof.
  apply (server_failures_exhaust_retries Sample.messages
           "https://discord.com/api/v7/channels/1/messages" plain_get
           failing_twice 0 Sample.manager fresh_messages_handler 0).
  - vm_compute. discriminate.
  - apply List.Forall_cons.
    + right. eexists. split; [reflexivity |]. change (500 <= 503 < 600). lia.
    + apply List.Forall_cons; [left; reflexivity | apply List.Forall_nil].
  - vm_compute. lia.
Defined.

(** ** Integers as numbers

    The clock readings and the offset enter the arithmetic of the
    handler as numbers.  Rounding an integer to the nearest double
    keeps the order of integers. *)

Section IntegerRounding.

Local Open Scope Z_scope.

(** The number of binary digits of [p]. *)
Lemma digits2_pos_bounds p :
  2 ^ (Zpos (digits2_pos p) - 1) <= Zpos p < 2 ^ Zpos (digits2_pos p).
Proof.
  induction p as [p IH | p IH |]; cbn [digits2_pos].
  - rewrite Pos2Z.inj_succ.
    replace (Z.succ (Zpos (digits2_pos p)) - 1) with (Z.succ (Zpos (digits2_pos p) - 1)) by lia.
    rewrite !Z.pow_succ_r by lia. lia.
  - rewrite Pos2Z.inj_succ.
    replace (Z.succ (Zpos (digits2_pos p)) - 1) with (Z.succ (Zpos (digits2_pos p) - 1)) by lia.
    rewrite !Z.pow_succ_r by lia. lia.
  - cbn. lia.
Qed.

Lemma digits2_pos_unique p d :
  2 ^ (d - 1) <= Zpos p < 2 ^ d -> Zpos (digits2_pos p) = d.
Proof.
  intros [Hlo Hhi]. pose proof (digits2_pos_bounds p) as [Hlo' Hhi'].
  assert (0 < d).
  { destruct (Z.ltb_spec 0 d); [assumption |].
    assert (2 ^ d <= 2 ^ 0) by (destruct (Z.eq_dec d 0) as [-> |]; [lia |];
                               rewrite Z.pow_neg_r by lia; cbn; lia).
    cbn in *. lia. }
  destruct (Z.lt_trichotomy (Zpos (digits2_pos p)) d) as [Hlt | [Heq | Hgt]]; [| exact Heq |].
  - assert (2 ^ Zpos (digits2_pos p) <= 2 ^ (d - 1)) by (apply Z.pow_le_mono_r; lia). lia.
  - assert (2 ^ d <= 2 ^ (Zpos (digits2_pos p) - 1)) by (apply Z.pow_le_mono_r; lia). lia.
Qed.

Lemma digits2_pos_mono p q :
  (p <= q)%positive -> Zpos (digits2_pos p) <= Zpos (digits2_pos q).
Proof.
  intros Hle. pose proof (digits2_pos_bounds p) as [Hp _].
  pose proof (digits2_pos_bounds q) as [_ Hq].
  destruct (Z.le_gt_cases (Zpos (digits2_pos p)) (Zpos (digits2_pos q))); [assumption |].
  assert (2 ^ Zpos (digits2_pos q) <= 2 ^ (Zpos (digits2_pos p) - 1))
    by (apply Z.pow_le_mono_r; lia).
  lia.
Qed.

Lemma iter_pos_nat {A} (f : A -> A) n : forall x,
  SpecFloat.iter_pos f n x = Nat.iter (Pos.to_nat n) f x.
Proof.
  induction n as [n IH | n IH |]; intros x; cbn [SpecFloat.iter_pos].
  - rewrite !IH.
    replace (Pos.to_nat n~1) with (Pos.to_nat n + (Pos.to_nat n + 1))%nat by lia.
    now rewrite !Nat.iter_add.
  - rewrite !IH.
    replace (Pos.to_nat n~0) with (Pos.to_nat n + Pos.to_nat n)%nat by lia.
    now rewrite Nat.iter_add.
  - reflexivity.
Qed.

Lemma shr_1_nonneg m r s :
  0 <= m -> shr_1 {| shr_m := m; shr_r := r; shr_s := s |}
            = {| shr_m := m / 2; shr_r := Z.odd m; shr_s := r || s |}.
Proof.
  intros Hm. destruct m as [| [p | p |] | p]; try lia; cbn [shr_1].
  - reflexivity.
  - f_equal. apply Z.div_unique with 1; lia.
  - f_equal. apply Z.div_unique with 0; lia.
  - reflexivity.
Qed.

Lemma nat_iter_shr_1 m n :
  0 <= m ->
  let st := Nat.iter n shr_1 {| shr_m := m; shr_r := false; shr_s := false |} in
  shr_m st = m / 2 ^ Z.of_nat n
  /\ loc_of_shr_record st = location_of (Z.of_nat n) (m mod 2 ^ Z.of_nat n).
Proof.
  intros Hm. induction n as [| n IH].
  - cbn. rewrite Z.div_1_r, Z.mod_1_r. split; reflexivity.
  - cbn zeta in *. rewrite Nat.iter_succ.
    destruct (Nat.iter n shr_1 _) as [q r s] eqn:Hst. cbn [shr_m] in IH.
    destruct IH as [Hq Hloc].
    assert (Hq0 : 0 <= q) by (subst q; apply Z.div_pos; lia).
    rewrite (shr_1_nonneg q r s Hq0). cbn [shr_m].
    rewrite Nat2Z.inj_succ, Z.pow_succ_r by lia.
    set (P := 2 ^ Z.of_nat n) in *.
    assert (HP : 0 < P) by (apply Z.pow_pos_nonneg; lia).
    pose proof (Z.div_mod m P ltac:(lia)) as Hdm.
    pose proof (Z.mod_pos_bound m P HP) as Hrem.
    set (rem := m mod P) in *.
    pose proof (Z.div_mod q 2 ltac:(lia)) as Hq2.
    pose proof (Z.mod_pos_bound q 2 ltac:(lia)) as Hb.
    assert (Hdiv : m / (2 * P) = q / 2).
    { symmetry. apply Z.div_unique with (rem + (q mod 2) * P); nia. }
    assert (Hmod : m mod (2 * P) = rem + (q mod 2) * P).
    { symmetry. apply Z.mod_unique with (q / 2); nia. }
    split; [now rewrite Hdiv |].
    rewrite Hmod.
    assert (Hrs : r || s = negb (rem =? 0)).
    { unfold location_of in Hloc. destruct (rem =? 0); destruct r, s; cbn in Hloc;
        try reflexivity; discriminate. }
    rewrite Hrs. unfold location_of.
    replace (2 ^ Z.succ (Z.of_nat n)) with (2 * P) by (unfold P; now rewrite Z.pow_succ_r by lia).
    pose proof (Zmod_odd q) as Hodd.
    destruct (Z.odd q); rewrite Hodd.
    + rewrite Z.mul_1_l.
      destruct (Z.eqb_spec rem 0) as [Hz | Hne]; cbn [negb loc_of_shr_record];
        (destruct (Z.eqb_spec (rem + P) 0); [lia |]);
        f_equal; symmetry.
      * apply Z.compare_eq_iff. lia.
      * apply Z.compare_gt_iff. lia.
    + rewrite Z.mul_0_l, Z.add_0_r.
      destruct (Z.eqb_spec rem 0) as [Hz | Hne]; cbn [negb loc_of_shr_record];
        [reflexivity |].
      f_equal. symmetry. apply Z.compare_lt_iff. lia.
Qed.

Lemma pos_iter_xO p n : Zpos (Pos.iter xO p n) = Zpos p * 2 ^ Zpos n.
Proof.
  induction n as [| n IH] using Pos.peano_ind.
  - cbn. lia.
  - rewrite Pos.iter_succ, Pos2Z.inj_xO, IH, Pos2Z.inj_succ, Z.pow_succ_r by lia. lia.
Qed.

Lemma fexp_normal x : -1021 <= x -> fexp 53 1024 x = x - 53.
Proof. intros Hx. unfold fexp, emin. lia. Qed.

(** A mantissa of 53 digits at an exponent in range is its own rounding. *)
Lemma binary_round_aux_normal sx m e :
  Zpos (digits2_pos m) = 53 -> -1074 <= e ->
  binary_round_aux 53 1024 sx (Zpos m) e loc_Exact
  = if e <=? 971 then S754_finite sx m e else S754_infinity sx.
Proof.
  intros Hd He. unfold binary_round_aux, shr_fexp. cbn [Zdigits2 shr_record_of_loc].
  rewrite Hd, fexp_normal by lia.
  replace (53 + e - 53 - e) with 0 by lia. cbn [shr shr_m loc_of_shr_record round_nearest_even].
  cbn [Zdigits2]. rewrite Hd, fexp_normal by lia.
  replace (53 + e - 53 - e) with 0 by lia. cbn [shr shr_m].
  reflexivity.
Qed.

Lemma round_nearest_even_bounds q l : q <= round_nearest_even q l <= q + 1.
Proof.
  destruct l as [| []]; cbn; try lia. destruct (Z.even q); lia.
Qed.

Lemma rounded_bounds p :
  2 ^ 52 <= fst (rounded p) < 2 ^ 53
  /\ (snd (rounded p) = Zpos (digits2_pos p) - 53
      \/ snd (rounded p) = Zpos (digits2_pos p) - 52 /\ fst (rounded p) = 2 ^ 52).
Proof.
  unfold rounded. pose proof (digits2_pos_bounds p) as [Hlo Hhi].
  set (d := Zpos (digits2_pos p)) in *.
  destruct (Z.leb_spec d 53) as [Hd | Hd]; cbn [fst snd].
  - split; [| left; reflexivity].
    assert (Hpow : 2 ^ 52 = 2 ^ (d - 1) * 2 ^ (53 - d))
      by (rewrite <- Z.pow_add_r by lia; f_equal; lia).
    assert (Hpow' : 2 ^ 53 = 2 ^ d * 2 ^ (53 - d))
      by (rewrite <- Z.pow_add_r by lia; f_equal; lia).
    assert (0 < 2 ^ (53 - d)) by (apply Z.pow_pos_nonneg; lia).
    rewrite Hpow, Hpow'. nia.
  - set (k := d - 53) in *.
    assert (HP : 0 < 2 ^ k) by (apply Z.pow_pos_nonneg; lia).
    assert (Hq : 2 ^ 52 <= Zpos p / 2 ^ k < 2 ^ 53).
    { assert (Hpow : 2 ^ (d - 1) = 2 ^ 52 * 2 ^ k)
        by (rewrite <- Z.pow_add_r by lia; f_equal; lia).
      assert (Hpow' : 2 ^ d = 2 ^ 53 * 2 ^ k)
        by (rewrite <- Z.pow_add_r by lia; f_equal; lia).
      split.
      - apply Z.div_le_lower_bound; lia.
      - apply Z.div_lt_upper_bound; lia. }
    pose proof (round_nearest_even_bounds (Zpos p / 2 ^ k)
                  (location_of k (Zpos p mod 2 ^ k))) as Hv.
    destruct (Z.eqb_spec (round_nearest_even (Zpos p / 2 ^ k)
                            (location_of k (Zpos p mod 2 ^ k))) (2 ^ 53)) as [Hv1 | Hv1];
      cbn [fst snd].
    + split; [lia |]. right. split; [lia | reflexivity].
    + split; [lia |]. left. reflexivity.
Qed.

Lemma binary_round_rounded sx p :
  binary_round 53 1024 sx p 0
  = if snd (rounded p) <=? 971
    then S754_finite sx (Z.to_pos (fst (rounded p))) (snd (rounded p))
    else S754_infinity sx.
Proof.
  unfold binary_round, rounded. pose proof (digits2_pos_bounds p) as [Hlo Hhi].
  set (d := Zpos (digits2_pos p)) in *.
  assert (Hd1 : 1 <= d) by (unfold d; lia).
  rewrite fexp_normal by lia. unfold shl_align.
  destruct (Z.leb_spec d 53) as [Hd | Hd]; cbn [fst snd].
  - destruct (d + 0 - 53 - 0) as [| n | n] eqn:Hn; try lia.
    + assert (d = 53) by lia.
      rewrite binary_round_aux_normal by (fold d; lia).
      replace (53 - d) with 0 by lia. replace (d - 53) with 0 by lia.
      rewrite Z.pow_0_r, Z.mul_1_r. reflexivity.
    + assert (Hdn : 53 - d = Zpos n) by lia.
      assert (Hmz : Zpos (Pos.iter xO p n) = Zpos p * 2 ^ (53 - d))
        by (rewrite pos_iter_xO; now rewrite Hdn).
      assert (Hpow : 2 ^ 52 = 2 ^ (d - 1) * 2 ^ (53 - d))
        by (rewrite <- Z.pow_add_r by lia; f_equal; lia).
      assert (Hpow' : 2 ^ 53 = 2 ^ d * 2 ^ (53 - d))
        by (rewrite <- Z.pow_add_r by lia; f_equal; lia).
      assert (0 < 2 ^ (53 - d)) by (apply Z.pow_pos_nonneg; lia).
      rewrite binary_round_aux_normal.
      * replace (d + 0 - 53) with (d - 53) by lia.
        rewrite <- Hmz, Pos2Z.id. reflexivity.
      * apply digits2_pos_unique. rewrite Hmz. change (53 - 1) with 52.
        rewrite Hpow, Hpow'. nia.
      * lia.
  - destruct (d + 0 - 53 - 0) as [| k | k] eqn:Hk; try lia.
    assert (Hdk : d - 53 = Zpos k) by lia. rewrite Hdk.
    unfold binary_round_aux, shr_fexp at 1. cbn [Zdigits2 shr_record_of_loc].
    fold d. rewrite fexp_normal by lia.
    replace (d + 0 - 53 - 0) with (Zpos k) by lia. cbn [shr].
    rewrite iter_pos_nat.
    destruct (nat_iter_shr_1 (Zpos p) (Pos.to_nat k) ltac:(lia)) as [Hm Hloc].
    cbv zeta in Hm, Hloc. rewrite positive_nat_Z in Hm, Hloc.
    destruct (Nat.iter (Pos.to_nat k) shr_1 _) as [q r s] eqn:Hst.
    cbn [shr_m] in Hm. rewrite Hloc. subst q. cbn [shr_m].
    assert (HP : 0 < 2 ^ Zpos k) by (apply Z.pow_pos_nonneg; lia).
    assert (Hq : 2 ^ 52 <= Zpos p / 2 ^ Zpos k < 2 ^ 53).
    { assert (Hpow : 2 ^ (d - 1) = 2 ^ 52 * 2 ^ Zpos k)
        by (rewrite <- Z.pow_add_r by lia; f_equal; lia).
      assert (Hpow' : 2 ^ d = 2 ^ 53 * 2 ^ Zpos k)
        by (rewrite <- Z.pow_add_r by lia; f_equal; lia).
      split.
      - apply Z.div_le_lower_bound; lia.
      - apply Z.div_lt_upper_bound; lia. }
    pose proof (round_nearest_even_bounds (Zpos p / 2 ^ Zpos k)
                  (location_of (Zpos k) (Zpos p mod 2 ^ Zpos k))) as Hv.
    set (v := round_nearest_even _ _) in *.
    destruct (Z.eqb_spec v (2 ^ 53)) as [Hv1 | Hv1]; cbn [fst snd].
    + rewrite Hv1. unfold shr_fexp. change (Zdigits2 (2 ^ 53)) with 54.
      rewrite fexp_normal by lia.
      replace (54 + (0 + Zpos k) - 53 - (0 + Zpos k)) with 1 by lia.
      cbn [shr shr_record_of_loc SpecFloat.iter_pos]. cbn [Z.pow Z.pow_pos Pos.iter Z.mul Pos.mul shr_1 shr_m].
      replace (0 + Zpos k + 1) with (Zpos k + 1) by lia. reflexivity.
    + assert (Hvpos : 0 < v) by lia.
      destruct v as [| vp | vp] eqn:Hvp; try lia.
      assert (Hdv : Zpos (digits2_pos vp) = 53).
      { apply digits2_pos_unique. change (53 - 1) with 52. lia. }
      unfold shr_fexp. cbn [Zdigits2 shr_record_of_loc]. rewrite Hdv.
      rewrite fexp_normal by lia.
      replace (53 + (0 + Zpos k) - 53 - (0 + Zpos k)) with 0 by lia.
      cbn [shr shr_m]. rewrite Z.add_0_l. reflexivity.
Qed.

Lemma round_nearest_even_mono k q r r' :
  0 <= r <= r' -> r' < 2 ^ k ->
  round_nearest_even q (location_of k r) <= round_nearest_even q (location_of k r').
Proof.
  intros Hr Hr'. unfold location_of.
  destruct (Z.eqb_spec r 0) as [-> | Hr0]; destruct (Z.eqb_spec r' 0) as [Hz | Hr0'];
    try lia; cbn [round_nearest_even].
  - destruct (2 * r' ?= 2 ^ k); try lia. destruct (Z.even q); lia.
  - destruct (Z.compare_spec (2 * r) (2 ^ k)); destruct (Z.compare_spec (2 * r') (2 ^ k));
      try lia; destruct (Z.even q); lia.
Qed.

Lemma rounded_mono p q :
  (p <= q)%positive ->
  snd (rounded p) < snd (rounded q)
  \/ snd (rounded p) = snd (rounded q) /\ fst (rounded p) <= fst (rounded q).
Proof.
  intros Hle. pose proof (digits2_pos_mono p q Hle) as Hd.
  destruct (rounded_bounds p) as [Hmp Hep]. destruct (rounded_bounds q) as [Hmq Heq].
  destruct (Z.eq_dec (Zpos (digits2_pos p)) (Zpos (digits2_pos q))) as [Hsame | Hdiff];
    [| lia].
  clear Hmp Hep Hmq Heq. unfold rounded. rewrite <- Hsame.
  set (d := Zpos (digits2_pos p)) in *.
  destruct (Z.leb_spec d 53) as [Hd53 | Hd53]; cbn [fst snd].
  - right. split; [reflexivity |].
    assert (0 < 2 ^ (53 - d)) by (apply Z.pow_pos_nonneg; lia). nia.
  - set (k := d - 53) in *.
    assert (HP : 0 < 2 ^ k) by (apply Z.pow_pos_nonneg; lia).
    pose proof (Z.div_mod (Zpos p) (2 ^ k) ltac:(lia)) as Hp.
    pose proof (Z.div_mod (Zpos q) (2 ^ k) ltac:(lia)) as Hq.
    pose proof (Z.mod_pos_bound (Zpos p) (2 ^ k) HP) as Hrp.
    pose proof (Z.mod_pos_bound (Zpos q) (2 ^ k) HP) as Hrq.
    assert (Hdiv : Zpos p / 2 ^ k <= Zpos q / 2 ^ k) by (apply Z.div_le_mono; lia).
    pose proof (digits2_pos_bounds q) as [_ Hhi]. rewrite <- Hsame in Hhi. fold d in Hhi.
    assert (Hqq : Zpos q / 2 ^ k < 2 ^ 53).
    { assert (Hpow' : 2 ^ d = 2 ^ 53 * 2 ^ k)
        by (rewrite <- Z.pow_add_r by lia; f_equal; lia).
      apply Z.div_lt_upper_bound; lia. }
    pose proof (round_nearest_even_bounds (Zpos p / 2 ^ k)
                  (location_of k (Zpos p mod 2 ^ k))) as Hvp.
    pose proof (round_nearest_even_bounds (Zpos q / 2 ^ k)
                  (location_of k (Zpos q mod 2 ^ k))) as Hvq.
    assert (Hv : round_nearest_even (Zpos p / 2 ^ k) (location_of k (Zpos p mod 2 ^ k))
                 <= round_nearest_even (Zpos q / 2 ^ k) (location_of k (Zpos q mod 2 ^ k))).
    { destruct (Z.eq_dec (Zpos p / 2 ^ k) (Zpos q / 2 ^ k)) as [Heq | Hne]; [| lia].
      rewrite <- Heq. apply round_nearest_even_mono; [| lia].
      rewrite <- Heq in Hq. nia. }
    set (vp := round_nearest_even (Zpos p / 2 ^ k) _) in *.
    set (vq := round_nearest_even (Zpos q / 2 ^ k) _) in *.
    destruct (Z.eqb_spec vp (2 ^ 53)); destruct (Z.eqb_spec vq (2 ^ 53));
      cbn [fst snd]; lia.
Qed.

Lemma binary_round_compare p q :
  (p <= q)%positive ->
  SFltb (binary_round 53 1024 false q 0) (binary_round 53 1024 false p 0) = false
  /\ SFltb (binary_round 53 1024 true p 0) (binary_round 53 1024 true q 0) = false.
Proof.
  intros Hle. rewrite !binary_round_rounded.
  destruct (rounded_bounds p) as [Hmp _]. destruct (rounded_bounds q) as [Hmq _].
  pose proof (rounded_mono p q Hle) as Hmono.
  destruct (rounded p) as [mp ep], (rounded q) as [mq eq]. cbn [fst snd] in *.
  assert (0 < 2 ^ 52) by (apply Z.pow_pos_nonneg; lia).
  unfold SFltb, SFcompare.
  destruct (Z.leb_spec ep 971); destruct (Z.leb_spec eq 971); try lia;
    try (split; reflexivity).
  cbn iota. assert (Hp0 : 0 < mp) by lia. assert (Hq0 : 0 < mq) by lia.
  change (PosDef.Pos.compare_cont Eq) with Pos.compare.
  rewrite <- (Z2Pos.inj_compare mq mp Hq0 Hp0), <- (Z2Pos.inj_compare mp mq Hp0 Hq0).
  destruct (Z.compare_spec eq ep); destruct (Z.compare_spec ep eq); try lia;
    try (split; reflexivity).
  destruct (Z.compare_spec mq mp); destruct (Z.compare_spec mp mq); try lia;
    split; reflexivity.
Qed.

(** Integers keep their order as numbers. *)
Lemma of_Z_ltb a b : b <= a -> JS.ltb (JS.of_Z a) (JS.of_Z b) = false.
Proof.
  intros Hle. unfold JS.ltb, JS.of_Z, JS.prec, JS.emax, binary_normalize.
  destruct a as [| p | p], b as [| q | q]; try lia; try reflexivity.
  - rewrite binary_round_rounded. now destruct (_ <=? 971).
  - rewrite binary_round_rounded. now destruct (_ <=? 971).
  - apply binary_round_compare. lia.
  - rewrite !binary_round_rounded. now destruct (_ <=? 971); destruct (_ <=? 971).
  - apply binary_round_compare. lia.
Qed.

End IntegerRounding.

(** ** Buckets without a reset, and requests that are refused *)

Section LocalLimit.

Import Handler Manager RequestHandler Loop.

Variable pkg : Constants.Package.

(** X12. A response without [X-RateLimit-Reset-After] never limits the
    bucket: after a pass on a response whose headers lack that field (or
    carry it empty), the handler is not limited at the time of the
    response or at any later time, whatever [X-RateLimit-Remaining]
    said, because [reset] is set to the current time. *)
Theorem no_reset_header_never_limits now fresh m h routeID url opts retries res hs now' :
  Response.headers res = Some hs ->
  JS.truthy (Response.get hs "X-RateLimit-Reset-After") = false ->
  now <= now' ->
  limited now' (handler (makeRequest_body now fresh m h routeID url opts retries
                           (Response.Responded res))) = false.
Proof.
  intros Hhs Hreset Hle.
  rewrite (makeRequest_body_handler now fresh m h routeID url opts retries res hs Hhs).
  rewrite Hreset. unfold limited, set_bucket. cbn [Handler.reset Handler.remaining].
  apply andb_false_iff. right. now apply of_Z_ltb.
Qed.

(** X13. A request that cannot be assembled leaves no trace after the
    next sweep: when [queueRequest] throws (no token), the handler it
    may have created for the bucket has an empty queue and is not
    limited, so sweeping the table afterwards gives the same table as
    sweeping the one before the call; the learned hashes and the global
    timeout are untouched. *)
Theorem failed_request_swept m boundary tid routeID request m' e :
  queueRequest pkg m boundary tid routeID request = (m', Throw e) ->
  hashes m' = hashes m
  /\ globalTimeout m' = globalTimeout m
  /\ forall now, queues (sweep now m') = queues (sweep now m).
Proof.
  unfold queueRequest. rewrite bucket_hash_eq.
  set (hash := bucket_hash m (REST.method request) routeID).
  destruct (queues m !! (hash +:+ ":" +:+ REST.majorParameter routeID)) as [q |] eqn:Hq.
  - destruct (resolveRequest pkg m boundary request) as [[url options] | e'];
      intros [= <- <-] || intros [= <-]; auto.
  - unfold createQueue.
    destruct (resolveRequest pkg _ boundary request) as [[url options] | e'];
      [intros [=] |]. intros [= <- _].
    repeat split. intros now. apply map_eq. intros k.
    rewrite !sweep_lookup. cbn. rewrite lookup_insert. case_decide as Hk.
    + subst k. rewrite Hq. reflexivity.
    + reflexivity.
Qed.

End LocalLimit.

Lemma no_reset_header_never_limits_witness :
  Handler.limited 999
    (RequestHandler.handler
       (RequestHandler.makeRequest_body 10 0 Sample.manager fresh_messages_handler
          Sample.messages "https://discord.com/api/v7/channels/1/messages" plain_get 0
          (Response.Responded spent_no_reset))) = false.
Proof.
  apply (no_reset_header_never_limits 10 0 Sample.manager fresh_messages_handler
           Sample.messages "https://discord.com/api/v7/channels/1/messages" plain_get 0
           spent_no_reset (list_to_map [("x-ratelimit-remaining", "0")]) 999).
  - reflexivity.
  - vm_compute. reflexivity.
  - lia.
Defined.

Lemma failed_request_swept_witness :
  Manager.hashes after_refusal = Manager.hashes Sample.bare
  /\ Manager.globalTimeout after_refusal = Manager.globalTimeout Sample.bare
  /\ forall now, Manager.queues (Manager.sweep now after_refusal)
                 = Manager.queues (Manager.sweep now Sample.bare).
Proof.
  apply (failed_request_swept Sample.pkg Sample.bare "" 1 Sample.messages
           (Sample.get "/channels/1/messages") after_refusal no_token_error).
  vm_compute. reflexivity.
Defined.

(** ** The encoders *)

Section Encoders.

Import Manager.

Variable pkg : Constants.Package.

Lemma string_forallb_app p s t :
  string_forallb p (s +:+ t) = string_forallb p s && string_forallb p t.
Proof.
  induction s as [| c s IH].
  - reflexivity.
  - change (String c s +:+ t) with (String c (s +:+ t)). cbn.
    now rewrite IH, andb_assoc.
Qed.

Lemma uri_component_byte_safe c :
  string_forallb uri_safe (JS.uri_component_byte c) = true.
Proof. destruct c as [[] [] [] [] [] [] [] []]; vm_compute; reflexivity. Qed.

Lemma encodeURIComponent_safe s :
  string_forallb uri_safe (JS.encodeURIComponent s) = true.
Proof.
  induction s as [| c s IH]; [reflexivity |].
  unfold JS.encodeURIComponent in *. cbn [JS.flat_map_string].
  now rewrite string_forallb_app, uri_component_byte_safe, IH.
Qed.

Lemma uri_component_byte_decode c t :
  percent_decode false (JS.uri_component_byte c +:+ t)
  = String c (percent_decode false t).
Proof. destruct c as [[] [] [] [] [] [] [] []]; reflexivity. Qed.

Lemma encodeURIComponent_decode s :
  percent_decode false (JS.encodeURIComponent s) = s.
Proof.
  induction s as [| c s IH]; [reflexivity |].
  unfold JS.encodeURIComponent in *. cbn [JS.flat_map_string].
  now rewrite uri_component_byte_decode, IH.
Qed.

(** X14. The audit-log reason cannot break the header block: when a
    request with a reason is assembled, the [X-Audit-Log-Reason] header
    consists of letters, digits, the marks [-_.!~*'()] and [%] only (no
    line break, control byte, space or byte above 127), and
    percent-decoding it gives the reason back, byte for byte. *)
Theorem audit_log_reason_encoded m boundary request reason url opts :
  REST.reason request = Some reason ->
  reason <> "" ->
  resolveRequest pkg m boundary request = Ok (url, opts) ->
  exists v, Fetch.headers opts !! "X-Audit-Log-Reason" = Some v
            /\ string_forallb uri_safe v = true
            /\ percent_decode false v = reason.
Proof.
  intros Hreason Hne Hok.
  exists (JS.encodeURIComponent reason).
  split; [| split; [apply encodeURIComponent_safe | apply encodeURIComponent_decode]].
  destruct (resolveRequest_Ok_inv pkg m boundary request url opts Hok)
    as (headers & Hheaders & _ & _ & Hopts).
  rewrite Hopts, spread_lookup.
  destruct (resolveHeaders_Ok pkg m request headers Hheaders) as (_ & _ & _ & _ & Hr).
  now rewrite (Hr reason Hreason Hne).
Qed.

Lemma form_byte_safe c : string_forallb form_safe (JS.form_byte c) = true.
Proof. destruct c as [[] [] [] [] [] [] [] []]; vm_compute; reflexivity. Qed.

Lemma form_encode_safe s : string_forallb form_safe (JS.form_encode s) = true.
Proof.
  induction s as [| c s IH]; [reflexivity |].
  unfold JS.form_encode in *. cbn [JS.flat_map_string].
  now rewrite string_forallb_app, form_byte_safe, IH.
Qed.

Lemma form_byte_decode c t :
  percent_decode true (JS.form_byte c +:+ t) = String c (percent_decode true t).
Proof. destruct c as [[] [] [] [] [] [] [] []]; reflexivity. Qed.

Lemma form_encode_decode s : percent_decode true (JS.form_encode s) = s.
Proof.
  induction s as [| c s IH]; [reflexivity |].
  unfold JS.form_encode in *. cbn [JS.flat_map_string].
  now rewrite form_byte_decode, IH.
Qed.

Lemma form_safe_separators c :
  form_safe c = true -> Ascii.eqb c "=" = false /\ Ascii.eqb c "&" = false.
Proof. destruct c as [[] [] [] [] [] [] [] []]; vm_compute; intuition discriminate. Qed.

Lemma form_safe_query_safe c : form_safe c = true -> query_safe c = true.
Proof. unfold query_safe. now intros ->. Qed.

Lemma string_forallb_weaken (p q : ascii -> bool) s :
  (forall c, p c = true -> q c = true) ->
  string_forallb p s = true -> string_forallb q s = true.
Proof.
  intros Hpq. induction s as [| c s IH]; [reflexivity |]. cbn.
  intros H. apply andb_prop in H as [Hc Hs]. now rewrite (Hpq c Hc), IH.
Qed.

Lemma split_eq_app a b :
  string_forallb form_safe a = true ->
  split_eq (a +:+ "=" +:+ b) = (a, b).
Proof.
  induction a as [| c a IH]; [reflexivity |].
  intros H. cbn in H. apply andb_prop in H as [Hc Ha].
  change (String c a +:+ "=" +:+ b) with (String c (a +:+ "=" +:+ b)).
  cbn [split_eq]. destruct (form_safe_separators c Hc) as [-> _].
  now rewrite (IH Ha).
Qed.

(** A segment [name=value] of the serializer. *)
Lemma segment_no_amp a b :
  string_forallb form_safe a = true ->
  string_forallb form_safe b = true ->
  string_forallb (fun c => negb (Ascii.eqb c "&")) (a +:+ "=" +:+ b) = true.
Proof.
  intros Ha Hb. rewrite !string_forallb_app. cbn.
  assert (Hno : forall s, string_forallb form_safe s = true ->
                          string_forallb (fun c => negb (Ascii.eqb c "&")) s = true).
  { intros s. apply string_forallb_weaken. intros c Hc.
    now destruct (form_safe_separators c Hc) as [_ ->]. }
  now rewrite (Hno a Ha), (Hno b Hb).
Qed.

Lemma split_amp_segment a :
  string_forallb (fun c => negb (Ascii.eqb c "&")) a = true ->
  split_amp a = (a, []).
Proof.
  induction a as [| c a IH]; [reflexivity |]. cbn.
  intros H. apply andb_prop in H as [Hc Ha]. apply negb_true_iff in Hc.
  now rewrite Hc, (IH Ha).
Qed.

Lemma split_amp_app a rest :
  string_forallb (fun c => negb (Ascii.eqb c "&")) a = true ->
  split_amp (a +:+ "&" +:+ rest)
  = (a, fst (split_amp rest) :: snd (split_amp rest)).
Proof.
  induction a as [| c a IH]; [reflexivity |].
  intros H. cbn in H. apply andb_prop in H as [Hc Ha]. apply negb_true_iff in Hc.
  change (String c a +:+ "&" +:+ rest) with (String c (a +:+ "&" +:+ rest)).
  cbn [split_amp]. now rewrite Hc, (IH Ha).
Qed.

Lemma split_amp_join seg segs :
  List.Forall (fun s => string_forallb (fun c => negb (Ascii.eqb c "&")) s = true)
              (seg :: segs) ->
  split_amp (JS.join "&" (seg :: segs)) = (seg, segs).
Proof.
  revert seg. induction segs as [| seg' segs IH]; intros seg Hall.
  - apply List.Forall_inv in Hall. now apply split_amp_segment.
  - pose proof (List.Forall_inv Hall) as Hseg.
    apply List.Forall_inv_tail in Hall.
    change (JS.join "&" (seg :: seg' :: segs))
      with (seg +:+ "&" +:+ JS.join "&" (seg' :: segs)).
    rewrite (split_amp_app _ _ Hseg), (IH seg' Hall). reflexivity.
Qed.

Lemma join_safe segs :
  List.Forall (fun s => string_forallb query_safe s = true) segs ->
  string_forallb query_safe (JS.join "&" segs) = true.
Proof.
  induction segs as [| seg [| seg' segs] IH]; intros Hall.
  - reflexivity.
  - now apply List.Forall_inv in Hall.
  - pose proof (List.Forall_inv Hall) as Hseg.
    apply List.Forall_inv_tail in Hall.
    change (JS.join "&" (seg :: seg' :: segs))
      with (seg +:+ "&" +:+ JS.join "&" (seg' :: segs)).
    rewrite !string_forallb_app, Hseg, (IH Hall). reflexivity.
Qed.

Lemma URLSearchParams_reads_back pairs :
  parse_query (JS.URLSearchParams pairs) = List.map query_text pairs
  /\ string_forallb query_safe (JS.URLSearchParams pairs) = true.
Proof.
  unfold JS.URLSearchParams.
  set (enc := fun p : string * JS.value =>
                JS.form_encode (fst p) +:+ "=" +:+ JS.form_encode (JS.to_string (snd p))).
  assert (Hpair : forall p, parse_pair (enc p) = query_text p).
  { intros p. unfold parse_pair, enc.
    rewrite (split_eq_app _ _ (form_encode_safe (fst p))). cbn [fst snd].
    now rewrite !form_encode_decode. }
  assert (Hamp : forall ps,
             List.Forall (fun s => string_forallb (fun c => negb (Ascii.eqb c "&")) s = true)
                         (List.map enc ps)).
  { intros ps. apply List.Forall_forall. intros s Hin.
    apply List.in_map_iff in Hin as (p & <- & _).
    apply segment_no_amp; apply form_encode_safe. }
  split.
  - destruct pairs as [| p ps]; [reflexivity |].
    change (map enc (p :: ps)) with (enc p :: map enc ps).
    assert (Hne : exists c s, JS.join "&" (enc p :: map enc ps) = String c s).
    { destruct (JS.join "&" (enc p :: map enc ps)) as [| c s] eqn:Hj; [| eauto].
      pose proof (split_amp_join (enc p) (map enc ps) (Hamp (p :: ps))) as Hs.
      rewrite Hj in Hs. cbn in Hs. injection Hs as Hs _.
      pose proof (Hpair p) as Hp. rewrite <- Hs in Hp.
      unfold enc in Hs. destruct (JS.form_encode (fst p)); discriminate Hs. }
    destruct Hne as (c & s & Hj). unfold parse_query. rewrite Hj, <- Hj.
    rewrite (split_amp_join (enc p) (map enc ps) (Hamp (p :: ps))). cbn [fst snd].
    change (List.map parse_pair (List.map enc (p :: ps)) = List.map query_text (p :: ps)).
    rewrite List.map_map. apply List.map_ext. exact Hpair.
  - apply join_safe. apply List.Forall_forall. intros s Hin.
    apply List.in_map_iff in Hin as (p & <- & _). unfold enc.
    rewrite !string_forallb_app.
    rewrite (string_forallb_weaken _ _ _ form_safe_query_safe (form_encode_safe (fst p))).
    rewrite (string_forallb_weaken _ _ _ form_safe_query_safe
               (form_encode_safe (JS.to_string (snd p)))).
    reflexivity.
Qed.

(** X15. The query string reads back: when a request with a query is
    assembled, the URL is the base URL, a [?] and a query string made of
    letters, digits, [*-._+%], [=] and [&] only, which a form-urlencoded
    parser reads as exactly the pairs of the query whose value is not
    [null], in their order, each name with the text of its value. *)
Theorem query_string_reads_back m boundary request q url opts :
  REST.query request = Some q ->
  resolveRequest pkg m boundary request = Ok (url, opts) ->
  exists qs,
    url = base_url (options m) request +:+ "?" +:+ qs
    /\ string_forallb query_safe qs = true
    /\ parse_query qs = List.map query_text (List.filter query_filter q).
Proof.
  intros Hq Hok.
  exists (JS.URLSearchParams (List.filter query_filter q)).
  destruct (URLSearchParams_reads_back (List.filter query_filter q)) as [Hparse Hsafe].
  split; [| split; assumption].
  unfold resolveRequest in Hok. rewrite Hq in Hok.
  destruct (resolveHeaders pkg m request); [| discriminate].
  destruct (resolveBody boundary request). injection Hok as <- _.
  unfold base_url. now rewrite !append_assoc.
Qed.

End Encoders.

(** ** Uploads *)

Section Uploads.

Import Manager.

Variable pkg : Constants.Package.

Lemma appendFiles_parts files :
  forall body,
    Fetch.boundary (appendFiles body files) = Fetch.boundary body
    /\ Fetch.parts (appendFiles body files)
       = (Fetch.parts body ++ flat_map file_parts files)%list.
Proof.
  induction files as [| entry files IH]; intros body.
  - cbn. now rewrite app_nil_r.
  - unfold appendFiles in *. cbn [foldl flat_map].
    destruct entry as [[name [c |]] |]; cbn [REST.file REST.name file_parts].
    + destruct (REST.file_truthy (Some c)).
      * destruct (IH (Fetch.append body name c (Some name))) as [-> ->].
        cbn. now rewrite <- app_assoc.
      * apply IH.
    + apply IH.
    + apply IH.
Qed.

(** X16. What an upload carries: the body of a request with a non-empty
    [files] is a multipart form with the boundary drawn for it, whose
    parts are, in the order of [files], one part for each entry that has
    a non-empty content, with the file's name as field name and as file
    name, followed by the [payload_json] field when [data] is given;
    entries that are missing or empty are skipped, and the content type
    sent names the boundary. *)
Theorem upload_parts m boundary request f fs url opts :
  REST.files request = Some (f :: fs) ->
  resolveRequest pkg m boundary request = Ok (url, opts) ->
  exists form,
    Fetch.body opts = Some (Fetch.Multipart form)
    /\ Fetch.boundary form = boundary
    /\ Fetch.parts form
       = (flat_map file_parts (f :: fs)
            ++ match REST.data request with
               | Some d => [payload_json d]
               | None => []
               end)%list
    /\ Fetch.headers opts !! "content-type"
       = Some ("multipart/form-data; boundary=" +:+ boundary).
Proof.
  intros Hfiles Hok.
  destruct (resolveRequest_Ok_inv pkg m boundary request url opts Hok)
    as (headers & Hheaders & _ & Hbody & Hopts).
  destruct (appendFiles_parts (f :: fs) (Fetch.FormData_new boundary)) as [Hb Hp].
  unfold resolveBody in Hbody, Hopts. rewrite Hfiles in Hbody, Hopts.
  cbn [fst snd] in Hbody, Hopts.
  eexists. split; [exact Hbody |].
  assert (Hmandatory : headers !! "content-type" = None).
  { unfold resolveHeaders in Hheaders.
    destruct (REST.auth request) as [[|] |];
      destruct (JS.truthy (token m)); try discriminate;
      destruct (JS.truthy (REST.reason request));
      injection Hheaders as <-; vm_compute; reflexivity. }
  split; [| split].
  - destruct (REST.data request); cbn [Fetch.append Fetch.boundary]; exact Hb.
  - destruct (REST.data request); cbn [Fetch.append Fetch.parts]; rewrite Hp;
      [reflexivity | now rewrite app_nil_r].
  - rewrite Hopts, spread_lookup, Hmandatory.
    destruct (REST.data request); cbn [default]; unfold Fetch.getHeaders, id;
      rewrite lookup_singleton_eq; cbn [Fetch.append Fetch.boundary];
      rewrite Hb; reflexivity.
Qed.

End Uploads.

Lemma audit_log_reason_encoded_witness :
  exists v,
    Fetch.headers (assembled_options
                     (Manager.resolveRequest Sample.pkg Sample.manager "" chatty))
      !! "X-Audit-Log-Reason" = Some v
    /\ string_forallb uri_safe v = true
    /\ percent_decode false v = "spring cleaning".
Proof.
  apply (audit_log_reason_encoded Sample.pkg Sample.manager "" chatty "spring cleaning"
           (assembled_url (Manager.resolveRequest Sample.pkg Sample.manager "" chatty))).
  - reflexivity.
  - discriminate.
  - vm_compute. reflexivity.
Defined.

Lemma query_string_reads_back_witness :
  exists qs,
    assembled_url (Manager.resolveRequest Sample.pkg Sample.manager "" searching)
    = base_url (Manager.options Sample.manager) searching +:+ "?" +:+ qs
    /\ string_forallb query_safe qs = true
    /\ parse_query qs
       = List.map query_text
           (List.filter Manager.query_filter
              [("q", Some (JS.JString "a&b=c d")); ("before", Some JS.JNull);
               ("limit", Some (JS.JNumber 10))]).
Proof.
  apply (query_string_reads_back Sample.pkg Sample.manager "" searching
           [("q", Some (JS.JString "a&b=c d")); ("before", Some JS.JNull);
            ("limit", Some (JS.JNumber 10))]
           (assembled_url (Manager.resolveRequest Sample.pkg Sample.manager "" searching))
           (assembled_options
              (Manager.resolveRequest Sample.pkg Sample.manager "" searching))).
  - reflexivity.
  - vm_compute. reflexivity.
Defined.

Example query_string_ex :
  assembled_url (Manager.resolveRequest Sample.pkg Sample.manager "" searching)
  = "https://discord.com/api/v7/channels/1/messages?q=a%26b%3Dc+d&limit=10".
Proof. vm_compute. reflexivity. Qed.

Lemma upload_parts_witness :
  exists form,
    Fetch.body (assembled_options
                  (Manager.resolveRequest Sample.pkg Sample.manager "xyz" upload_two))
    = Some (Fetch.Multipart form)
    /\ Fetch.boundary form = "xyz"
    /\ Fetch.parts form
       = (flat_map file_parts
            (Some {| REST.name := "a.png"; REST.file := Some (REST.Buffer "PNG") |}
             :: [None;
                 Some {| REST.name := "empty.txt"; REST.file := Some (REST.Text "") |};
                 Some {| REST.name := "b.txt"; REST.file := Some (REST.Text "hello") |}])
            ++ match REST.data upload_two with
               | Some d => [payload_json d]
               | None => []
               end)%list
    /\ Fetch.headers (assembled_options
                        (Manager.resolveRequest Sample.pkg Sample.manager "xyz" upload_two))
         !! "content-type"
       = Some ("multipart/form-data; boundary=" +:+ "xyz").
Proof.
  apply (upload_parts Sample.pkg Sample.manager "xyz" upload_two
           (Some {| REST.name := "a.png"; REST.file := Some (REST.Buffer "PNG") |})
           [None;
            Some {| REST.name := "empty.txt"; REST.file := Some (REST.Text "") |};
            Some {| REST.name := "b.txt"; REST.file := Some (REST.Text "hello") |}]
           (assembled_url (Manager.resolveRequest Sample.pkg Sample.manager "xyz" upload_two))).
  - reflexivity.
  - vm_compute. reflexivity.
Defined.

Example upload_two_files :
  List.map Fetch.field
    (flat_map file_parts two_files) = ["a.png"; "b.txt"].
Proof. reflexivity. Qed.

(** ** The CDN link builder *)

Section CDNProperties.

Import CDN.

Variable URL : Type.
Variable URL_new : string -> option URL.
Variable searchParams_set : URL -> string -> string -> URL.
Variable URL_toString : URL -> string.
Variable base : string.

Lemma includes_In list x : includes list x = true <-> In x list.
Proof.
  unfold includes. rewrite existsb_exists. split.
  - intros (y & Hin & Heq). apply String.eqb_eq in Heq. now subst.
  - intros Hin. exists x. split; [exact Hin | apply String.eqb_refl].
Qed.

Lemma includes_size_In list x : includes_size list x = true <-> In x list.
Proof.
  unfold includes_size. rewrite existsb_exists. split.
  - intros (y & Hin & Heq). apply Z.eqb_eq in Heq. now subst.
  - intros Hin. exists x. split; [exact Hin | apply Z.eqb_refl].
Qed.

Lemma lower_byte_idem c : Response.lower_byte (Response.lower_byte c) = Response.lower_byte c.
Proof. destruct c as [[] [] [] [] [] [] [] []]; reflexivity. Qed.

Lemma toLowerCase_idem s : toLowerCase (toLowerCase s) = toLowerCase s.
Proof.
  unfold toLowerCase. induction s as [| c s IH]; [reflexivity |].
  cbn. now rewrite lower_byte_idem, IH.
Qed.

(** X17. Which links are built: [makeURL] returns a link exactly when
    the extension, lower-cased, with [png] for a default, is one of
    [webp], [png], [jpg], [jpeg], [gif] or is empty, the size is left
    out, is 0 or is one of the powers of two from 16 to 4096, and the
    platform accepts the text [<base><route>.<extension>] as a URL; the
    link is that URL, with the parameter [size] set when a size other
    than 0 is given.  An empty extension and a size of 0 pass the
    validation. *)
Theorem makeURL_returns route options link :
  let given := match options with Some o => extension o | None => None end in
  let sz := match options with Some o => size o | None => None end in
  let ext := toLowerCase (default "png" given) in
  makeURL URL URL_new searchParams_set URL_toString base route options = Returns link
  <-> (ext = "" \/ In ext ALLOWED_EXTENSIONS)
      /\ (sz = None \/ sz = Some 0 \/ exists z, sz = Some z /\ In z ALLOWED_SIZES)
      /\ exists url,
           URL_new (base +:+ route +:+ "." +:+ ext) = Some url
           /\ link = URL_toString
                       match sz with
                       | Some 0 | None => url
                       | Some z => searchParams_set url "size" (JS.string_of_Z z)
                       end.
Proof.
  intros given sz ext. unfold makeURL. fold given sz ext.
  assert (Hext : JS.truthy (Some ext) && negb (includes ALLOWED_EXTENSIONS ext) = false
                 <-> ext = "" \/ In ext ALLOWED_EXTENSIONS).
  { rewrite andb_false_iff, negb_false_iff, includes_In.
    destruct ext; cbn; intuition discriminate. }
  assert (Hsize : size_truthy sz && negb (includes_size ALLOWED_SIZES (default 0 sz)) = false
                  <-> sz = None \/ sz = Some 0
                      \/ exists z, sz = Some z /\ In z ALLOWED_SIZES).
  { rewrite andb_false_iff, negb_false_iff, includes_size_In.
    destruct sz as [z |]; cbn [size_truthy default].
    - rewrite negb_false_iff, Z.eqb_eq. split.
      + intros [-> | Hin]; [auto | right; right; eauto].
      + intros [H | [[= ->] | (z' & [= <-] & Hin)]]; [discriminate | auto | auto].
    - intuition auto. }
  destruct (JS.truthy (Some ext) && negb (includes ALLOWED_EXTENSIONS ext)) eqn:He.
  - split; [discriminate |]. intros (H & _). apply Hext in H. discriminate.
  - destruct (size_truthy sz && negb (includes_size ALLOWED_SIZES (default 0 sz))) eqn:Hs.
    + split; [discriminate |]. intros (_ & H & _). apply Hsize in H. discriminate.
    + destruct (URL_new (base +:+ route +:+ "." +:+ ext)) as [url |].
      * split.
        -- intros [= <-]. split; [now apply Hext |]. split; [now apply Hsize |].
           exists url. split; [reflexivity |].
           destruct sz as [[| p | p] |]; reflexivity.
        -- intros (_ & _ & url' & [= <-] & ->). f_equal.
           destruct sz as [[| p | p] |]; reflexivity.
      * split; [discriminate |]. intros (_ & _ & url' & Hnone & _). discriminate.
Qed.

(** X18. The extension is read without regard to case: [makeURL] on an
    extension and on its lower-case form give the same link or throw
    the same error, for every route, size and base. *)
Theorem makeURL_extension_case route e sz dyn :
  makeURL URL URL_new searchParams_set URL_toString base route
          (Some {| extension := Some e; size := sz; dynamic := dyn |})
  = makeURL URL URL_new searchParams_set URL_toString base route
            (Some {| extension := Some (toLowerCase e); size := sz; dynamic := dyn |}).
Proof.
  unfold makeURL. cbn [extension size default from_option id].
  change (default "png" (Some e)) with e.
  change (default "png" (Some (toLowerCase e))) with (toLowerCase e).
  now rewrite toLowerCase_idem.
Qed.

(** X19. An animated avatar asked for dynamically is a [gif], whatever
    extension the caller gave: the extension is not validated (an
    extension [makeURL] would refuse does not make [userAvatar] throw),
    and with a valid or absent size the link is built from
    [<base>/avatars/<user>/<hash>.gif]. *)
Theorem userAvatar_animated userID avatarHash o :
  dynamic o = Some true ->
  RequestHandler.startsWith "a_" avatarHash = true ->
  size o = None \/ (exists z, size o = Some z /\ In z ALLOWED_SIZES) ->
  userAvatar URL URL_new searchParams_set URL_toString base userID avatarHash (Some o)
  = match URL_new (base +:+ ("/avatars/" +:+ userID +:+ "/" +:+ avatarHash) +:+ "." +:+ "gif")
    with
    | None => Throws (InvalidURL (base +:+ ("/avatars/" +:+ userID +:+ "/" +:+ avatarHash)
                                    +:+ "." +:+ "gif"))
    | Some url =>
        Returns (URL_toString
                   match size o with
                   | Some z => searchParams_set url "size" (JS.string_of_Z z)
                   | None => url
                   end)
    end.
Proof.
  intros Hdyn Hanim Hsize. unfold userAvatar. rewrite Hdyn, Hanim.
  cbn [default from_option id]. unfold makeURL. cbn [extension size].
  change (toLowerCase (default "png" (Some "gif"))) with "gif".
  change (JS.truthy (Some "gif") && negb (includes ALLOWED_EXTENSIONS "gif")) with false.
  cbv iota.
  destruct Hsize as [-> | (z & -> & Hin)].
  - reflexivity.
  - assert (Hz : z <> 0) by (intros ->; cbn in Hin; intuition discriminate).
    apply includes_size_In in Hin. cbn [size_truthy default from_option id].
    change (default 0 (Some z)) with z. rewrite Hin.
    destruct (Z.eqb_spec z 0); [contradiction |]. reflexivity.
Qed.

End CDNProperties.

Lemma makeURL_returns_witness :
  plain_makeURL "/icons/1/abc"
    (Some {| CDN.extension := Some "PNG"; CDN.size := Some 64; CDN.dynamic := None |})
  = CDN.Returns "https://cdn.discordapp.com/icons/1/abc.png?size=64".
Proof.
  apply (makeURL_returns plain_URL plain_URL_new plain_URL_set plain_URL_toString
           "https://cdn.discordapp.com" "/icons/1/abc"
           (Some {| CDN.extension := Some "PNG"; CDN.size := Some 64;
                    CDN.dynamic := None |})
           "https://cdn.discordapp.com/icons/1/abc.png?size=64").
  split; [right; cbn; auto |]. split; [right; right; exists 64; cbn; auto |].
  exists ("https://cdn.discordapp.com/icons/1/abc.png", None).
  split; reflexivity.
Defined.

Lemma userAvatar_animated_witness :
  plain_userAvatar "42" "a_1f"
    (Some {| CDN.extension := Some "bmp"; CDN.size := Some 128; CDN.dynamic := Some true |})
  = CDN.Returns "https://cdn.discordapp.com/avatars/42/a_1f.gif?size=128".
Proof.
  apply (userAvatar_animated plain_URL plain_URL_new plain_URL_set plain_URL_toString
           "https://cdn.discordapp.com" "42" "a_1f"
           {| CDN.extension := Some "bmp"; CDN.size := Some 128;
              CDN.dynamic := Some true |}).
  - reflexivity.
  - reflexivity.
  - right. exists 128. cbn. auto 10.
Defined.

Example userAvatar_static_refused :
  plain_userAvatar "42" "1f"
    (Some {| CDN.extension := Some "bmp"; CDN.size := None; CDN.dynamic := Some true |})
  = CDN.Throws (CDN.RangeError (CDN.extension_message "bmp")).
Proof. reflexivity. Qed.

Example makeURL_empty_extension :
  plain_makeURL "/icons/1/abc"
    (Some {| CDN.extension := Some ""; CDN.size := Some 0; CDN.dynamic := None |})
  = CDN.Returns "https://cdn.discordapp.com/icons/1/abc.".
Proof. reflexivity. Qed.

(** ** Waiting for the global timeout, and the sweep of a quiet table *)

Section GlobalWait.

Import Handler Manager RequestHandler Loop.

Variable pkg : Constants.Package.

Lemma queueRequest_globalTimeout m boundary tid routeID request :
  globalTimeout (fst (queueRequest pkg m boundary tid routeID request))
  = globalTimeout m.
Proof.
  unfold queueRequest.
  destruct (queues m !! _) as [q |].
  - destruct (resolveRequest pkg m boundary request) as [[url options] | e]; reflexivity.
  - unfold createQueue.
    destruct (resolveRequest pkg _ boundary request) as [[url options] | e]; reflexivity.
Qed.

Lemma step_globals l (w w' : World) :
  globals_ok w -> step pkg l w = Some w' -> globals_ok w'.
Proof.
  intros [Hg Ht] Hstep.
  destruct l as [tid boundary route request | tid d1 d2 | tid o | p | dt |];
    cbn [step] in Hstep.
  - unfold submit in Hstep.
    destruct (tasks w !! tid) eqn:Hfresh; [discriminate |].
    pose proof (queueRequest_globalTimeout (Loop.manager w) boundary tid route request)
      as Hglobal.
    destruct (queueRequest pkg (Loop.manager w) boundary tid route request)
      as [m' c] eqn:Hqr.
    cbn [fst] in Hglobal. injection Hstep as <-. split.
    + intros p. cbn. rewrite Hglobal. apply Hg.
    + intros tid0 t0 p Ht0 Hat0. cbn in Ht0.
      assert (Ht0' : tasks w !! tid0 = Some t0).
      { destruct c as [q | e]; [| exact Ht0].
        rewrite lookup_insert in Ht0. case_decide; [| exact Ht0].
        injection Ht0 as <-. discriminate Hat0. }
      apply (Ht _ _ _ Ht0' Hat0).
  - unfold push in Hstep.
    destruct (tasks w !! tid) as [t |] eqn:Htid; [| discriminate].
    destruct (queues (Loop.manager w) !! on t) as [h |]; [| discriminate].
    assert (Hkeep : forall pt entries,
               (forall p, pt = AwaitGlobal (Some p) -> promise_live w p) ->
               globals_ok (put_task tid (move pt t) entries w)).
    { intros pt entries Hpt. split; [exact Hg |].
      intros tid0 t0 p Ht0 Hat0. cbn in Ht0. rewrite lookup_insert in Ht0.
      case_decide.
      - injection Ht0 as <-. cbn in Hat0. apply (Hpt p Hat0).
      - apply (Ht _ _ _ Ht0 Hat0). }
    destruct (at_point t) as [| g | u | r | u r | c]; try discriminate.
    + destruct (asyncQueue h) as [| first rest]; [discriminate |].
      destruct (first =? tid)%nat; [| discriminate]. injection Hstep as <-.
      apply Hkeep. intros p [= Hp]. now apply Hg.
    + destruct (awaited_done w g); [| discriminate].
      destruct (limited (clock w) h).
      * destruct ((0 <=? d1)%Z && (0 <=? d2)%Z); [| discriminate].
        injection Hstep as <-.
        destruct (Hkeep (LocalSleep (sleep (clock w + d1 + d2)
                                       (timeToReset (clock w + d1 + d2) h)))
                    [Emitted (Ratelimited (timeToReset (clock w + d1) h) (limit h)
                                (Fetch.method (Loop.options t)) (hash h)
                                (REST.route (Loop.routeID t))
                                (Handler.majorParameter h))])
          as [Hg' Ht']; [discriminate |].
        split; [exact Hg' | exact Ht'].
      * injection Hstep as <-. apply Hkeep. discriminate.
    + destruct (due (clock w) u); [| discriminate]. injection Hstep as <-.
      apply Hkeep. discriminate.
    + destruct (due (clock w) u); [| discriminate]. injection Hstep as <-.
      apply Hkeep. discriminate.
  - unfold settle in Hstep.
    destruct (tasks w !! tid) as [t |] eqn:Htid; [| discriminate].
    destruct (queues (Loop.manager w) !! on t) as [h |]; [| discriminate].
    destruct (at_point t) as [| g | u | r | u r | c]; try discriminate.
    pose proof (makeRequest_body_global (clock w) (fresh w) (Loop.manager w) h
                  (Loop.routeID t) (Loop.url t) (Loop.options t) r o) as Hglobal.
    cbv zeta in Hglobal.
    assert (Hkeep : forall w1 pt,
               globalTimeout (Loop.manager w1)
               = globalTimeout (RequestHandler.manager
                                  (makeRequest_body (clock w) (fresh w) (Loop.manager w) h
                                     (Loop.routeID t) (Loop.url t) (Loop.options t) r o)) ->
               tasks w1 = <[tid := move pt t]> (tasks w) ->
               (forall p, pt <> AwaitGlobal p) ->
               resolved w1 = resolved w ->
               timers w1
               = match timer (makeRequest_body (clock w) (fresh w) (Loop.manager w) h
                                (Loop.routeID t) (Loop.url t) (Loop.options t) r o) with
                 | Some (promise, delay) =>
                     <[promise := sleep (clock w) delay]> (timers w)
                 | None => timers w
                 end ->
               globals_ok w1).
    { intros w1 pt Hg1 Ht1 Hpt Hr1 Htm1.
      assert (Hlive : forall p, promise_live w p -> promise_live w1 p).
      { intros p [Hres | Htimer]; [left; now rewrite Hr1 |]. right. rewrite Htm1.
        destruct (timer _) as [[promise delay] |]; [| exact Htimer].
        rewrite lookup_insert. case_decide; [eauto | exact Htimer]. }
      split.
      - intros p Hp. rewrite Hg1 in Hp.
        destruct Hglobal as [[Hsame _] | (Hnew & delay & Htimer)].
        + apply Hlive, Hg. congruence.
        + right. rewrite Htm1, Htimer. assert (p = fresh w) as -> by congruence.
          rewrite lookup_insert_eq. eauto.
      - intros tid0 t0 p Ht0 Hat0. rewrite Ht1, lookup_insert in Ht0. case_decide.
        + injection Ht0 as <-. cbn in Hat0. now apply Hpt in Hat0.
        + apply Hlive. apply (Ht _ _ _ Ht0 Hat0). }
    injection Hstep as <-.
    destruct (next (makeRequest_body (clock w) (fresh w) (Loop.manager w) h
                      (Loop.routeID t) (Loop.url t) (Loop.options t) r o))
      as [v | e | [delay |] r'];
      (eapply Hkeep; [reflexivity | reflexivity | discriminate | reflexivity | reflexivity]).
  - unfold fire in Hstep.
    destruct (timers w !! p) as [u |]; [| discriminate].
    destruct (due (clock w) u); [| discriminate].
    injection Hstep as <-.
    assert (Hlive : forall p0, promise_live w p0 ->
                     p0 ∈ ({[p]} ∪ resolved w : gset nat)
                     \/ is_Some (delete p (timers w) !! p0)).
    { intros p0 [Hres | Htimer]; [left; set_solver |].
      destruct (decide (p0 = p)) as [-> | Hne]; [left; set_solver |].
      right. now rewrite lookup_delete_ne. }
    split.
    + intros p0. cbn. discriminate.
    + intros tid0 t0 p0 Ht0 Hat0. cbn in Ht0. apply Hlive. apply (Ht _ _ _ Ht0 Hat0).
  - destruct (0 <? dt)%Z; [| discriminate]. injection Hstep as <-.
    split; [exact Hg | exact Ht].
  - injection Hstep as <-. split; [exact Hg | exact Ht].
Qed.

Lemma run_globals schedule :
  forall w w', globals_ok w -> run pkg schedule w = Some w' -> globals_ok w'.
Proof.
  induction schedule as [| l schedule IH]; intros w w' Hinv Hrun; cbn in Hrun.
  - now injection Hrun as <-.
  - destruct (step pkg l w) as [w1 |] eqn:Hstep; [| discriminate].
    eapply IH; [| exact Hrun]. eapply step_globals; eauto.
Qed.

(** X20. The wait at line 85 can always end: in every world reached
    from a manager with no call queued and no global timeout, a call
    that awaits the global timeout it read either read [null], or
    awaits a promise that has resolved or whose timer is still running;
    and as soon as there is nothing left to await, the call can be
    resumed. *)
Theorem global_wait_can_end m schedule w tid t g :
  idle m ->
  globalTimeout m = None ->
  run pkg schedule (initial m) = Some w ->
  tasks w !! tid = Some t ->
  at_point t = AwaitGlobal g ->
  match g with
  | None => True
  | Some p => p ∈ resolved w \/ exists until, timers w !! p = Some until
  end
  /\ (awaited_done w g = true ->
      forall emitting reading, 0 <= emitting -> 0 <= reading ->
        exists w', step pkg (Resume tid emitting reading) w = Some w').
Proof.
  intros Hidle Hnone Hrun Ht Hat.
  assert (Hglobals : globals_ok w).
  { eapply run_globals; [| exact Hrun]. split.
    - intros p. cbn. rewrite Hnone. discriminate.
    - intros tid0 t0 p Ht0. cbn in Ht0. rewrite lookup_empty in Ht0. discriminate. }
  pose proof (reachable_queues pkg m schedule w Hidle Hrun) as [_ Hc].
  split.
  - destruct g as [p |]; [| exact I].
    destruct (proj2 Hglobals _ _ _ Ht Hat) as [Hres | [u Hu]]; eauto.
  - intros Hdone emitting reading Hemitting Hreading.
    assert (Hs : is_settled (at_point t) = false) by now rewrite Hat.
    destruct (Hc _ _ Ht Hs) as (h & Hh & _).
    cbn [step]. unfold push. rewrite Ht, Hh, Hat, Hdone.
    destruct (limited (clock w) h); [| eauto].
    apply Z.leb_le in Hemitting, Hreading. rewrite Hemitting, Hreading. cbn. eauto.
Qed.

(** X21. The sweeper empties a quiet table: in every reachable world
    in which every call has returned or thrown, all queues are empty,
    and a sweep leaves only the handlers whose bucket is still limited
    at that moment. *)
Theorem sweep_quiet_table m schedule w :
  idle m ->
  run pkg schedule (initial m) = Some w ->
  (forall tid t, tasks w !! tid = Some t -> is_settled (at_point t) = true) ->
  (forall k h, queues (Loop.manager w) !! k = Some h -> asyncQueue h = [])
  /\ forall k h, queues (sweep (clock w) (Loop.manager w)) !! k = Some h ->
                 queues (Loop.manager w) !! k = Some h
                 /\ limited (clock w) h = true.
Proof.
  intros Hidle Hrun Hsettled.
  pose proof (reachable_queues pkg m schedule w Hidle Hrun) as [Hq _].
  assert (Hempty : forall k h, queues (Loop.manager w) !! k = Some h -> asyncQueue h = []).
  { intros k h Hk. destruct (Hq _ _ Hk) as (_ & _ & Hmem).
    destruct (asyncQueue h) as [| tid rest]; [reflexivity |].
    destruct (Hmem tid) as (t & Ht & _ & Hs); [left |].
    rewrite (Hsettled _ _ Ht) in Hs. discriminate. }
  split; [exact Hempty |].
  intros k h. rewrite sweep_lookup.
  destruct (queues (Loop.manager w) !! k) as [h0 |] eqn:Hk; [| discriminate].
  destruct (inactive (clock w) h0) eqn:Hin; [discriminate |].
  intros [= <-]. split; [reflexivity |].
  unfold inactive, queue_remaining in Hin. rewrite (Hempty _ _ Hk) in Hin.
  cbn in Hin. now apply negb_false_iff in Hin.
Qed.

End GlobalWait.

Lemma global_wait_can_end_witness :
  exists t,
    Loop.tasks waiting_on_global !! 2%nat = Some t
    /\ (0%nat ∈ Loop.resolved waiting_on_global
        \/ exists until, Loop.timers waiting_on_global !! 0%nat = Some until)
    /\ (Loop.awaited_done waiting_on_global (Some 0%nat) = true ->
        forall emitting reading, 0 <= emitting -> 0 <= reading ->
          exists w', Loop.step Sample.pkg (Loop.Resume 2 emitting reading) waiting_on_global
                     = Some w').
Proof.
  eexists. split; [vm_compute; reflexivity |].
  eapply (global_wait_can_end Sample.pkg Sample.manager during_global
            waiting_on_global 2 _ (Some 0%nat)).
  - intros k h Hk. vm_compute in Hk. discriminate Hk.
  - reflexivity.
  - vm_compute. reflexivity.
  - vm_compute. reflexivity.
  - vm_compute. reflexivity.
Defined.

Lemma sweep_quiet_table_witness :
  (forall k h, Manager.queues (Loop.manager world_one_served) !! k = Some h ->
               Handler.asyncQueue h = [])
  /\ forall k h,
       Manager.queues (Manager.sweep (Loop.clock world_one_served)
                         (Loop.manager world_one_served)) !! k = Some h ->
       Manager.queues (Loop.manager world_one_served) !! k = Some h
       /\ Handler.limited (Loop.clock world_one_served) h = true.
Proof.
  apply (sweep_quiet_table Sample.pkg Sample.manager one_served world_one_served).
  - intros k h Hk. vm_compute in Hk. discriminate Hk.
  - vm_compute. reflexivity.
  - change (map_Forall (fun _ t => is_settled (Loop.at_point t) = true)
                       (Loop.tasks world_one_served)).
    apply map_Forall_to_list. vm_compute (map_to_list _).
    apply List.Forall_cons; [reflexivity | apply List.Forall_nil].
Defined.
